(** * Digital hearing aid: gain control and dynamic range compression

    A shallow embedding of [pico_hearing_aid_digital.py].

    Numeric model.  Python's [int] is [Z].  Python's [float] is modelled
    twice.  The definitions at top level compute in the exact rationals [Q]:
    every float operation of the source ([+], [-], [*], [/], comparison,
    [int(...)]) is the corresponding exact operation, so they give the exact
    values of the source's formulas, from which the computed floats differ
    by rounding, and what is proved of them is proved of those exact values.
    Equality of such values is [Qeq] (written [==]).  Module [B64] models
    binary64 arithmetic itself (rounding to nearest with ties to even,
    infinities, NaN, and the exceptions Python raises) and embeds the
    compressor again over it: what the program computes where rounding or
    overflow matters is stated and proved there.

    The byte buffer is a [list Z] of values in [0, 255], read with stdpp's
    lookup and written by an explicit [setitem] that fails where Python
    raises. *)

From Stdlib Require Import ZArith QArith Qabs Qround Qpower Lia Lra Psatz.
From Stdlib Require Import String Ascii.
From stdpp Require Import base option list.

Local Open Scope Z_scope.

(** ** Floats as exact rationals *)

Module Float.

(** [x < y] on floats, as a boolean. *)
Definition ltb (x y : Q) : bool := negb (Qle_bool y x).

(** [float(z)]: the implicit conversion of an int operand. *)
Definition of_int (z : Z) : Q := inject_Z z.

(** [int(q)]: truncation toward zero. *)
Definition to_int (q : Q) : Z := Z.quot (Qnum q) (Zpos (Qden q)).

End Float.

(** ** Configuration constants *)

Definition SAMPLE_RATE : Z := 16000.
Definition CHUNK_SIZE : nat := 512.

Definition MIN_TIME_MS : Z := 5.
Definition MAX_TIME_MS : Z := 200.

Definition MIN_GAIN : Q := 1 # 2.
Definition MAX_GAIN : Q := 8.

Definition POT_READ_INTERVAL : Z := 20.

(** The compression settings are the two module-level constants that
    [compress_sample] reads.  They are gathered in a record so that the
    threshold can be varied; [source_policy] holds the values of the file. *)
Record policy := Policy {
  COMPRESS_THRESHOLD : Z;
  COMPRESS_RATIO : Q
}.

Definition source_policy : policy :=
  {| COMPRESS_THRESHOLD := 500000; COMPRESS_RATIO := 3 |}.

(** ** Control reader *)

(** The settings that [read_pots] updates and the sample path reads. *)
Record settings := Settings {
  current_gain : Q;
  attack_coeff : Q;
  release_coeff : Q
}.

(** Values of the globals at module load. *)
Definition initial_settings : settings :=
  {| current_gain := 1; attack_coeff := 1 # 10; release_coeff := 1 # 100 |}.

(** [read_pots], with the two ADC readings it obtains as arguments.  It
    returns the updated globals and the pair the function returns. *)
Definition read_pots (gain_raw compress_raw : Z) (s : settings)
  : settings * (Q * Q) :=
  let gain_normalized := (Float.of_int gain_raw / 65535)%Q in
  let current_gain' := (MIN_GAIN + gain_normalized * (MAX_GAIN - MIN_GAIN))%Q in
  let compress_normalized := (Float.of_int compress_raw / 65535)%Q in
  let time_ms :=
    (Float.of_int MIN_TIME_MS
     + compress_normalized * Float.of_int (MAX_TIME_MS - MIN_TIME_MS))%Q in
  let samples_per_time := ((time_ms / 1000) * Float.of_int SAMPLE_RATE)%Q in
  let s' :=
    if Float.ltb 0 samples_per_time then
      {| current_gain := current_gain';
         attack_coeff := (1 / samples_per_time)%Q;
         release_coeff := (1 / samples_per_time)%Q |}
    else
      {| current_gain := current_gain';
         attack_coeff := attack_coeff s;
         release_coeff := release_coeff s |} in
  (s', (current_gain', time_ms)).

(** What [ADC.read_u16] can return. *)
Definition is_u16 (r : Z) : Prop := 0 <= r <= 65535.

(** The clamping of a normalized reading to [0, 1] that the specification
    of the control reader describes (the source has no such step). *)
Definition spec_clamp01 (c : Q) : Q :=
  if Float.ltb c 0 then 0%Q else if Float.ltb 1 c then 1%Q else c.

(** ** Compressor engine *)

Definition max_val : Z := 0x7FFFFF.

(** The envelope follower (the first [if] of [compress_sample]). *)
Definition update_envelope (s : settings) (abs_sample : Z) (envelope : Q) : Q :=
  if Float.ltb envelope (Float.of_int abs_sample) then
    (envelope + attack_coeff s * (Float.of_int abs_sample - envelope))%Q
  else
    (envelope + release_coeff s * (Float.of_int abs_sample - envelope))%Q.

(** The gain reduction factor (the second [if] of [compress_sample]); its
    two intermediate values are named as in the source. *)
Definition over_threshold (p : policy) (envelope : Q) : Q :=
  (envelope / Float.of_int (COMPRESS_THRESHOLD p))%Q.

Definition compressed_ratio (p : policy) (envelope : Q) : Q :=
  (1 + (over_threshold p envelope - 1) / COMPRESS_RATIO p)%Q.

Definition comp_gain (p : policy) (envelope : Q) : Q :=
  if Float.ltb (Float.of_int (COMPRESS_THRESHOLD p)) envelope then
    (Float.of_int (COMPRESS_THRESHOLD p) * compressed_ratio p envelope
     / envelope)%Q
  else 1%Q.

(** The clipping step (the last [if]/[elif] of [compress_sample]). *)
Definition clip (output : Z) : Z :=
  if max_val <? output then max_val
  else if output <? - max_val then - max_val
  else output.

Definition compress_sample (p : policy) (s : settings)
    (sample : Z) (envelope gain : Q) : Z * Q :=
  let abs_sample := Z.abs sample in
  let envelope := update_envelope s abs_sample envelope in
  let comp_gain := comp_gain p envelope in
  let total_gain := (gain * comp_gain)%Q in
  let output := Float.to_int (Float.of_int sample * total_gain) in
  let output := clip output in
  (output, envelope).

(** ** Sample codec (the bit manipulation of the main loop) *)

(** Four buffer bytes to a 32-bit little-endian word. *)
Definition read_word (b0 b1 b2 b3 : Z) : Z :=
  Z.lor (Z.lor (Z.lor b0 (Z.shiftl b1 8)) (Z.shiftl b2 16)) (Z.shiftl b3 24).

(** "Convert to signed". *)
Definition to_signed (w : Z) : Z :=
  if 0x80000000 <=? w then w - 0x100000000 else w.

(** "Get 24-bit value": bytes to sample. *)
Definition decode (b0 b1 b2 b3 : Z) : Z :=
  Z.shiftr (to_signed (read_word b0 b1 b2 b3)) 8.

(** "Convert back to 32-bit" and "handle negative numbers for output". *)
Definition to_word (out : Z) : Z :=
  let w := Z.shiftl out 8 in
  if w <? 0 then w + 0x100000000 else w.

(** The four values stored back for one channel. *)
Definition encode (out : Z) : list Z :=
  let w := to_word out in
  [ Z.land w 0xFF;
    Z.land (Z.shiftr w 8) 0xFF;
    Z.land (Z.shiftr w 16) 0xFF;
    Z.land (Z.shiftr w 24) 0xFF ].

Definition is_byte (b : Z) : Prop := 0 <= b < 256.

(** A policy whose threshold is the largest sample magnitude, 2^23: the
    envelope of 24-bit samples never exceeds it. *)
Definition max_threshold_policy : policy :=
  {| COMPRESS_THRESHOLD := 0x800000; COMPRESS_RATIO := 3 |}.

(** ** The byte buffer *)

(** [buf[idx] = v] on a [bytearray]: fails out of range ([IndexError]) and
    for a value that is not a byte ([ValueError]). *)
Definition setitem (buf : list Z) (idx : nat) (v : Z) : option (list Z) :=
  if decide (idx < length buf)%nat then
    if (0 <=? v) && (v <? 256) then Some (<[idx := v]> buf) else None
  else None.

(** Consecutive stores [buf[idx] = v0; buf[idx+1] = v1; ...]. *)
Fixpoint store (buf : list Z) (idx : nat) (vs : list Z) : option (list Z) :=
  match vs with
  | [] => Some buf
  | v :: vs' => buf' ← setitem buf idx v; store buf' (S idx) vs'
  end.

(** ** One stereo frame (the body of [for i in range(num_frames)]) *)

Definition process_frame (p : policy) (s : settings) (i : nat)
    (st : list Z * Q * Q) : option (list Z * Q * Q) :=
  let '(audio_buffer, envelope_left, envelope_right) := st in
  let idx := (i * 8)%nat in
  b0 ← audio_buffer !! idx;
  b1 ← audio_buffer !! (idx + 1)%nat;
  b2 ← audio_buffer !! (idx + 2)%nat;
  b3 ← audio_buffer !! (idx + 3)%nat;
  b4 ← audio_buffer !! (idx + 4)%nat;
  b5 ← audio_buffer !! (idx + 5)%nat;
  b6 ← audio_buffer !! (idx + 6)%nat;
  b7 ← audio_buffer !! (idx + 7)%nat;
  let left_24 := decode b0 b1 b2 b3 in
  let right_24 := decode b4 b5 b6 b7 in
  let '(left_out, envelope_left) :=
    compress_sample p s left_24 envelope_left (current_gain s) in
  let '(right_out, envelope_right) :=
    compress_sample p s right_24 envelope_right (current_gain s) in
  audio_buffer ← store audio_buffer idx (encode left_out ++ encode right_out);
  Some (audio_buffer, envelope_left, envelope_right).

(** ** The machine: program globals, hardware, and the interrupt *)

(** What the hardware delivers: the bytes of the k-th [readinto] and the
    two ADC readings of the k-th [read_pots]. *)
Record env := Env {
  mic : nat -> list Z;
  adc_gain : nat -> Z;
  adc_compress : nat -> Z
}.

(** The driver delivers bytes and [read_u16] delivers 16-bit readings. *)
Definition env_ok (E : env) : Prop :=
  (forall k, Forall is_byte (mic E k))
  /\ (forall k, is_u16 (adc_gain E k))
  /\ (forall k, is_u16 (adc_compress E k)).

Inductive event :=
| EvWrite (data : list Z)
| EvPrint (msg : string)
| EvDeinitIn
| EvDeinitOut.

Record machine := Machine {
  audio_buffer : list Z;
  envelope_left : Q;
  envelope_right : Q;
  controls : settings;
  loop_count : Z;
  reads : nat;            (* [readinto] calls so far *)
  refreshes : nat;        (* [read_pots] calls so far *)
  irq : option nat;       (* polls left before Ctrl+C is seen; [None]: none pending *)
  trace : list event      (* observable actions, oldest first *)
}.

Definition initial_machine (irq : option nat) : machine :=
  {| audio_buffer := replicate CHUNK_SIZE 0;
     envelope_left := 0; envelope_right := 0;
     controls := initial_settings;
     loop_count := 0;
     reads := 0; refreshes := 0;
     irq := irq; trace := [] |}.

(** Assignments to groups of globals. *)
Definition set_audio (m : machine) (buf : list Z) (el er : Q) : machine :=
  {| audio_buffer := buf; envelope_left := el; envelope_right := er;
     controls := controls m; loop_count := loop_count m;
     reads := reads m; refreshes := refreshes m;
     irq := irq m; trace := trace m |}.

Definition set_input (m : machine) (buf : list Z) (reads : nat) : machine :=
  {| audio_buffer := buf; envelope_left := envelope_left m;
     envelope_right := envelope_right m;
     controls := controls m; loop_count := loop_count m;
     reads := reads; refreshes := refreshes m;
     irq := irq m; trace := trace m |}.

Definition set_controls (m : machine) (s : settings) (count : Z)
    (refreshes : nat) : machine :=
  {| audio_buffer := audio_buffer m; envelope_left := envelope_left m;
     envelope_right := envelope_right m;
     controls := s; loop_count := count;
     reads := reads m; refreshes := refreshes;
     irq := irq m; trace := trace m |}.

Definition set_irq (m : machine) (i : option nat) : machine :=
  {| audio_buffer := audio_buffer m; envelope_left := envelope_left m;
     envelope_right := envelope_right m;
     controls := controls m; loop_count := loop_count m;
     reads := reads m; refreshes := refreshes m;
     irq := i; trace := trace m |}.

Definition add_event (m : machine) (e : event) : machine :=
  {| audio_buffer := audio_buffer m; envelope_left := envelope_left m;
     envelope_right := envelope_right m;
     controls := controls m; loop_count := loop_count m;
     reads := reads m; refreshes := refreshes m;
     irq := irq m; trace := trace m ++ [e] |}.

(** ** Computations: state, exceptions, and a bound on loop unrolling *)

Inductive exn := KeyboardInterrupt | OtherError.

Inductive result (A : Type) :=
| Ok (a : A)
| Raised (e : exn)
| OutOfFuel.
Arguments Ok {A} a.
Arguments Raised {A} e.
Arguments OutOfFuel {A}.

Definition M (A : Type) : Type := machine -> result A * machine.

#[global] Instance M_ret : MRet M := fun A a m => (Ok a, m).
#[global] Instance M_bind : MBind M := fun A B f c m =>
  match c m with
  | (Ok a, m') => f a m'
  | (Raised e, m') => (Raised e, m')
  | (OutOfFuel, m') => (OutOfFuel, m')
  end.

Definition get : M machine := fun m => (Ok m, m).
Definition out_of_fuel {A} : M A := fun m => (OutOfFuel, m).
Definition emit (e : event) : M unit := fun m => (Ok tt, add_event m e).

(** A point where a pending [KeyboardInterrupt] is delivered. *)
Definition poll : M unit := fun m =>
  match irq m with
  | None => (Ok tt, m)
  | Some O => (Raised KeyboardInterrupt, set_irq m None)
  | Some (S n) => (Ok tt, set_irq m (Some n))
  end.

(** [try: body / except KeyboardInterrupt: handler / finally: final]. *)
Definition try_except_finally (body handler final : M unit) : M unit := fun m =>
  match body m with
  | (Ok tt, m1) => final m1
  | (OutOfFuel, m1) => (OutOfFuel, m1)
  | (Raised KeyboardInterrupt, m1) =>
      match handler m1 with
      | (Ok tt, m2) => final m2
      | (OutOfFuel, m2) => (OutOfFuel, m2)
      | (Raised e, m2) =>
          match final m2 with
          | (Ok tt, m3) => (Raised e, m3)
          | r => r
          end
      end
  | (Raised e, m1) =>
      match final m1 with
      | (Ok tt, m2) => (Raised e, m2)
      | r => r
      end
  end.

(** [for i in range(start, start + count): body(i)]. *)
Fixpoint for_range (body : nat -> M unit) (start count : nat) : M unit :=
  match count with
  | O => mret tt
  | S n => body start;; for_range body (S start) n
  end.

(** ** The statements of the main loop *)

Section Program.
Variable p : policy.
Variable E : env.

(** [num_read = audio_in.readinto(audio_buffer)]: the driver copies at most
    [len(audio_buffer)] bytes to the front of the buffer. *)
Definition readinto : M Z := fun m =>
  let data := take (length (audio_buffer m)) (mic E (reads m)) in
  (Ok (Z.of_nat (length data)),
   set_input m (data ++ drop (length data) (audio_buffer m)) (S (reads m))).

(** [loop_count += 1] and the periodic [read_pots()]. *)
Definition refresh_controls : M unit := fun m =>
  let loop_count' := loop_count m + 1 in
  if POT_READ_INTERVAL <=? loop_count' then
    let '(s', _) :=
      read_pots (adc_gain E (refreshes m)) (adc_compress E (refreshes m))
                (controls m) in
    (Ok tt, set_controls m s' 0 (S (refreshes m)))
  else
    (Ok tt, set_controls m (controls m) loop_count' (refreshes m)).

(** One pass of the [for] body on the globals. *)
Definition frame_step (i : nat) : M unit := fun m =>
  match process_frame p (controls m) i
          (audio_buffer m, envelope_left m, envelope_right m) with
  | Some (buf, el, er) => (Ok tt, set_audio m buf el er)
  | None => (Raised OtherError, m)
  end.

(** [audio_out.write(audio_buffer[:num_read])]. *)
Definition write_out (num_read : Z) : M unit :=
  m ← get; emit (EvWrite (take (Z.to_nat num_read) (audio_buffer m))).

(** The body of [while True]. *)
Definition iteration : M unit :=
  poll;;
  num_read ← readinto;
  if 0 <? num_read then
    poll;;
    refresh_controls;;
    let num_frames := num_read / 8 in
    for_range (fun i => poll;; frame_step i) 0 (Z.to_nat num_frames);;
    poll;;
    write_out num_read
  else mret tt.

(** [while True], unrolled at most [fuel] times. *)
Fixpoint while_true (fuel : nat) : M unit :=
  match fuel with
  | O => out_of_fuel
  | S n => iteration;; while_true n
  end.

(** The [try] / [except KeyboardInterrupt] / [finally] statement. *)
Definition main (fuel : nat) : M unit :=
  try_except_finally
    (while_true fuel)
    (emit (EvPrint EmptyString);; emit (EvPrint "Stopping..."))
    (emit EvDeinitIn;; emit EvDeinitOut;; emit (EvPrint "Stopped.")).

End Program.

(** ** Specification vocabulary *)

(** The stereo frames of a byte string: consecutive groups of 8 bytes, each
    decoded to a (left, right) pair; a trailing group of fewer than 8 bytes
    is not a frame. *)
Fixpoint frames (bytes : list Z) : list (Z * Z) :=
  match bytes with
  | b0 :: b1 :: b2 :: b3 :: b4 :: b5 :: b6 :: b7 :: rest =>
      (decode b0 b1 b2 b3, decode b4 b5 b6 b7) :: frames rest
  | _ => []
  end.

(** The compressor run over a list of frames with the two envelopes threaded
    through: the encoded output bytes and the final envelopes. *)
Fixpoint compress_frames (p : policy) (s : settings) (fs : list (Z * Z))
    (el er : Q) : list Z * Q * Q :=
  match fs with
  | [] => ([], el, er)
  | (l, r) :: fs' =>
      let '(left_out, el') := compress_sample p s l el (current_gain s) in
      let '(right_out, er') := compress_sample p s r er (current_gain s) in
      let '(out, el'', er'') := compress_frames p s fs' el' er' in
      (encode left_out ++ encode right_out ++ out, el'', er'')
  end.

(** Occurrences of stream releases in a trace. *)
Definition is_deinit_in (e : event) : bool :=
  match e with EvDeinitIn => true | _ => false end.
Definition is_deinit_out (e : event) : bool :=
  match e with EvDeinitOut => true | _ => false end.
Definition count (f : event -> bool) (t : list event) : nat :=
  length (List.filter f t).

(** The envelope invariant: both envelopes are non-negative and both
    coefficients are in (0, 1]. *)
Definition coeff_ok (s : settings) : Prop :=
  (0 < attack_coeff s <= 1)%Q /\ (0 < release_coeff s <= 1)%Q.

Definition envelopes_ok (m : machine) : Prop :=
  (0 <= envelope_left m)%Q /\ (0 <= envelope_right m)%Q
  /\ coeff_ok (controls m).

(** The trace holds [a] releases of the input stream and [b] of the output
    stream. *)
Definition released (a b : nat) (m : machine) : Prop :=
  count is_deinit_in (trace m) = a /\ count is_deinit_out (trace m) = b.

(** Attack and release use the same coefficient. *)
Definition coeffs_equal (m : machine) : Prop :=
  attack_coeff (controls m) = release_coeff (controls m).

(** No control refresh has happened and at most [k] chunks were counted. *)
Definition unrefreshed (k : Z) (m : machine) : Prop :=
  controls m = initial_settings /\ 0 <= loop_count m <= k.

(** [hoare P c Q]: from a machine satisfying [P], the machine [c] ends in
    satisfies [Q], whether [c] returns, raises or is cut short. *)
Definition hoare {A : Type} (P : machine -> Prop) (c : M A)
    (Q : machine -> Prop) : Prop :=
  forall m, P m -> Q (snd (c m)).

(** [counts_down k c]: with an interrupt pending, [c] does not exhaust the
    fuel, and if it returns the interrupt is still pending, at least [k]
    polls closer. *)
Definition counts_down {A : Type} (k : nat) (c : M A) : Prop :=
  forall m n, irq m = Some n ->
    match c m with
    | (Ok _, m') => exists n', irq m' = Some n' /\ (n' + k <= n)%nat
    | (Raised _, _) => True
    | (OutOfFuel, _) => False
    end.

(** A chunk of one frame (left sample 1000000, right sample -2^23) and seven
    trailing bytes, and an environment that delivers it at every read. *)
Definition demo_chunk : list Z :=
  [0x00; 0x40; 0x42; 0x0F; 0x00; 0x00; 0x00; 0x80; 1; 2; 3; 4; 5; 6; 7].

Definition demo_env : env :=
  {| mic := fun _ => demo_chunk;
     adc_gain := fun _ => 65535;
     adc_compress := fun _ => 0 |}.

(** [fits L c]: on a buffer of [L] bytes, [c] raises nothing but the
    interrupt and leaves the buffer [L] bytes long. *)
Definition fits {A : Type} (L : nat) (c : M A) : Prop :=
  forall m, length (audio_buffer m) = L ->
    fst (c m) <> Raised OtherError
    /\ length (audio_buffer (snd (c m))) = L.

(** The statements of the [finally] block, and of the handler before it. *)
Definition finalized (m : machine) : machine :=
  add_event (add_event (add_event m EvDeinitIn) EvDeinitOut)
            (EvPrint "Stopped.").

Definition handled (m : machine) : machine :=
  add_event (add_event m (EvPrint EmptyString)) (EvPrint "Stopping...").

(** ** Further specification vocabulary *)

(** Occurrences of output writes in a trace. *)
Definition is_write (e : event) : bool :=
  match e with EvWrite _ => true | _ => false end.

(** [triple P c Q X]: from a machine satisfying [P], if [c] returns [a] the
    machine satisfies [Q a]; if it raises or is cut short the machine
    satisfies [X]. *)
Definition triple {A : Type} (P : machine -> Prop) (c : M A)
    (Q : A -> machine -> Prop) (X : machine -> Prop) : Prop :=
  forall m, P m ->
    match c m with
    | (Ok a, m') => Q a m'
    | (Raised _, m') => X m'
    | (OutOfFuel, m') => X m'
    end.

(** The bookkeeping of the control refresh.  [x] reads and [y] chunks are
    under way: taken but not yet counted, resp. counted but not yet
    written. *)
Definition cadence (x y : Z) (m : machine) : Prop :=
  0 <= loop_count m < POT_READ_INTERVAL
  /\ POT_READ_INTERVAL * Z.of_nat (refreshes m) + loop_count m + x
     <= Z.of_nat (reads m)
  /\ POT_READ_INTERVAL * Z.of_nat (refreshes m) + loop_count m
     = Z.of_nat (count is_write (trace m)) + y.

Definition cadence_exit (m : machine) : Prop :=
  0 <= loop_count m < POT_READ_INTERVAL
  /\ POT_READ_INTERVAL * Z.of_nat (refreshes m) + loop_count m
     <= Z.of_nat (reads m)
  /\ Z.of_nat (count is_write (trace m))
     <= POT_READ_INTERVAL * Z.of_nat (refreshes m) + loop_count m
     <= Z.of_nat (count is_write (trace m)) + 1.

(** The buffer holds [CHUNK_SIZE] bytes and every write of the trace is a
    non-empty string of at most [CHUNK_SIZE] bytes. *)
Definition writes_ok (m : machine) : Prop :=
  Forall is_byte (audio_buffer m)
  /\ length (audio_buffer m) = CHUNK_SIZE
  /\ (forall data, In (EvWrite data) (trace m) ->
        Forall is_byte data /\ (0 < length data <= CHUNK_SIZE)%nat).

(** [c] with no interrupt pending: it neither raises [KeyboardInterrupt] nor
    is cut short, and no interrupt is pending afterwards. *)
Definition quiet {A : Type} (c : M A) : Prop :=
  forall m, irq m = None ->
    irq (snd (c m)) = None
    /\ fst (c m) <> Raised KeyboardInterrupt
    /\ fst (c m) <> OutOfFuel.

(** ** Interrupted and uninterrupted runs *)

(** The byte strings written to the output stream, in order. *)
Definition writes (t : list event) : list (list Z) :=
  omap (fun e => match e with EvWrite data => Some data | _ => None end) t.

(** The same machine with no interrupt pending. *)
Definition uninterrupted (m : machine) : machine := set_irq m None.

(** [c] only appends to the trace, and a pending interrupt does nothing to
    it but cut it short: as long as the interrupt is not delivered, [c]
    proceeds as it does with no interrupt pending; when it is delivered, the
    trace is an initial part of the trace without interrupt. *)
Definition cut_short {A : Type} (c : M A) : Prop :=
  forall m,
    trace m `prefix_of` trace (snd (c m))
    /\ match c m with
       | (Raised KeyboardInterrupt, m') =>
           trace m' `prefix_of` trace (snd (c (uninterrupted m)))
       | (r, m') => c (uninterrupted m) = (r, uninterrupted m')
       end.

(** ** Binary64 arithmetic

    Python's [float] is an IEEE 754 binary64 number.  The finite ones are
    the rationals [m * 2^e] with [|m| < 2^53] and [-1074 <= e <= 971]; every
    operation returns the float nearest to the exact result, a tie going to
    the one with an even [m], and an infinity when that float would reach
    [2^1024].  The sign of a zero is not represented: the program never
    observes it. *)

Module B64.

Inductive float :=
| Finite (q : Q)
| Inf (negative : bool)
| NaN.

(** The nearest integer, ties to even. *)
Definition nearest_even (q : Q) : Z :=
  let f := Qfloor q in
  match (q - inject_Z f ?= 1 # 2)%Q with
  | Lt => f
  | Gt => f + 1
  | Eq => if Z.even f then f else f + 1
  end.

(** [floor (log2 x)] for [x > 0]: [x] is first scaled to be at least 1. *)
Definition ilog2 (x : Q) : Z :=
  let s := Z.log2 (Zpos (Qden x)) + 1 in
  Z.log2 (Qfloor (x * 2 ^ s)) - s.

(** The exponent of the last place of the floats around [x > 0]: 53
    significant bits, and nothing finer than [2^-1074]. *)
Definition ulp_exp (x : Q) : Z := Z.max (ilog2 x - 52) (-1074).

Definition round_pos (x : Q) : Q :=
  let e := ulp_exp x in
  (inject_Z (nearest_even (x / 2 ^ e)) * 2 ^ e)%Q.

(** Rounding to nearest, with an unbounded exponent range above. *)
Definition round (x : Q) : Q :=
  match (x ?= 0)%Q with
  | Eq => 0%Q
  | Gt => round_pos x
  | Lt => (- round_pos (- x))%Q
  end.

(** The float for the exact result [x] of an operation. *)
Definition of_exact (x : Q) : float :=
  let r := round x in
  if Qle_bool (2 ^ 1024) (Qabs r) then Inf (negb (Qle_bool 0 r)) else Finite r.

Definition is_negative (q : Q) : bool := negb (Qle_bool 0 q).
Definition is_zero (q : Q) : bool := Qeq_bool q 0.

Definition neg (x : float) : float :=
  match x with
  | Finite a => Finite (- a)
  | Inf s => Inf (negb s)
  | NaN => NaN
  end.

Definition add (x y : float) : float :=
  match x, y with
  | Finite a, Finite b => of_exact (a + b)
  | Finite _, Inf s => Inf s
  | Inf s, Finite _ => Inf s
  | Inf s, Inf s' => if Bool.eqb s s' then Inf s else NaN
  | _, _ => NaN
  end.

Definition sub (x y : float) : float := add x (neg y).

Definition mul (x y : float) : float :=
  match x, y with
  | Finite a, Finite b => of_exact (a * b)
  | Finite a, Inf s => if is_zero a then NaN else Inf (xorb (is_negative a) s)
  | Inf s, Finite b => if is_zero b then NaN else Inf (xorb s (is_negative b))
  | Inf s, Inf s' => Inf (xorb s s')
  | _, _ => NaN
  end.

(** What the program can raise in its arithmetic. *)
Inductive exn := OverflowError | ValueError | ZeroDivisionError.

Definition R (A : Type) : Type := (exn + A)%type.

#[global] Instance R_ret : MRet R := fun A a => inr a.
#[global] Instance R_bind : MBind R := fun A B f c =>
  match c with
  | inl e => inl e
  | inr a => f a
  end.

(** [x / y]: Python raises on a zero divisor instead of returning an
    infinity or a NaN. *)
Definition div (x y : float) : R float :=
  match x, y with
  | _, Finite b =>
      if is_zero b then inl ZeroDivisionError
      else match x with
           | Finite a => inr (of_exact (a / b))
           | Inf s => inr (Inf (xorb s (is_negative b)))
           | NaN => inr NaN
           end
  | Finite _, Inf _ => inr (Finite 0)
  | Inf _, Inf _ => inr NaN
  | _, _ => inr NaN
  end.

(** [float(z)], also the implicit conversion of an [int] operand of a float
    operation: an [int] too large for a float is an [OverflowError]. *)
Definition of_int (z : Z) : R float :=
  match of_exact (inject_Z z) with
  | Finite q => inr (Finite q)
  | _ => inl OverflowError
  end.

(** [int(x)]: truncation toward zero. *)
Definition to_int (x : float) : R Z :=
  match x with
  | Finite q => inr (Float.to_int q)
  | Inf _ => inl OverflowError
  | NaN => inl ValueError
  end.

(** [x > z] and [z > x] for a float [x] and an [int] [z]: Python compares
    the exact values. *)
Definition gt_int (x : float) (z : Z) : bool :=
  match x with
  | Finite q => negb (Qle_bool q (inject_Z z))
  | Inf s => negb s
  | NaN => false
  end.

Definition int_gt (z : Z) (x : float) : bool :=
  match x with
  | Finite q => negb (Qle_bool (inject_Z z) q)
  | Inf s => s
  | NaN => false
  end.

(** A float literal: the float nearest to the decimal. *)
Definition literal (q : Q) : float := of_exact q.

(** *** The compressor in binary64 *)

Definition COMPRESS_THRESHOLD : Z := 500000.
Definition COMPRESS_RATIO : float := literal 3.

Record settings := Settings {
  current_gain : float;
  attack_coeff : float;
  release_coeff : float
}.

(** Values of the globals at module load. *)
Definition initial_settings : settings :=
  {| current_gain := literal 1;
     attack_coeff := literal (1 # 10);
     release_coeff := literal (1 # 100) |}.

(** The envelope follower (the first [if] of [compress_sample]). *)
Definition update_envelope (s : settings) (abs_sample : Z) (envelope : float)
  : R float :=
  if int_gt abs_sample envelope then
    a ← of_int abs_sample;
    inr (add envelope (mul (attack_coeff s) (sub a envelope)))
  else
    a ← of_int abs_sample;
    inr (add envelope (mul (release_coeff s) (sub a envelope))).

(** The gain reduction factor (the second [if] of [compress_sample]). *)
Definition comp_gain (envelope : float) : R float :=
  if gt_int envelope COMPRESS_THRESHOLD then
    threshold ← of_int COMPRESS_THRESHOLD;
    over_threshold ← div envelope threshold;
    excess ← div (sub over_threshold (literal 1)) COMPRESS_RATIO;
    let compressed_ratio := add (literal 1) excess in
    div (mul threshold compressed_ratio) envelope
  else inr (literal 1).

(** The values that [comp_gain] computes above the threshold, operation by
    operation, as long as none overflows. *)
Definition over_threshold (envelope : Q) : Q := round (envelope / 500000).

Definition compressed_ratio (envelope : Q) : Q :=
  round (1 + round (round (over_threshold envelope - 1) / 3)).

Definition factor (envelope : Q) : Q :=
  round (round (500000 * compressed_ratio envelope) / envelope).

(** "Apply gain to sample" and the clipping step. *)
Definition apply_gain (sample : Z) (total_gain : float) : R Z :=
  x ← of_int sample;
  output ← to_int (mul x total_gain);
  inr (clip output).

Definition compress_sample (s : settings) (sample : Z) (envelope gain : float)
  : R (Z * float) :=
  let abs_sample := Z.abs sample in
  envelope ← update_envelope s abs_sample envelope;
  comp_gain ← comp_gain envelope;
  let total_gain := mul gain comp_gain in
  output ← apply_gain sample total_gain;
  inr (output, envelope).

(** The rationals on the grid of the floats, and the finite floats. *)
Definition representable (x : Q) : Prop :=
  exists m e : Z, (x == inject_Z m * 2 ^ e)%Q /\ Z.abs m < 2 ^ 53 /\ -1074 <= e.

Definition is_float (x : Q) : Prop :=
  representable x /\ (Qabs x < 2 ^ 1024)%Q.

(** [x] is a finite float with a value between [lo] and [hi]. *)
Definition finite_in (x : float) (lo hi : Q) : Prop :=
  exists q : Q, x = Finite q /\ representable q /\ (lo <= q <= hi)%Q.

(** [x] is the finite float of value [q]. *)
Definition has_value (x : float) (q : Q) : Prop :=
  exists q' : Q, x = Finite q' /\ (q' == q)%Q.

End B64.
(** ** The microphone level meter ([test_inmp441.py]) *)

Module Meter.

(** [s * n] on a string: [n] copies, none for [n <= 0]. *)
Fixpoint repeat_string (s : string) (n : nat) : string :=
  match n with
  | O => EmptyString
  | S k => String.append s (repeat_string s k)
  end.

Definition str_mul (s : string) (n : Z) : string :=
  repeat_string s (Z.to_nat n).

(** "Track DC offset": [dc * 0.99 + x * 0.01]. *)
Definition dc_track (dc : Q) (x_24 : Z) : Q :=
  (dc * (99 # 100) + Float.of_int x_24 * (1 # 100))%Q.

(** "Remove DC and get 16-bit value". *)
Definition remove_dc (x_24 : Z) (dc : Q) : Z :=
  Z.shiftr (x_24 - Float.to_int dc) 8.

(** "Level meter (0-20 characters)". *)
Definition level (x_16 : Z) : Z := Z.min 20 (Z.abs x_16 / 500).

Definition bar (lvl : Z) : string :=
  String.append (str_mul "#" lvl) (str_mul " " (20 - lvl)).

(** The four arguments of the [format] call of one printed line. *)
Record line := Line {
  left_16 : Z;
  left_bar : string;
  right_16 : Z;
  right_bar : string
}.

(** The body of [while True] up to the [print]: from the buffer, the number
    of bytes read and the two DC estimates to the printed line (if any) and
    the new DC estimates; [None] is an [IndexError]. *)
Definition step (buffer : list Z) (num_read : Z) (dc_left dc_right : Q)
  : option (option line * Q * Q) :=
  if 8 <=? num_read then
    b0 ← buffer !! 0%nat;
    b1 ← buffer !! 1%nat;
    b2 ← buffer !! 2%nat;
    b3 ← buffer !! 3%nat;
    b4 ← buffer !! 4%nat;
    b5 ← buffer !! 5%nat;
    b6 ← buffer !! 6%nat;
    b7 ← buffer !! 7%nat;
    let left_24 := decode b0 b1 b2 b3 in
    let right_24 := decode b4 b5 b6 b7 in
    let dc_left := dc_track dc_left left_24 in
    let dc_right := dc_track dc_right right_24 in
    let left_16 := remove_dc left_24 dc_left in
    let right_16 := remove_dc right_24 dc_right in
    let left_level := level left_16 in
    let right_level := level right_16 in
    let left_bar := bar left_level in
    let right_bar := bar right_level in
    Some (Some {| left_16 := left_16; left_bar := left_bar;
                  right_16 := right_16; right_bar := right_bar |},
          dc_left, dc_right)
  else Some (None, dc_left, dc_right).

(** A DC estimate within the range of the 24-bit samples. *)
Definition dc_in_range (dc : Q) : Prop :=
  (inject_Z (- 2 ^ 23) <= dc <= inject_Z (2 ^ 23 - 1))%Q.

End Meter.

(** ** The host-side plotter ([live_plot.py])

    The serial port is modelled by what it delivers: for each call of
    [update], the results of [ser.readline().decode('utf-8').strip()] for
    the lines read while [ser.in_waiting > 0], [None] standing for a line on
    which [decode] raises [UnicodeDecodeError].  [float] is a parameter
    returning finite values; the strings [nan] and [inf] are not modelled. *)

Module Plot.

Definition BUFFER_SIZE : nat := 500.

(** [p in s] on strings, by trying every position of [s]. *)
Fixpoint starts_with (p s : string) : bool :=
  match p, s with
  | EmptyString, _ => true
  | String _ _, EmptyString => false
  | String a p', String b s' => Ascii.eqb a b && starts_with p' s'
  end.

Fixpoint is_in (p s : string) : bool :=
  starts_with p s
  || match s with
     | EmptyString => false
     | String _ s' => is_in p s'
     end.

(** What [p in s] means: [p] occurs somewhere in [s]. *)
Definition contains (p s : string) : Prop :=
  exists pre post : string, s = String.append pre (String.append p post).

(** An entry of [serial.tools.list_ports.comports()]. *)
Record port := Port {
  device : string;
  description : string
}.

Definition looks_like_pico (p : port) : bool :=
  is_in "ttyACM" (device p) || is_in "usbmodem" (device p).

(** [find_pico_port]: what it prints and what it returns. *)
Fixpoint find_pico_port (ports : list port) : list string * option string :=
  match ports with
  | [] => ([], None)
  | p :: rest =>
      if looks_like_pico p then
        ([String.append "Found potential Pico at: " (device p)],
         Some (device p))
      else find_pico_port rest
  end.

(** [s.split(',')]. *)
Fixpoint split_comma (s : string) : list string :=
  match s with
  | EmptyString => [EmptyString]
  | String c rest =>
      if Ascii.eqb c ","%char then EmptyString :: split_comma rest
      else match split_comma rest with
           | first :: others => String c first :: others
           | [] => [String c EmptyString]
           end
  end.

(** [d.append(x)] on a [deque] with [maxlen=BUFFER_SIZE]: a full deque drops
    its oldest entry. *)
Definition deque_append (d : list Q) (x : Q) : list Q :=
  if (BUFFER_SIZE <=? length d)%nat then drop 1 d ++ [x] else d ++ [x].

(** [max(d)], [min(d)] and [d[-1]]; [None] on an empty sequence. *)
Definition py_max (d : list Q) : option Q :=
  match d with
  | [] => None
  | x :: rest =>
      Some (fold_left (fun best y => if Float.ltb best y then y else best) rest x)
  end.

Definition py_min (d : list Q) : option Q :=
  match d with
  | [] => None
  | x :: rest =>
      Some (fold_left (fun best y => if Float.ltb y best then y else best) rest x)
  end.

Inductive exn := UnboundLocalError | EmptySequenceError.

Inductive event :=
| Debug (v_left v_right : Q)
| BadData (line : string)
| Warning (total : Z)
| Redraw (curr_left amp_left curr_right amp_right : Q).

(** The variables [update] shares with [main]. *)
Record state := State {
  voltage_left : list Q;
  voltage_right : list Q;
  total_samples : Z;
  empty_frames : Z
}.

(** The state of one call of [update]: the shared state, the locals
    [line_data] (unbound at first) and [samples_read], and what was printed
    or drawn. *)
Record call := Call {
  shared : state;
  line_data : option string;
  samples_read : Z;
  log : list event
}.

Section Update.
(** [float(s)]; [None] is a [ValueError]. *)
Variable parse_float : string -> option Q.

(** The [except] clause: it prints [line_data], which must be bound. *)
Definition handler (c : call) : exn + call :=
  match line_data c with
  | None => inl UnboundLocalError
  | Some l =>
      inr {| shared := shared c; line_data := line_data c;
             samples_read := samples_read c;
             log := log c ++ [BadData l] |}
  end.

(** One pass of the [while] loop.  [raw] is the result of
    [ser.readline().decode('utf-8').strip()], [None] when [decode] raises
    [UnicodeDecodeError]. *)
Definition read_line (raw : option string) (c : call) : exn + call :=
  match raw with
  | None => handler c
  | Some l =>
      let c := {| shared := shared c; line_data := Some l;
                  samples_read := samples_read c; log := log c |} in
      if negb (l =? EmptyString)%string && is_in "," l then
        let parts := split_comma l in
        if (length parts =? 2)%nat then
          match parts with
          | [p0; p1] =>
              match parse_float p0 with
              | None => handler c
              | Some v_left =>
                  match parse_float p1 with
                  | None => handler c
                  | Some v_right =>
                      let n := samples_read c + 1 in
                      inr {| shared :=
                               {| voltage_left :=
                                    deque_append (voltage_left (shared c)) v_left;
                                  voltage_right :=
                                    deque_append (voltage_right (shared c)) v_right;
                                  total_samples := total_samples (shared c);
                                  empty_frames := empty_frames (shared c) |};
                             line_data := Some l;
                             samples_read := n;
                             log := if n mod 10 =? 1
                                    then log c ++ [Debug v_left v_right]
                                    else log c |}
                  end
              end
          | _ => inr c
          end
        else inr c
      else inr c
  end.

Fixpoint read_lines (lines : list (option string)) (c : call) : exn + call :=
  match lines with
  | [] => inr c
  | raw :: rest =>
      match read_line raw c with
      | inl e => inl e
      | inr c' => read_lines rest c'
      end
  end.

(** The part of [update] after the loop. *)
Definition finish (c : call) : exn + (state * list event) :=
  let s := shared c in
  if 0 <? samples_read c then
    match last (voltage_left s), py_max (voltage_left s), py_min (voltage_left s),
          last (voltage_right s), py_max (voltage_right s), py_min (voltage_right s)
    with
    | Some cl, Some maxl, Some minl, Some cr, Some maxr, Some minr =>
        inr ({| voltage_left := voltage_left s;
                voltage_right := voltage_right s;
                total_samples := total_samples s + samples_read c;
                empty_frames := 0 |},
             log c ++ [Redraw cl (maxl - minl)%Q cr (maxr - minr)%Q])
    | _, _, _, _, _, _ => inl EmptySequenceError
    end
  else
    let e := empty_frames s + 1 in
    if e =? 40 then
      inr ({| voltage_left := voltage_left s; voltage_right := voltage_right s;
              total_samples := total_samples s; empty_frames := 0 |},
           log c ++ [Warning (total_samples s)])
    else
      inr ({| voltage_left := voltage_left s; voltage_right := voltage_right s;
              total_samples := total_samples s; empty_frames := e |},
           log c).

(** [update(frame)] on the lines waiting in the serial buffer. *)
Definition update (lines : list (option string)) (s : state)
  : exn + (state * list event) :=
  match read_lines lines
          {| shared := s; line_data := None; samples_read := 0; log := [] |} with
  | inl e => inl e
  | inr c => finish c
  end.

(** The animation calls [update] once per frame; [calls] gives, for each
    frame, the lines waiting at that moment.  The run is followed up to the
    first call that raises. *)
Fixpoint run (calls : list (list (option string))) (s : state)
  : exn + (state * list event) :=
  match calls with
  | [] => inr (s, [])
  | lines :: rest =>
      match update lines s with
      | inl e => inl e
      | inr (s', evs) =>
          match run rest s' with
          | inl e => inl e
          | inr (s'', evs') => inr (s'', evs ++ evs')
          end
      end
  end.

(** The samples a list of lines contributes: a line counts when it has
    exactly two comma-separated fields and both parse. *)
Definition sample_of (l : string) : option (Q * Q) :=
  match split_comma l with
  | [p0; p1] =>
      match parse_float p0, parse_float p1 with
      | Some a, Some b => Some (a, b)
      | _, _ => None
      end
  | _ => None
  end.

Definition samples_of (lines : list (option string)) : list (Q * Q) :=
  omap (fun raw => raw ≫= sample_of) lines.

End Update.

(** The two deques as [main] creates them. *)
Definition initial_state : state :=
  {| voltage_left := replicate BUFFER_SIZE (165 # 100);
     voltage_right := replicate BUFFER_SIZE (165 # 100);
     total_samples := 0; empty_frames := 0 |}.

Definition is_warning (e : event) : bool :=
  match e with Warning _ => true | _ => false end.

Definition no_pico (p : port) : Prop :=
  ~ contains "ttyACM" (device p) /\ ~ contains "usbmodem" (device p).

Definition full (s : state) : Prop :=
  length (voltage_left s) = BUFFER_SIZE /\ length (voltage_right s) = BUFFER_SIZE.

End Plot.

(** * Properties *)

(** ** Float arithmetic *)

Lemma ltb_lt (x y : Q) : Float.ltb x y = true <-> (x < y)%Q.
Proof.
  unfold Float.ltb. rewrite negb_true_iff, <- not_true_iff_false, Qle_bool_iff.
  split; [apply Qnot_le_lt | apply Qlt_not_le].
Qed.

Lemma ltb_ge (x y : Q) : Float.ltb x y = false <-> (y <= x)%Q.
Proof. unfold Float.ltb. rewrite negb_false_iff. apply Qle_bool_iff. Qed.

(** [int] of a float that is a whole number. *)
Lemma to_int_exact (q : Q) (z : Z) : (q == inject_Z z)%Q -> Float.to_int q = z.
Proof.
  unfold Float.to_int, Qeq; simpl. intros H.
  rewrite Z.mul_1_r in H. rewrite H. apply Z.quot_mul. discriminate.
Qed.

(** A positive float and its reciprocal. *)
Lemma Qinv_spec (e : Q) : (0 < e)%Q -> (0 < / e /\ e * / e == 1)%Q.
Proof.
  intros H. split; [now apply Qinv_lt_0_compat |].
  apply Qmult_inv_r. intros Hz. rewrite Hz in H. discriminate H.
Qed.

(** ** The gain reduction factor *)

Lemma comp_gain_below (e : Q) :
  (e <= 500000)%Q -> comp_gain source_policy e = 1%Q.
Proof.
  intros H. unfold comp_gain. apply ltb_ge in H.
  change (Float.of_int (COMPRESS_THRESHOLD source_policy)) with 500000%Q.
  now rewrite H.
Qed.

(** Above the threshold the factor is [1/3 + (2/3) * threshold / envelope]. *)
Lemma comp_gain_above (e : Q) :
  (500000 < e)%Q ->
  (comp_gain source_policy e == (1 # 3) + (1000000 # 3) * / e)%Q.
Proof.
  intros H. unfold comp_gain. pose proof H as Hb. apply ltb_lt in Hb.
  change (Float.of_int (COMPRESS_THRESHOLD source_policy)) with 500000%Q.
  rewrite Hb. unfold compressed_ratio, over_threshold.
  change (Float.of_int (COMPRESS_THRESHOLD source_policy)) with 500000%Q.
  change (COMPRESS_RATIO source_policy) with 3%Q. field. intros Hz. rewrite Hz in H. discriminate H.
Qed.

Lemma comp_gain_range (e : Q) :
  (500000 < e)%Q ->
  ((1 # 3) < comp_gain source_policy e /\ comp_gain source_policy e < 1)%Q.
Proof.
  intros H. rewrite (comp_gain_above e H).
  destruct (Qinv_spec e) as [Hi He]; [lra |].
  set (i := (/ e)%Q) in *. split; nra.
Qed.

Lemma comp_gain_antitone (e1 e2 : Q) :
  (e1 <= e2)%Q -> (comp_gain source_policy e2 <= comp_gain source_policy e1)%Q.
Proof.
  intros H.
  destruct (Qlt_le_dec 500000 e1) as [H1 | H1].
  - assert (H2 : (500000 < e2)%Q) by lra.
    rewrite (comp_gain_above e1 H1), (comp_gain_above e2 H2).
    destruct (Qinv_spec e1) as [Hi1 He1]; [lra |].
    destruct (Qinv_spec e2) as [Hi2 He2]; [lra |].
    set (i1 := (/ e1)%Q) in *. set (i2 := (/ e2)%Q) in *.
    assert (Hle : (i2 <= i1)%Q).
    { assert (Hp : (0 <= i1 * i2 * (e2 - e1))%Q)
        by (repeat apply Qmult_le_0_compat; lra).
      assert (Hq : (i1 * i2 * (e2 - e1) == i1 * (e2 * i2) - i2 * (e1 * i1))%Q) by ring.
      rewrite Hq, He1, He2 in Hp. lra. }
    lra.
  - rewrite (comp_gain_below e1 H1).
    destruct (Qlt_le_dec 500000 e2) as [H2 | H2].
    + destruct (comp_gain_range e2 H2). lra.
    + rewrite (comp_gain_below e2 H2). lra.
Qed.

Lemma comp_gain_limit (eps : Q) :
  (0 < eps)%Q ->
  exists E0 : Q, forall e : Q,
    (E0 < e)%Q -> (Qabs (comp_gain source_policy e - (1 # 3)) < eps)%Q.
Proof.
  intros Heps. exists (500000 + (1000000 # 3) * / eps)%Q. intros e He.
  destruct (Qinv_spec eps Heps) as [Hj Hje].
  set (j := (/ eps)%Q) in *.
  assert (H : (500000 < e)%Q) by lra.
  rewrite (comp_gain_above e H).
  destruct (Qinv_spec e) as [Hi Hie]; [lra |].
  set (i := (/ e)%Q) in *.
  apply Qabs_Qlt_condition.
  assert (Hk : ((1000000 # 3) * i < eps)%Q).
  { assert (Hm : (0 < i * eps * (e - (1000000 # 3) * j))%Q)
      by (repeat apply Qmult_lt_0_compat; lra).
    assert (Hq : (i * eps * (e - (1000000 # 3) * j)
                  == (e * i) * eps - (1000000 # 3) * i * (eps * j))%Q) by ring.
    rewrite Hq, Hie, Hje in Hm. lra. }
  split; nra.
Qed.

(** ** The control reader *)

(** The gain is the linear interpolation of the raw reading, whatever the
    reading: the source does not clamp. *)
Lemma read_pots_gain_formula (gain_raw compress_raw : Z) (s : settings) :
  current_gain (fst (read_pots gain_raw compress_raw s))
  = (MIN_GAIN + (inject_Z gain_raw / 65535) * (MAX_GAIN - MIN_GAIN))%Q
  /\ fst (snd (read_pots gain_raw compress_raw s))
     = current_gain (fst (read_pots gain_raw compress_raw s)).
Proof.
  unfold read_pots. cbv zeta.
  destruct (Float.ltb 0 _); simpl; auto.
Qed.

Lemma spec_clamp01_id (c : Q) : (0 <= c <= 1)%Q -> spec_clamp01 c = c.
Proof.
  intros [H0 H1]. unfold spec_clamp01.
  apply ltb_ge in H0. apply ltb_ge in H1. now rewrite H0, H1.
Qed.

Lemma normalized_u16 (r : Z) :
  is_u16 r -> (0 <= inject_Z r / 65535 <= 1)%Q.
Proof.
  intros [H0 H1]. unfold Qdiv, Qle, Qmult, Qinv, inject_Z; simpl. lia.
Qed.

(** [C4] (as amended) For every raw reading in 0..65535, the only values
    [read_u16] returns, [read_pots] sets the gain to
    MIN_GAIN + c * (MAX_GAIN - MIN_GAIN) with c the normalized reading (which
    clamping to [0, 1] leaves unchanged); the gain lies in
    [MIN_GAIN, MAX_GAIN], a reading of 0 gives MIN_GAIN and a reading of 65535
    gives MAX_GAIN. *)
Theorem read_pots_gain_u16 (gain_raw compress_raw : Z) (s : settings) :
  is_u16 gain_raw ->
  let g := current_gain (fst (read_pots gain_raw compress_raw s)) in
  (g == MIN_GAIN + spec_clamp01 (inject_Z gain_raw / 65535) * (MAX_GAIN - MIN_GAIN))%Q
  /\ (MIN_GAIN <= g <= MAX_GAIN)%Q
  /\ (gain_raw = 0 -> (g == MIN_GAIN)%Q)
  /\ (gain_raw = 65535 -> (g == MAX_GAIN)%Q).
Proof.
  intros Hu g. subst g.
  destruct (read_pots_gain_formula gain_raw compress_raw s) as [-> _].
  pose proof (normalized_u16 gain_raw Hu) as Hn.
  rewrite (spec_clamp01_id _ Hn).
  set (c := (inject_Z gain_raw / 65535)%Q) in *.
  unfold MIN_GAIN, MAX_GAIN.
  split; [reflexivity |]. split; [split; nra |].
  split; intros ->; reflexivity.
Qed.

Lemma read_pots_gain_u16_witness :
  is_u16 32768 /\
  (MIN_GAIN <= current_gain (fst (read_pots 32768 0 initial_settings)) <= MAX_GAIN)%Q.
Proof.
  assert (H : is_u16 32768) by (unfold is_u16; lia).
  split; [exact H |].
  exact (proj1 (proj2 (read_pots_gain_u16 32768 0 initial_settings H))).
Defined.

(** [C4] fails as stated: a reading of 131070 gives the gain 15.5, which is
    neither within [MIN_GAIN, MAX_GAIN] nor the interpolation at the clamped
    reading. *)
Lemma read_pots_gain_not_clamped :
  let g := current_gain (fst (read_pots 131070 0 initial_settings)) in
  (g == 31 # 2)%Q
  /\ ~ (g <= MAX_GAIN)%Q
  /\ ~ (g == MIN_GAIN + spec_clamp01 (inject_Z 131070 / 65535) * (MAX_GAIN - MIN_GAIN))%Q.
Proof.
  cbv zeta. split; [reflexivity |]. split; intros H; vm_compute in H; congruence.
Qed.

(** ** Compatibility of the float operations with [==] *)

#[global] Instance ltb_proper : Proper (Qeq ==> Qeq ==> eq) Float.ltb.
Proof. intros x x' Hx y y' Hy. unfold Float.ltb. now rewrite Hx, Hy. Qed.

#[global] Instance to_int_proper : Proper (Qeq ==> eq) Float.to_int.
Proof.
  intros [a b] [c d] H. unfold Float.to_int, Qeq in *; simpl in *.
  rewrite <- (Z.quot_mul_cancel_r a (Z.pos b) (Z.pos d)) by lia.
  rewrite H, (Z.mul_comm (Z.pos b) (Z.pos d)).
  apply Z.quot_mul_cancel_r; lia.
Qed.

#[global] Instance comp_gain_proper (p : policy) : Proper (Qeq ==> Qeq) (comp_gain p).
Proof.
  intros e e' He. unfold comp_gain, compressed_ratio, over_threshold.
  rewrite He. destruct (Float.ltb _ e'); [now rewrite He | reflexivity].
Qed.

(** ** The envelope follower *)

(** The updated envelope is a weighted mean of the old envelope and the
    magnitude when the coefficients are in [0, 1]. *)
Lemma update_envelope_bounds (s : settings) (a : Z) (e B : Q) :
  (0 <= attack_coeff s <= 1)%Q -> (0 <= release_coeff s <= 1)%Q ->
  (0 <= e <= B)%Q -> (0 <= inject_Z a <= B)%Q ->
  (0 <= update_envelope s a e <= B)%Q.
Proof.
  intros Ha Hr He Hs. unfold update_envelope, Float.of_int.
  set (x := inject_Z a) in *.
  assert (Hmean : forall c : Q, (0 <= c <= 1)%Q -> (0 <= e + c * (x - e) <= B)%Q).
  { intros c Hc.
    assert (H1 : (0 <= (1 - c) * e)%Q) by (apply Qmult_le_0_compat; lra).
    assert (H2 : (0 <= c * x)%Q) by (apply Qmult_le_0_compat; lra).
    assert (H3 : (0 <= (1 - c) * (B - e))%Q) by (apply Qmult_le_0_compat; lra).
    assert (H4 : (0 <= c * (B - x))%Q) by (apply Qmult_le_0_compat; lra).
    split; nra. }
  destruct (Float.ltb e x); auto.
Qed.

Lemma update_envelope_nonneg (s : settings) (sample : Z) (e : Q) :
  (0 <= attack_coeff s <= 1)%Q -> (0 <= release_coeff s <= 1)%Q ->
  (0 <= e)%Q -> (0 <= update_envelope s (Z.abs sample) e)%Q.
Proof.
  intros Ha Hr He.
  assert (Hs : (0 <= inject_Z (Z.abs sample))%Q).
  { unfold Qle; simpl. lia. }
  destruct (Qlt_le_dec e (inject_Z (Z.abs sample))) as [Hlt | Hge].
  - apply (update_envelope_bounds s _ e (inject_Z (Z.abs sample))); auto.
    + split; [assumption | now apply Qlt_le_weak].
    + split; [assumption | apply Qle_refl].
  - apply (update_envelope_bounds s _ e e); auto.
    split; [assumption | apply Qle_refl].
Qed.

(** ** Saturation *)

Lemma clip_range (output : Z) : - max_val <= clip output <= max_val.
Proof.
  unfold clip.
  destruct (Z.ltb_spec max_val output);
    destruct (Z.ltb_spec output (- max_val)); unfold max_val in *; lia.
Qed.

Lemma clip_inside (output : Z) :
  - max_val <= output <= max_val -> clip output = output.
Proof.
  unfold clip. intros H.
  destruct (Z.ltb_spec max_val output);
    destruct (Z.ltb_spec output (- max_val)); unfold max_val in *; lia.
Qed.

Lemma compress_sample_clipped (p : policy) (s : settings)
    (sample : Z) (envelope gain : Q) :
  Z.abs (fst (compress_sample p s sample envelope gain)) <= 2 ^ 23 - 1.
Proof.
  unfold compress_sample; simpl.
  pose proof (clip_range
    (Float.to_int (Float.of_int sample
       * (gain * comp_gain p (update_envelope s (Z.abs sample) envelope))))) as H.
  unfold max_val in H. lia.
Qed.


(** [C6] Sample 1000000 with user gain 1.0, threshold 500000, ratio 3.0 and
    prior envelope 1000000: the envelope stays 1000000, overRatio is 2.0,
    compressedRatio is 1 + 1/3 (about 1.333), compressionGain is 2/3 (about
    0.667), and the output is 666666 (about 667000), the value computed
    before clipping, which is within the representable range. *)
Theorem scenario_above_threshold (s : settings) :
  let r := compress_sample source_policy s 1000000 1000000 1 in
  let envelope := snd r in
  let output := fst r in
  (envelope == 1000000)%Q
  /\ (over_threshold source_policy envelope == 2)%Q
  /\ (compressed_ratio source_policy envelope == 1 + (1 # 3))%Q
  /\ (Qabs (compressed_ratio source_policy envelope - (1333 # 1000)) < 1 # 1000)%Q
  /\ (comp_gain source_policy envelope == 2 # 3)%Q
  /\ (Qabs (comp_gain source_policy envelope - (667 # 1000)) < 1 # 1000)%Q
  /\ output = 666666
  /\ Z.abs (output - 667000) < 1000
  /\ output = Float.to_int
                (Float.of_int 1000000 * (1 * comp_gain source_policy envelope))
  /\ - max_val <= output <= max_val.
Proof.
  cbv zeta. unfold compress_sample; simpl fst; simpl snd.
  change (Z.abs 1000000) with 1000000.
  assert (He : (update_envelope s 1000000 1000000 == 1000000)%Q).
  { unfold update_envelope. change (Float.of_int 1000000) with 1000000%Q.
    change (Float.ltb 1000000 1000000) with false. cbv iota. ring. }
  assert (Hg : (comp_gain source_policy (update_envelope s 1000000 1000000)
                == 2 # 3)%Q).
  { rewrite He. reflexivity. }
  assert (Hout : Float.to_int
            (Float.of_int 1000000
             * (1 * comp_gain source_policy (update_envelope s 1000000 1000000)))
          = 666666).
  { rewrite Hg. reflexivity. }
  unfold over_threshold, compressed_ratio, over_threshold.
  rewrite Hout, Hg, He.
  repeat split; try reflexivity; try (vm_compute; congruence).
Qed.

(** ** The sample codec *)

(** [a | (b << n)] adds when [a] fits in the low [n] bits. *)
Lemma lor_shiftl_add (a b n : Z) :
  0 <= n -> 0 <= a < 2 ^ n -> Z.lor a (Z.shiftl b n) = a + b * 2 ^ n.
Proof.
  intros Hn Ha. rewrite Z.shiftl_mul_pow2 by assumption.
  symmetry. apply Z.add_nocarry_lor.
  apply Z.bits_inj'. intros i Hi.
  rewrite Z.land_spec, Z.bits_0.
  destruct (Z.lt_ge_cases i n) as [Hlt | Hge].
  - rewrite Z.mul_pow2_bits_low by assumption. apply andb_false_r.
  - rewrite <- (Z.mod_small a (2 ^ n)) by assumption.
    rewrite Z.mod_pow2_bits_high by lia. reflexivity.
Qed.

Lemma read_word_sum (b0 b1 b2 b3 : Z) :
  is_byte b0 -> is_byte b1 -> is_byte b2 -> is_byte b3 ->
  read_word b0 b1 b2 b3 = b0 + 256 * b1 + 65536 * b2 + 16777216 * b3.
Proof.
  unfold is_byte, read_word. intros H0 H1 H2 H3.
  rewrite (lor_shiftl_add b0 b1 8) by lia.
  rewrite (lor_shiftl_add _ b2 16) by lia.
  rewrite (lor_shiftl_add _ b3 24) by lia.
  lia.
Qed.

(** The decoded sample is the signed value of the three high bytes. *)
Lemma decode_value (b0 b1 b2 b3 : Z) :
  is_byte b0 -> is_byte b1 -> is_byte b2 -> is_byte b3 ->
  decode b0 b1 b2 b3
  = b1 + 256 * b2 + 65536 * b3 - (if 128 <=? b3 then 16777216 else 0).
Proof.
  intros H0 H1 H2 H3. unfold decode, to_signed.
  rewrite read_word_sum by assumption.
  rewrite Z.shiftr_div_pow2 by lia. change (2 ^ 8) with 256.
  unfold is_byte in *.
  destruct (Z.leb_spec 0x80000000 (b0 + 256 * b1 + 65536 * b2 + 16777216 * b3));
    destruct (Z.leb_spec 128 b3); try lia.
  - symmetry. apply Z.div_unique with (r := b0); lia.
  - symmetry. apply Z.div_unique with (r := b0); lia.
Qed.

Lemma decode_range (b0 b1 b2 b3 : Z) :
  is_byte b0 -> is_byte b1 -> is_byte b2 -> is_byte b3 ->
  - 2 ^ 23 <= decode b0 b1 b2 b3 <= 2 ^ 23 - 1.
Proof.
  intros H0 H1 H2 H3. rewrite decode_value by assumption.
  unfold is_byte in *. destruct (Z.leb_spec 128 b3); lia.
Qed.

(** Encoding a 24-bit sample gives a zero padding byte and the sample's
    three bytes in two's complement. *)
Lemma encode_value (b1 b2 b3 : Z) :
  is_byte b1 -> is_byte b2 -> is_byte b3 ->
  encode (b1 + 256 * b2 + 65536 * b3 - (if 128 <=? b3 then 16777216 else 0))
  = [0; b1; b2; b3].
Proof.
  unfold is_byte. intros H1 H2 H3. unfold encode.
  set (v := b1 + 256 * b2 + 65536 * b3 - (if 128 <=? b3 then 16777216 else 0)).
  assert (Hw : to_word v = 256 * b1 + 65536 * b2 + 16777216 * b3).
  { unfold to_word. rewrite Z.shiftl_mul_pow2 by lia. change (2 ^ 8) with 256.
    subst v. destruct (Z.leb_spec 128 b3);
      match goal with |- context [?x <? 0] => destruct (Z.ltb_spec x 0) end;
      lia. }
  rewrite Hw.
  change 0xFF with (Z.ones 8). rewrite !Z.land_ones by lia.
  rewrite !Z.shiftr_div_pow2 by lia.
  change (2 ^ 8) with 256. change (2 ^ 16) with 65536.
  change (2 ^ 24) with 16777216.
  repeat f_equal.
  - symmetry. apply Z.mod_unique with (q := b1 + 256 * b2 + 65536 * b3); lia.
  - replace ((256 * b1 + 65536 * b2 + 16777216 * b3) / 256)
      with (b1 + 256 * b2 + 65536 * b3)
      by (apply Z.div_unique with (r := 0); lia).
    symmetry. apply Z.mod_unique with (q := b2 + 256 * b3); lia.
  - replace ((256 * b1 + 65536 * b2 + 16777216 * b3) / 65536)
      with (b2 + 256 * b3)
      by (apply Z.div_unique with (r := 256 * b1); lia).
    symmetry. apply Z.mod_unique with (q := b3); lia.
  - replace ((256 * b1 + 65536 * b2 + 16777216 * b3) / 16777216)
      with b3
      by (apply Z.div_unique with (r := 256 * b1 + 65536 * b2); lia).
    apply Z.mod_small; lia.
Qed.

(** Decode then encode: the word with its padding byte cleared. *)
Lemma encode_decode (b0 b1 b2 b3 : Z) :
  is_byte b0 -> is_byte b1 -> is_byte b2 -> is_byte b3 ->
  encode (decode b0 b1 b2 b3) = [0; b1; b2; b3].
Proof.
  intros H0 H1 H2 H3. rewrite decode_value by assumption.
  now apply encode_value.
Qed.

(** The values stored back are bytes, whatever the sample. *)
Lemma encode_bytes (out : Z) : Forall is_byte (encode out).
Proof.
  unfold encode. change 0xFF with (Z.ones 8).
  rewrite !Z.land_ones by lia. change (2 ^ 8) with 256.
  repeat constructor; apply Z.mod_pos_bound; lia.
Qed.

(** ** A compression pass that is the identity up to clipping *)

Lemma compress_sample_unit_gain (p : policy) (s : settings)
    (sample : Z) (envelope gain : Q) :
  (gain == 1)%Q ->
  (comp_gain p (update_envelope s (Z.abs sample) envelope) == 1)%Q ->
  fst (compress_sample p s sample envelope gain) = clip sample.
Proof.
  intros Hg Hc. unfold compress_sample; simpl. f_equal.
  apply to_int_exact. rewrite Hg, Hc. unfold Float.of_int. ring.
Qed.

(** With the threshold at 2^23 or more, the envelope of 24-bit samples never
    exceeds it and the gain reduction factor is 1.0. *)
Lemma comp_gain_disabled (p : policy) (s : settings) (sample : Z) (envelope : Q) :
  2 ^ 23 <= COMPRESS_THRESHOLD p ->
  (0 <= attack_coeff s <= 1)%Q -> (0 <= release_coeff s <= 1)%Q ->
  (0 <= envelope <= inject_Z (2 ^ 23))%Q ->
  - 2 ^ 23 <= sample <= 2 ^ 23 - 1 ->
  comp_gain p (update_envelope s (Z.abs sample) envelope) = 1%Q.
Proof.
  intros Ht Ha Hr He Hs.
  assert (Hb : (0 <= update_envelope s (Z.abs sample) envelope
                <= inject_Z (2 ^ 23))%Q).
  { apply update_envelope_bounds; auto.
    unfold Qle; simpl. lia. }
  unfold comp_gain.
  assert (Hoff : Float.ltb (Float.of_int (COMPRESS_THRESHOLD p))
                   (update_envelope s (Z.abs sample) envelope) = false).
  { apply ltb_ge. apply Qle_trans with (inject_Z (2 ^ 23)); [apply Hb |].
    unfold Float.of_int. rewrite <- Zle_Qle. assumption. }
  now rewrite Hoff.
Qed.

(** [C1] (as amended) For every 32-bit little-endian container word, given
    by its four bytes, whose decoded sample is not -2^23: the decoded sample
    is a 24-bit signed value, and passing it through a compression pass that
    is the identity (user gain 1.0, threshold at the maximum 2^23 so that
    compression never engages) and re-encoding gives the original word with
    its low padding byte zeroed.  The sample -2^23 is saturated to
    -(2^23 - 1). *)
Theorem roundtrip_identity_pass (p : policy) (s : settings)
    (b0 b1 b2 b3 : Z) (envelope : Q) :
  is_byte b0 -> is_byte b1 -> is_byte b2 -> is_byte b3 ->
  2 ^ 23 <= COMPRESS_THRESHOLD p ->
  (0 <= attack_coeff s <= 1)%Q -> (0 <= release_coeff s <= 1)%Q ->
  (0 <= envelope <= inject_Z (2 ^ 23))%Q ->
  let sample := decode b0 b1 b2 b3 in
  let output := fst (compress_sample p s sample envelope 1) in
  - 2 ^ 23 <= sample <= 2 ^ 23 - 1
  /\ (sample <> - 2 ^ 23 -> output = sample /\ encode output = [0; b1; b2; b3])
  /\ (sample = - 2 ^ 23 -> output = - (2 ^ 23 - 1)).
Proof.
  intros H0 H1 H2 H3 Ht Ha Hr He sample output.
  pose proof (decode_range b0 b1 b2 b3 H0 H1 H2 H3) as Hs. fold sample in Hs.
  assert (Hout : output = clip sample).
  { subst output. apply compress_sample_unit_gain; [reflexivity |].
    now rewrite (comp_gain_disabled p s sample envelope Ht Ha Hr He Hs). }
  split; [exact Hs |]. split.
  - intros Hne. rewrite Hout, clip_inside by (unfold max_val; lia).
    split; [reflexivity |]. subst sample. now apply encode_decode.
  - intros Heq. rewrite Hout, Heq. reflexivity.
Qed.

Lemma roundtrip_identity_pass_witness :
  encode (fst (compress_sample max_threshold_policy initial_settings
                 (decode 0x12 0x34 0x56 0xF8) 0 1))
  = [0; 0x34; 0x56; 0xF8].
Proof.
  refine (proj2 (proj1 (proj2
    (roundtrip_identity_pass max_threshold_policy initial_settings
       0x12 0x34 0x56 0xF8 0 _ _ _ _ _ _ _ _)) _));
    unfold is_byte; simpl; try lia;
    try (split; discriminate); try discriminate.
Defined.

(** [C1] fails as stated at the word 0x80000000: its sample -2^23 leaves the
    identity pass as -(2^23 - 1), and the re-encoded word is 0x80000100. *)
Lemma roundtrip_fails_at_most_negative :
  let sample := decode 0 0 0 0x80 in
  let output :=
    fst (compress_sample max_threshold_policy initial_settings sample 0 1) in
  sample = - 2 ^ 23
  /\ comp_gain max_threshold_policy
       (update_envelope initial_settings (Z.abs sample) 0) = 1%Q
  /\ output = - (2 ^ 23 - 1)
  /\ encode output = [0; 1; 0; 0x80]
  /\ encode output <> [0; 0; 0; 0x80].
Proof.
  cbv zeta. repeat split; try reflexivity. vm_compute. congruence.
Qed.

(** ** In-place processing of the buffer *)

Lemma setitem_app (pre rest : list Z) (o v : Z) :
  is_byte v ->
  setitem (pre ++ o :: rest) (length pre) v = Some (pre ++ v :: rest).
Proof.
  intros [Hlo Hhi]. unfold setitem.
  rewrite decide_True by (rewrite length_app; simpl; lia).
  destruct (Z.leb_spec 0 v); [| lia].
  destruct (Z.ltb_spec v 256); [| lia]. simpl.
  rewrite <- (Nat.add_0_r (length pre)), insert_app_r. reflexivity.
Qed.

Lemma store_app (vs : list Z) :
  forall pre old rest : list Z,
    length old = length vs -> Forall is_byte vs ->
    store (pre ++ old ++ rest) (length pre) vs = Some (pre ++ vs ++ rest).
Proof.
  induction vs as [| v vs IH]; intros pre old rest Hlen Hb.
  - destruct old; [reflexivity | discriminate].
  - destruct old as [| o old]; [discriminate |].
    inversion Hb as [| ? ? Hv Hvs]; subst. simpl.
    rewrite setitem_app by assumption. simpl.
    replace (S (length pre)) with (length (pre ++ [v]))
      by (rewrite length_app; simpl; lia).
    replace (pre ++ v :: old ++ rest) with ((pre ++ [v]) ++ old ++ rest)
      by (rewrite <- app_assoc; reflexivity).
    rewrite (IH (pre ++ [v]) old rest) by (simpl in Hlen; auto with lia).
    rewrite <- app_assoc. reflexivity.
Qed.

(** One frame, in place: the eight bytes at [i * 8] are replaced by the
    encoded outputs, the rest of the buffer is untouched. *)
Lemma process_frame_app (p : policy) (s : settings) (i : nat)
    (pre rest : list Z) (b0 b1 b2 b3 b4 b5 b6 b7 : Z) (el er : Q) :
  length pre = (i * 8)%nat ->
  process_frame p s i
    (pre ++ [b0; b1; b2; b3; b4; b5; b6; b7] ++ rest, el, er)
  = let '(left_out, el') :=
      compress_sample p s (decode b0 b1 b2 b3) el (current_gain s) in
    let '(right_out, er') :=
      compress_sample p s (decode b4 b5 b6 b7) er (current_gain s) in
    Some (pre ++ (encode left_out ++ encode right_out) ++ rest, el', er').
Proof.
  intros Hpre. unfold process_frame. rewrite <- Hpre.
  set (l := [b0; b1; b2; b3; b4; b5; b6; b7] ++ rest).
  assert (Hk : forall k, (pre ++ l) !! (length pre + k)%nat = l !! k).
  { intros k. rewrite lookup_app_r by lia. f_equal. lia. }
  rewrite <- (Nat.add_0_r (length pre)) at 1.
  rewrite !Hk. subst l.
  cbn [lookup list_lookup app mbind option_bind].
  destruct (compress_sample p s (decode b0 b1 b2 b3) el (current_gain s))
    as [left_out el'].
  destruct (compress_sample p s (decode b4 b5 b6 b7) er (current_gain s))
    as [right_out er'].
  change (pre ++ b0 :: b1 :: b2 :: b3 :: b4 :: b5 :: b6 :: b7 :: rest)
    with (pre ++ [b0; b1; b2; b3; b4; b5; b6; b7] ++ rest).
  rewrite (store_app (encode left_out ++ encode right_out) pre
             [b0; b1; b2; b3; b4; b5; b6; b7] rest).
  - reflexivity.
  - reflexivity.
  - apply Forall_app; split; apply encode_bytes.
Qed.

Lemma set_audio_id (m : machine) :
  set_audio m (audio_buffer m) (envelope_left m) (envelope_right m) = m.
Proof. destruct m; reflexivity. Qed.

Lemma set_audio_twice (m : machine) (b b' : list Z) (el er el' er' : Q) :
  set_audio (set_audio m b el er) b' el' er' = set_audio m b' el' er'.
Proof. reflexivity. Qed.

Lemma poll_idle (m : machine) : irq m = None -> poll m = (Ok tt, m).
Proof. intros H. unfold poll. now rewrite H. Qed.

(** How many frames a byte string has, and what extra trailing bytes do. *)
Lemma frames_length (k : nat) :
  forall bytes : list Z, length bytes = (k * 8)%nat -> length (frames bytes) = k.
Proof.
  induction k as [| k IH]; intros bytes Hlen.
  - destruct bytes; [reflexivity | discriminate].
  - do 8 (destruct bytes as [| ? bytes]; [discriminate |]).
    simpl. f_equal. apply IH. simpl in Hlen. lia.
Qed.

Lemma frames_app_remainder (k : nat) :
  forall bytes remainder : list Z,
    length bytes = (k * 8)%nat -> (length remainder < 8)%nat ->
    frames (bytes ++ remainder) = frames bytes.
Proof.
  induction k as [| k IH]; intros bytes remainder Hlen Hrem.
  - destruct bytes; [| discriminate]. simpl.
    do 8 (destruct remainder as [| ? remainder]; [reflexivity |]).
    simpl in Hrem. lia.
  - do 8 (destruct bytes as [| ? bytes]; [discriminate |]).
    simpl. f_equal. apply IH; [simpl in Hlen; lia | assumption].
Qed.

Lemma compress_frames_length (p : policy) (s : settings) (fs : list (Z * Z)) :
  forall el er : Q,
    length (fst (fst (compress_frames p s fs el er))) = (length fs * 8)%nat.
Proof.
  induction fs as [| [l r] fs IH]; intros el er; [reflexivity |].
  cbn [compress_frames].
  destruct (compress_sample p s l el (current_gain s)) as [lo el'].
  destruct (compress_sample p s r er (current_gain s)) as [ro er'].
  specialize (IH el' er').
  destruct (compress_frames p s fs el' er') as [[out el''] er''].
  cbn [fst] in *. rewrite !length_app, IH. unfold encode. cbn [length]. lia.
Qed.

(** The [for] loop over [count] frames starting at frame [start], with no
    interrupt pending: the bytes of those frames are replaced by the
    compressor's output for them, in order, and the envelopes are the ones
    reached after the last frame. *)
Lemma frames_loop (p : policy) (count : nat) :
  forall (start : nat) (m : machine) (pre bytes rest : list Z),
    irq m = None ->
    audio_buffer m = pre ++ bytes ++ rest ->
    length pre = (start * 8)%nat ->
    length bytes = (count * 8)%nat ->
    for_range (fun i => poll;; frame_step p i) start count m
    = (Ok tt,
       let '(out, el, er) :=
         compress_frames p (controls m) (frames bytes)
           (envelope_left m) (envelope_right m) in
       set_audio m (pre ++ out ++ rest) el er).
Proof.
  induction count as [| count IH]; intros start m pre bytes rest Hirq Hbuf Hpre Hlen.
  - destruct bytes; [| discriminate].
    cbn [for_range frames compress_frames app] in *.
    unfold mret, M_ret. rewrite <- Hbuf, set_audio_id. reflexivity.
  - do 8 (destruct bytes as [| ? bytes]; [discriminate |]).
    cbn [for_range frames compress_frames].
    unfold mbind at 1, M_bind at 1.
    unfold mbind at 1, M_bind at 1.
    rewrite (poll_idle m Hirq). unfold frame_step at 1. rewrite Hbuf.
    change (pre ++ (z :: z0 :: z1 :: z2 :: z3 :: z4 :: z5 :: z6 :: bytes) ++ rest)
      with (pre ++ [z; z0; z1; z2; z3; z4; z5; z6] ++ (bytes ++ rest)).
    rewrite (process_frame_app p (controls m) start pre (bytes ++ rest)) by assumption.
    destruct (compress_sample p (controls m) (decode z z0 z1 z2)
                (envelope_left m) (current_gain (controls m))) as [lo el'].
    destruct (compress_sample p (controls m) (decode z3 z4 z5 z6)
                (envelope_right m) (current_gain (controls m))) as [ro er'].
    set (m1 := set_audio m (pre ++ (encode lo ++ encode ro) ++ bytes ++ rest) el' er').
    rewrite (IH (S start) m1 (pre ++ encode lo ++ encode ro) bytes rest).
    + subst m1. cbn [controls envelope_left envelope_right set_audio].
      destruct (compress_frames p (controls m) (frames bytes) el' er')
        as [[out el''] er''].
      rewrite set_audio_twice. rewrite <- !app_assoc. reflexivity.
    + exact Hirq.
    + subst m1. cbn [audio_buffer set_audio]. rewrite <- !app_assoc. reflexivity.
    + rewrite !length_app, Hpre. unfold encode. simpl. lia.
    + simpl in Hlen. lia.
Qed.

(** ** One iteration of the main loop with no interrupt pending *)

Lemma refresh_controls_returns (E : env) (m : machine) :
  refresh_controls E m = (Ok tt, snd (refresh_controls E m)).
Proof.
  unfold refresh_controls.
  destruct (POT_READ_INTERVAL <=? loop_count m + 1); [| reflexivity].
  destruct (read_pots _ _ _) as [s' ?]. reflexivity.
Qed.

(** [refresh_controls] touches the settings and the two counters only. *)
Lemma refresh_controls_frame (E : env) (m : machine) :
  let m' := snd (refresh_controls E m) in
  audio_buffer m' = audio_buffer m
  /\ envelope_left m' = envelope_left m
  /\ envelope_right m' = envelope_right m
  /\ reads m' = reads m /\ irq m' = irq m /\ trace m' = trace m.
Proof.
  unfold refresh_controls.
  destruct (POT_READ_INTERVAL <=? loop_count m + 1);
    [destruct (read_pots _ _ _) as [s' ?] |]; simpl; auto 10.
Qed.

Lemma chunk_split (data : list Z) :
  let k := (length data / 8)%nat in
  length (take (k * 8) data) = (k * 8)%nat
  /\ length (drop (k * 8) data) = (length data mod 8)%nat
  /\ (length (drop (k * 8) data) < 8)%nat
  /\ frames data = frames (take (k * 8) data)
  /\ length (frames data) = k.
Proof.
  intros k.
  pose proof (Nat.div_mod_eq (length data) 8) as Hdm. fold k in Hdm.
  pose proof (Nat.mod_upper_bound (length data) 8) as Hub.
  assert (H1 : length (take (k * 8) data) = (k * 8)%nat)
    by (rewrite length_take; lia).
  assert (H2 : length (drop (k * 8) data) = (length data mod 8)%nat)
    by (rewrite length_drop; lia).
  assert (H3 : frames data = frames (take (k * 8) data)).
  { rewrite <- (take_drop (k * 8) data) at 1.
    apply (frames_app_remainder k); [exact H1 | lia]. }
  repeat split; auto; [lia |].
  rewrite H3. now apply frames_length.
Qed.

(** The whole loop body on a non-empty chunk [data] that fits the buffer:
    the controls are refreshed, the complete frames of the chunk are
    replaced in the buffer by the compressor's output, and the first
    [len(data)] bytes of the buffer are written out. *)
Lemma iteration_idle (p : policy) (E : env) (m : machine) (data : list Z) :
  irq m = None ->
  mic E (reads m) = data ->
  (0 < length data <= length (audio_buffer m))%nat ->
  let old := drop (length data) (audio_buffer m) in
  let m1 := set_input m (data ++ old) (S (reads m)) in
  let m2 := snd (refresh_controls E m1) in
  let r := compress_frames p (controls m2) (frames data)
             (envelope_left m) (envelope_right m) in
  let remainder := drop (length data / 8 * 8) data in
  iteration p E m
  = (Ok tt,
     add_event
       (set_audio m2 (fst (fst r) ++ remainder ++ old) (snd (fst r)) (snd r))
       (EvWrite (fst (fst r) ++ remainder))).
Proof.
  intros Hirq Hmic [Hpos Hfit] old m1 m2 r remainder.
  destruct (chunk_split data) as (Hk1 & Hk2 & Hk3 & Hk4 & Hk5).
  set (k := (length data / 8)%nat) in *.
  destruct (refresh_controls_frame E m1) as (Fb & Fl & Fr & Frd & Fi & Ft).
  fold m2 in Fb, Fl, Fr, Frd, Fi, Ft.
  unfold iteration.
  unfold mbind at 1, M_bind at 1. rewrite (poll_idle m Hirq).
  unfold mbind at 1, M_bind at 1. unfold readinto at 1.
  rewrite Hmic, (take_ge data) by lia. fold old. fold m1.
  destruct (Z.ltb_spec 0 (Z.of_nat (length data))); [| lia].
  unfold mbind at 1, M_bind at 1. rewrite (poll_idle m1 Hirq).
  unfold mbind at 1, M_bind at 1. rewrite (refresh_controls_returns E m1).
  fold m2. cbv zeta.
  replace (Z.to_nat (Z.of_nat (length data) / 8)) with k
    by (subst k; rewrite <- (Nat2Z.id (length data / 8)), Nat2Z.inj_div; reflexivity).
  unfold mbind at 1, M_bind at 1.
  rewrite (frames_loop p k 0 m2 [] (take (k * 8) data) (remainder ++ old)).
  - rewrite <- Hk4, Fl, Fr. cbn [envelope_left envelope_right set_input m1].
    fold r.
    assert (Hout : length (fst (fst r)) = (k * 8)%nat).
    { subst r. rewrite compress_frames_length, Hk5. reflexivity. }
    destruct r as [[out el] er]. cbn [fst snd app] in *.
    unfold mbind at 1, M_bind at 1. rewrite poll_idle by exact (eq_trans Fi Hirq).
    unfold write_out, get. unfold mbind, M_bind. unfold emit.
    cbn [audio_buffer set_audio]. rewrite Nat2Z.id.
    rewrite app_assoc, take_app_length'; [reflexivity |].
    rewrite length_app, Hout. subst remainder. fold k. rewrite Hk2.
    pose proof (Nat.div_mod_eq (length data) 8). fold k in H0. lia.
  - exact (eq_trans Fi Hirq).
  - rewrite Fb. subst m1. cbn [audio_buffer set_input app].
    subst remainder. fold k. rewrite app_assoc, take_drop. reflexivity.
  - reflexivity.
  - exact Hk1.
Qed.

(** [C7] For every chunk of n > 0 bytes read, the loop body processes
    exactly floor(n / 8) stereo frames as audio, raises no exception, and
    leaves the trailing n mod 8 bytes unprocessed: the first 8 * floor(n / 8)
    bytes of the buffer become the compressor's output for the frames of the
    chunk, the envelopes are those reached after the last frame, and the
    bytes after them are unchanged.  A chunk of 8191 bytes has 1023 frames
    and 7 unprocessed bytes. *)
Theorem chunk_frames_processed (p : policy) (E : env) (m : machine)
    (data : list Z) :
  irq m = None ->
  mic E (reads m) = data ->
  (0 < length data <= length (audio_buffer m))%nat ->
  let n := length data in
  let m' := snd (iteration p E m) in
  let r := compress_frames p (controls m') (frames data)
             (envelope_left m) (envelope_right m) in
  fst (iteration p E m) = Ok tt
  /\ length (frames data) = (n / 8)%nat
  /\ take (n / 8 * 8) (audio_buffer m') = fst (fst r)
  /\ envelope_left m' = snd (fst r)
  /\ envelope_right m' = snd r
  /\ drop (n / 8 * 8) (audio_buffer m')
     = drop (n / 8 * 8) data ++ drop n (audio_buffer m)
  /\ length (drop (n / 8 * 8) data) = (n mod 8)%nat
  /\ (Z.of_nat n = 8191 ->
      Z.of_nat (length (frames data)) = 1023
      /\ Z.of_nat (length (drop (n / 8 * 8) data)) = 7).
Proof.
  intros Hirq Hmic Hlen n m' r.
  pose proof (iteration_idle p E m data Hirq Hmic Hlen) as Hit.
  cbv zeta in Hit.
  destruct (chunk_split data) as (Hk1 & Hk2 & Hk3 & Hk4 & Hk5).
  fold n in Hk1, Hk2, Hk3, Hk5.
  assert (Hc : controls m'
               = controls (snd (refresh_controls E
                   (set_input m (data ++ drop (length data) (audio_buffer m))
                      (S (reads m)))))).
  { subst m'. rewrite Hit. reflexivity. }
  subst r. rewrite Hc.
  set (r := compress_frames p _ (frames data) (envelope_left m) (envelope_right m)) in *.
  assert (Hout : length (fst (fst r)) = (n / 8 * 8)%nat).
  { subst r. rewrite compress_frames_length, Hk5. reflexivity. }
  subst m'. rewrite Hit. cbn [fst snd audio_buffer envelope_left envelope_right
                              add_event set_audio].
  split; [reflexivity |]. split; [exact Hk5 |].
  split; [now apply take_app_length' |].
  split; [reflexivity |]. split; [reflexivity |].
  split; [now apply drop_app_length' |].
  split; [exact Hk2 |].
  intros H8191. rewrite Hk5, Hk2, Nat2Z.inj_div, Nat2Z.inj_mod, H8191.
  split; reflexivity.
Qed.

(** [C10] For every chunk of n bytes read with n not a multiple of 8, the
    output write sends exactly the first n bytes of the buffer; its last
    n mod 8 bytes are the trailing remainder bytes of the input, unchanged:
    they are not processed but they are emitted. *)
Theorem remainder_bytes_written (p : policy) (E : env) (m : machine)
    (data : list Z) :
  irq m = None ->
  mic E (reads m) = data ->
  (0 < length data <= length (audio_buffer m))%nat ->
  (length data mod 8 <> 0)%nat ->
  let n := length data in
  let m' := snd (iteration p E m) in
  exists written : list Z,
    trace m' = trace m ++ [EvWrite written]
    /\ written = take n (audio_buffer m')
    /\ length written = n
    /\ drop (n / 8 * 8) written = drop (n / 8 * 8) data
    /\ length (drop (n / 8 * 8) written) = (n mod 8)%nat
    /\ drop (n / 8 * 8) written <> [].
Proof.
  intros Hirq Hmic Hlen Hrem n m'.
  pose proof (iteration_idle p E m data Hirq Hmic Hlen) as Hit.
  cbv zeta in Hit.
  destruct (chunk_split data) as (Hk1 & Hk2 & Hk3 & Hk4 & Hk5).
  fold n in Hk1, Hk2, Hk3, Hk5.
  set (r := compress_frames p _ (frames data) (envelope_left m) (envelope_right m)) in *.
  assert (Hout : length (fst (fst r)) = (n / 8 * 8)%nat).
  { subst r. rewrite compress_frames_length, Hk5. reflexivity. }
  pose proof (Nat.div_mod_eq n 8) as Hdm.
  exists (fst (fst r) ++ drop (n / 8 * 8) data).
  assert (Hw : length (fst (fst r) ++ drop (n / 8 * 8) data) = n)
    by (rewrite length_app, Hout, Hk2; lia).
  destruct (refresh_controls_frame E
              (set_input m (data ++ drop (length data) (audio_buffer m))
                 (S (reads m)))) as (_ & _ & _ & _ & _ & Ft).
  subst m'. rewrite Hit. cbn [snd trace audio_buffer add_event set_audio].
  split; [rewrite Ft; reflexivity |].
  split; [rewrite app_assoc; symmetry; now apply take_app_length' |].
  split; [exact Hw |].
  rewrite (drop_app_length' _ _ _ (eq_sym Hout)).
  split; [reflexivity |]. split; [exact Hk2 |].
  intros Hnil. rewrite Hnil in Hk2. cbn [length] in Hk2. subst n. lia.
Qed.

(** The 8191-byte scenario on a buffer of 8191 bytes: 1023 frames, 7 bytes
    left. *)
Lemma chunk_frames_processed_witness :
  let data := replicate (Z.to_nat 8191) 1 in
  let m := set_audio (initial_machine None) (replicate (Z.to_nat 8191) 0) 0 0 in
  let E := {| mic := fun _ => data;
              adc_gain := fun _ => 0; adc_compress := fun _ => 0 |} in
  fst (iteration source_policy E m) = Ok tt
  /\ Z.of_nat (length (frames data)) = 1023
  /\ Z.of_nat (length (drop (length data / 8 * 8) data)) = 7.
Proof.
  intros data m E.
  assert (Hlen : (0 < length data <= length (audio_buffer m))%nat).
  { subst data m. cbn [audio_buffer set_audio]. rewrite !length_replicate. lia. }
  destruct (chunk_frames_processed source_policy E m data eq_refl eq_refl Hlen)
    as (Hok & _ & _ & _ & _ & _ & _ & H8191).
  split; [exact Hok |]. apply H8191.
  subst data. rewrite length_replicate. lia.
Defined.

Lemma remainder_bytes_written_witness :
  exists written : list Z,
    trace (snd (iteration source_policy demo_env (initial_machine None)))
    = [EvWrite written]
    /\ drop 8 written = [1; 2; 3; 4; 5; 6; 7].
Proof.
  assert (Hlen : (0 < length demo_chunk
                  <= length (audio_buffer (initial_machine None)))%nat)
    by (vm_compute; lia).
  assert (Hrem : (length demo_chunk mod 8 <> 0)%nat) by (vm_compute; lia).
  destruct (remainder_bytes_written source_policy demo_env
              (initial_machine None) demo_chunk eq_refl eq_refl Hlen Hrem)
    as (written & Htrace & _ & _ & Hdrop & _).
  exists written. split; [exact Htrace | exact Hdrop].
Defined.

(** ** Reasoning about computations *)

Lemma hoare_ret {A : Type} (P Q : machine -> Prop) (a : A) :
  (forall m, P m -> Q m) -> hoare P (mret a) Q.
Proof. intros H m Hm. apply H, Hm. Qed.

Lemma hoare_bind {A B : Type} (P R Q : machine -> Prop)
    (c : M A) (f : A -> M B) :
  hoare P c R -> (forall m, R m -> Q m) -> (forall a, hoare R (f a) Q) ->
  hoare P (c ≫= f) Q.
Proof.
  intros Hc HRQ Hf m Hm. specialize (Hc m Hm).
  unfold mbind, M_bind. destruct (c m) as [[a | e |] m']; simpl in *.
  - apply Hf, Hc.
  - apply HRQ, Hc.
  - apply HRQ, Hc.
Qed.

Lemma inv_bind {A B : Type} (I : machine -> Prop) (c : M A) (f : A -> M B) :
  hoare I c I -> (forall a, hoare I (f a) I) -> hoare I (c ≫= f) I.
Proof. intros Hc Hf. apply (hoare_bind I I I); auto. Qed.

Lemma inv_for_range (I : machine -> Prop) (body : nat -> M unit) (count : nat) :
  (forall i, hoare I (body i) I) ->
  forall start, hoare I (for_range body start count) I.
Proof.
  intros Hbody. induction count as [| count IH]; intros start.
  - apply hoare_ret; auto.
  - simpl. apply inv_bind; [apply Hbody | intros _; apply IH].
Qed.

Lemma inv_while_true (I : machine -> Prop) (p : policy) (E : env) :
  hoare I (iteration p E) I -> forall fuel, hoare I (while_true p E fuel) I.
Proof.
  intros Hit. induction fuel as [| fuel IH].
  - intros m Hm. exact Hm.
  - simpl. apply inv_bind; [exact Hit | intros _; exact IH].
Qed.

Lemma inv_try_except_finally (I : machine -> Prop) (body handler final : M unit) :
  hoare I body I -> hoare I handler I -> hoare I final I ->
  hoare I (try_except_finally body handler final) I.
Proof.
  intros Hb Hh Hf m Hm. unfold try_except_finally.
  specialize (Hb m Hm). destruct (body m) as [[[] | [|] |] m1]; simpl in Hb.
  - apply Hf, Hb.
  - specialize (Hh m1 Hb). destruct (handler m1) as [[[] | e |] m2]; simpl in Hh.
    + apply Hf, Hh.
    + specialize (Hf m2 Hh). destruct (final m2) as [[[] | e' |] m3]; exact Hf.
    + exact Hh.
  - specialize (Hf m1 Hb). destruct (final m1) as [[[] | e' |] m2]; exact Hf.
  - exact Hb.
Qed.

(** The loop body keeps every invariant that its five primitive statements
    keep; the whole program keeps it if the event emissions do too. *)
Lemma inv_iteration (I : machine -> Prop) (p : policy) (E : env) :
  hoare I poll I -> hoare I (readinto E) I -> hoare I (refresh_controls E) I ->
  (forall i, hoare I (frame_step p i) I) ->
  (forall n, hoare I (write_out n) I) ->
  hoare I (iteration p E) I.
Proof.
  intros Hpoll Hread Hrefresh Hframe Hwrite. unfold iteration.
  apply inv_bind; [exact Hpoll | intros _].
  apply inv_bind; [exact Hread | intros num_read].
  destruct (0 <? num_read); [| apply hoare_ret; auto].
  apply inv_bind; [exact Hpoll | intros _].
  apply inv_bind; [exact Hrefresh | intros _].
  apply inv_bind.
  - apply inv_for_range. intros i.
    apply inv_bind; [exact Hpoll | intros _; apply Hframe].
  - intros _. apply inv_bind; [exact Hpoll | intros _; apply Hwrite].
Qed.

Lemma inv_main (I : machine -> Prop) (p : policy) (E : env) (fuel : nat) :
  hoare I (iteration p E) I -> (forall e, hoare I (emit e) I) ->
  hoare I (main p E fuel) I.
Proof.
  intros Hit Hemit. unfold main. apply inv_try_except_finally.
  - now apply inv_while_true.
  - apply inv_bind; [apply Hemit | intros _; apply Hemit].
  - apply inv_bind; [apply Hemit | intros _].
    apply inv_bind; [apply Hemit | intros _; apply Hemit].
Qed.

(** ** The envelope invariant *)

Lemma initial_settings_ok : coeff_ok initial_settings.
Proof. unfold coeff_ok; simpl. repeat split; try reflexivity; discriminate. Qed.

Lemma reciprocal_in_unit (x : Q) : (1 <= x)%Q -> (0 < 1 / x <= 1)%Q.
Proof.
  intros Hx. destruct (Qinv_spec x) as [Hi Hxi]; [lra |].
  unfold Qdiv. rewrite Qmult_1_l. set (i := (/ x)%Q) in *.
  split; [exact Hi |].
  assert (H : (0 <= i * (x - 1))%Q) by (apply Qmult_le_0_compat; lra).
  assert (Hq : (i * (x - 1) == x * i - i)%Q) by ring.
  rewrite Hq, Hxi in H. lra.
Qed.

(** Every 16-bit reading gives at least 80 samples per time constant. *)
Lemma samples_per_time_u16 (compress_raw : Z) :
  is_u16 compress_raw ->
  (80 <= (Float.of_int MIN_TIME_MS
          + Float.of_int compress_raw / 65535
            * Float.of_int (MAX_TIME_MS - MIN_TIME_MS)) / 1000
         * Float.of_int SAMPLE_RATE)%Q.
Proof.
  intros Hu. pose proof (normalized_u16 compress_raw Hu) as Hn.
  unfold Float.of_int.
  set (c := (inject_Z compress_raw / 65535)%Q) in *.
  change (inject_Z MIN_TIME_MS) with 5%Q.
  change (inject_Z (MAX_TIME_MS - MIN_TIME_MS)) with 195%Q.
  change (inject_Z SAMPLE_RATE) with 16000%Q.
  assert (Heq : ((5 + c * 195) / 1000 * 16000 == 80 + 3120 * c)%Q) by field.
  rewrite Heq. lra.
Qed.

(** [read_pots] on 16-bit readings sets both coefficients to the same value
    in (0, 1]. *)
Lemma read_pots_coeff (gain_raw compress_raw : Z) (s : settings) :
  is_u16 compress_raw ->
  let s' := fst (read_pots gain_raw compress_raw s) in
  coeff_ok s' /\ attack_coeff s' = release_coeff s'.
Proof.
  intros Hu. pose proof (samples_per_time_u16 compress_raw Hu) as Hspt.
  unfold read_pots. cbv zeta.
  set (spt := ((_ + _) / 1000 * _)%Q) in *.
  assert (Hpos : Float.ltb 0 spt = true) by (apply ltb_lt; lra).
  rewrite Hpos. cbn [fst attack_coeff release_coeff coeff_ok].
  unfold coeff_ok; cbn [attack_coeff release_coeff].
  assert (H1 : (1 <= spt)%Q) by lra.
  pose proof (reciprocal_in_unit spt H1). auto.
Qed.

Lemma compress_sample_envelope_nonneg (p : policy) (s : settings)
    (sample : Z) (envelope gain : Q) :
  coeff_ok s -> (0 <= envelope)%Q ->
  (0 <= snd (compress_sample p s sample envelope gain))%Q.
Proof.
  intros [[Ha0 Ha1] [Hr0 Hr1]] He. unfold compress_sample; cbn [snd].
  apply update_envelope_nonneg; auto; split; auto; now apply Qlt_le_weak.
Qed.

Lemma process_frame_envelopes (p : policy) (s : settings) (i : nat)
    (buf buf' : list Z) (el er el' er' : Q) :
  coeff_ok s -> (0 <= el)%Q -> (0 <= er)%Q ->
  process_frame p s i (buf, el, er) = Some (buf', el', er') ->
  (0 <= el')%Q /\ (0 <= er')%Q.
Proof.
  intros Hs Hl Hr. unfold process_frame.
  do 8 (match goal with
        | |- (?o ≫= _) = _ -> _ =>
            destruct o as [? |]; cbn [mbind option_bind]; [| discriminate]
        end).
  match goal with
  | |- context [compress_sample p s ?x el ?g] =>
      pose proof (compress_sample_envelope_nonneg p s x el g Hs Hl);
      destruct (compress_sample p s x el g) as [lo el1]
  end.
  match goal with
  | |- context [compress_sample p s ?x er ?g] =>
      pose proof (compress_sample_envelope_nonneg p s x er g Hs Hr);
      destruct (compress_sample p s x er g) as [ro er1]
  end.
  destruct (store _ _ _); cbn [mbind option_bind]; [| discriminate].
  intros Heq. inversion Heq; subst. auto.
Qed.

(** The envelope of one channel over a sequence of samples. *)
Lemma envelope_sequence_nonneg (p : policy) (s : settings) (gain : Q)
    (samples : list Z) :
  coeff_ok s ->
  forall envelope : Q,
    (0 <= envelope)%Q ->
    (0 <= fold_left
            (fun e sample => snd (compress_sample p s sample e gain))
            samples envelope)%Q.
Proof.
  intros Hs. induction samples as [| x samples IH]; intros envelope He.
  - exact He.
  - simpl. apply IH.
    exact (compress_sample_envelope_nonneg p s x envelope gain Hs He).
Qed.

Section EnvelopeInvariant.
Variable p : policy.
Variable E : env.
Hypothesis HE : env_ok E.

Lemma envelopes_ok_poll : hoare envelopes_ok poll envelopes_ok.
Proof.
  intros m Hm. unfold poll. destruct (irq m) as [[| n] |]; exact Hm.
Qed.

Lemma envelopes_ok_readinto : hoare envelopes_ok (readinto E) envelopes_ok.
Proof. intros m Hm. exact Hm. Qed.

Lemma envelopes_ok_emit (e : event) : hoare envelopes_ok (emit e) envelopes_ok.
Proof. intros m Hm. exact Hm. Qed.

Lemma envelopes_ok_write_out (n : Z) :
  hoare envelopes_ok (write_out n) envelopes_ok.
Proof. intros m Hm. exact Hm. Qed.

Lemma envelopes_ok_refresh_controls :
  hoare envelopes_ok (refresh_controls E) envelopes_ok.
Proof.
  intros m (Hl & Hr & Hc). unfold refresh_controls.
  destruct (POT_READ_INTERVAL <=? loop_count m + 1).
  - destruct HE as (_ & _ & Hcomp).
    pose proof (read_pots_coeff (adc_gain E (refreshes m))
                  (adc_compress E (refreshes m)) (controls m)
                  (Hcomp (refreshes m))) as [Hok _].
    destruct (read_pots _ _ _) as [s' ?]. simpl in *.
    repeat split; auto; apply Hok.
  - repeat split; auto; apply Hc.
Qed.

Lemma envelopes_ok_frame_step (i : nat) :
  hoare envelopes_ok (frame_step p i) envelopes_ok.
Proof.
  intros m (Hl & Hr & Hc). unfold frame_step.
  destruct (process_frame p (controls m) i _) as [[[buf el] er] |] eqn:Hpf.
  - destruct (process_frame_envelopes _ _ _ _ _ _ _ _ _ Hc Hl Hr Hpf).
    repeat split; auto; apply Hc.
  - repeat split; auto; apply Hc.
Qed.

Lemma envelopes_ok_main (fuel : nat) :
  hoare envelopes_ok (main p E fuel) envelopes_ok.
Proof.
  apply inv_main; [| exact envelopes_ok_emit].
  apply inv_iteration.
  - exact envelopes_ok_poll.
  - exact envelopes_ok_readinto.
  - exact envelopes_ok_refresh_controls.
  - exact envelopes_ok_frame_step.
  - exact envelopes_ok_write_out.
Qed.

End EnvelopeInvariant.

Lemma envelopes_ok_initial (i : option nat) : envelopes_ok (initial_machine i).
Proof.
  unfold envelopes_ok; simpl. repeat split; try discriminate; reflexivity.
Qed.

(** [C8] Each channel's envelope starts at 0 and is non-negative after every
    [compress_sample] update, for every sequence of input samples, given
    that the attack and release coefficients are in (0, 1]; the initial
    coefficients are, and so are those [read_pots] computes from a 16-bit
    reading.  Hence in every run of the program, stopped at any point, both
    envelopes are non-negative. *)
Theorem envelope_nonnegative (p : policy) (E : env) :
  env_ok E ->
  (forall i, envelope_left (initial_machine i) = 0%Q
             /\ envelope_right (initial_machine i) = 0%Q)
  /\ (forall (s : settings) (sample : Z) (envelope gain : Q),
        coeff_ok s -> (0 <= envelope)%Q ->
        (0 <= snd (compress_sample p s sample envelope gain))%Q)
  /\ (forall (s : settings) (gain : Q) (samples : list Z),
        coeff_ok s ->
        (0 <= fold_left
                (fun e sample => snd (compress_sample p s sample e gain))
                samples 0)%Q)
  /\ coeff_ok initial_settings
  /\ (forall (gain_raw compress_raw : Z) (s : settings),
        is_u16 compress_raw ->
        coeff_ok (fst (read_pots gain_raw compress_raw s)))
  /\ (forall (fuel : nat) (i : option nat),
        let m := snd (main p E fuel (initial_machine i)) in
        (0 <= envelope_left m)%Q /\ (0 <= envelope_right m)%Q
        /\ coeff_ok (controls m)).
Proof.
  intros HE.
  split; [intros i; split; reflexivity |].
  split; [intros s sample envelope gain; apply compress_sample_envelope_nonneg |].
  split; [intros s gain samples Hs;
          apply envelope_sequence_nonneg; [exact Hs | discriminate] |].
  split; [exact initial_settings_ok |].
  split; [intros g c s Hu; apply (read_pots_coeff g c s Hu) |].
  intros fuel i.
  exact (envelopes_ok_main p E HE fuel _ (envelopes_ok_initial i)).
Qed.

Lemma envelope_nonnegative_witness :
  env_ok demo_env /\
  (0 <= envelope_left
          (snd (main source_policy demo_env 3 (initial_machine (Some 5%nat)))))%Q.
Proof.
  assert (HE : env_ok demo_env).
  { unfold env_ok, demo_env, demo_chunk, is_u16, is_byte; simpl.
    split; [intros _; repeat constructor; lia | split; intros _; lia]. }
  split; [exact HE |].
  destruct (envelope_nonnegative source_policy demo_env HE)
    as (_ & _ & _ & _ & _ & Hrun).
  exact (proj1 (Hrun 3%nat (Some 5%nat))).
Defined.

(** ** The coefficients before the first control refresh *)

Lemma unrefreshed_mono (k k' : Z) (m : machine) :
  k <= k' -> unrefreshed k m -> unrefreshed k' m.
Proof. unfold unrefreshed. intros Hk [Hc Hl]. split; [exact Hc | lia]. Qed.

Section Unrefreshed.
Variable p : policy.
Variable E : env.

Lemma unrefreshed_poll (k : Z) : hoare (unrefreshed k) poll (unrefreshed k).
Proof.
  intros m Hm. unfold poll. destruct (irq m) as [[| n] |]; exact Hm.
Qed.

Lemma unrefreshed_readinto (k : Z) :
  hoare (unrefreshed k) (readinto E) (unrefreshed k).
Proof. intros m Hm. exact Hm. Qed.

Lemma unrefreshed_write_out (k n : Z) :
  hoare (unrefreshed k) (write_out n) (unrefreshed k).
Proof. intros m Hm. exact Hm. Qed.

Lemma unrefreshed_frame_step (k : Z) (i : nat) :
  hoare (unrefreshed k) (frame_step p i) (unrefreshed k).
Proof.
  intros m Hm. unfold frame_step.
  destruct (process_frame p (controls m) i _) as [[[buf el] er] |]; exact Hm.
Qed.

(** Below the refresh interval, [refresh_controls] only counts. *)
Lemma unrefreshed_refresh_controls (k : Z) :
  k + 1 < POT_READ_INTERVAL ->
  hoare (unrefreshed k) (refresh_controls E) (unrefreshed (k + 1)).
Proof.
  intros Hk m [Hc Hl]. unfold refresh_controls.
  destruct (Z.leb_spec POT_READ_INTERVAL (loop_count m + 1)); [lia |].
  split; simpl; [exact Hc | lia].
Qed.

Lemma unrefreshed_iteration (k : Z) :
  k + 1 < POT_READ_INTERVAL ->
  hoare (unrefreshed k) (iteration p E) (unrefreshed (k + 1)).
Proof.
  intros Hk. unfold iteration.
  assert (Hup : forall m, unrefreshed k m -> unrefreshed (k + 1) m)
    by (intros m; apply unrefreshed_mono; lia).
  apply (hoare_bind _ (unrefreshed k)); [apply unrefreshed_poll | exact Hup |].
  intros _.
  apply (hoare_bind _ (unrefreshed k)); [apply unrefreshed_readinto | exact Hup |].
  intros num_read. destruct (0 <? num_read); [| apply hoare_ret; exact Hup].
  apply (hoare_bind _ (unrefreshed k)); [apply unrefreshed_poll | exact Hup |].
  intros _.
  apply (hoare_bind _ (unrefreshed (k + 1)));
    [now apply unrefreshed_refresh_controls | auto |].
  intros _. apply inv_bind.
  - apply inv_for_range. intros i.
    apply inv_bind; [apply unrefreshed_poll | intros _; apply unrefreshed_frame_step].
  - intros _.
    apply inv_bind; [apply unrefreshed_poll | intros _; apply unrefreshed_write_out].
Qed.

Lemma unrefreshed_while_true (fuel : nat) :
  forall k : Z,
    k + Z.of_nat fuel < POT_READ_INTERVAL ->
    hoare (unrefreshed k) (while_true p E fuel) (unrefreshed (k + Z.of_nat fuel)).
Proof.
  induction fuel as [| fuel IH]; intros k Hk.
  - intros m Hm. simpl. now rewrite Z.add_0_r.
  - cbn [while_true].
    apply (hoare_bind _ (unrefreshed (k + 1))).
    + apply unrefreshed_iteration. lia.
    + intros m. apply unrefreshed_mono. lia.
    + intros _. replace (k + Z.of_nat (S fuel)) with (k + 1 + Z.of_nat fuel) by lia.
      apply IH. lia.
Qed.

End Unrefreshed.

(** With the initial settings the follower is asymmetric: the envelope
    rises by a tenth of the distance to the magnitude and falls by a
    hundredth of it. *)
Lemma initial_follower_asymmetric :
  (update_envelope initial_settings 1000 0 == 100)%Q
  /\ (update_envelope initial_settings 0 1000 == 990)%Q.
Proof. split; reflexivity. Qed.

(** [C3] fails in the code: during the first 19 iterations of the main loop
    (before the first [read_pots]) the coefficients are the initial ones,
    attack 0.1 and release 0.01, which differ. *)
Theorem coefficients_differ_before_refresh (p : policy) (E : env)
    (fuel : nat) (i : option nat) :
  Z.of_nat fuel < POT_READ_INTERVAL ->
  let m := snd (while_true p E fuel (initial_machine i)) in
  (attack_coeff (controls m) == 1 # 10)%Q
  /\ (release_coeff (controls m) == 1 # 100)%Q
  /\ ~ (attack_coeff (controls m) == release_coeff (controls m))%Q.
Proof.
  intros Hfuel m.
  assert (Hinit : unrefreshed 0 (initial_machine i))
    by (split; simpl; [reflexivity | lia]).
  destruct (unrefreshed_while_true p E fuel 0 Hfuel _ Hinit) as [Hc _].
  subst m. rewrite Hc. simpl.
  split; [reflexivity |]. split; [reflexivity |]. discriminate.
Qed.

Lemma coefficients_differ_before_refresh_witness :
  ~ (attack_coeff (controls (snd (while_true source_policy demo_env 19
                                    (initial_machine None))))
     == release_coeff (controls (snd (while_true source_policy demo_env 19
                                        (initial_machine None)))))%Q.
Proof.
  refine (proj2 (proj2 (coefficients_differ_before_refresh
                          source_policy demo_env 19 None _))).
  unfold POT_READ_INTERVAL. simpl. lia.
Defined.

(** What [read_pots] does about it: once it has set the coefficients (the
    [if samples_per_time > 0] branch) they are the same value, and every
    statement of the loop keeps them the same from then on. *)
Lemma read_pots_equalizes (gain_raw compress_raw : Z) (s : settings) :
  is_u16 compress_raw \/ attack_coeff s = release_coeff s ->
  attack_coeff (fst (read_pots gain_raw compress_raw s))
  = release_coeff (fst (read_pots gain_raw compress_raw s)).
Proof.
  intros [Hu | Heq].
  - apply (read_pots_coeff gain_raw compress_raw s Hu).
  - unfold read_pots. cbv zeta. destruct (Float.ltb 0 _); simpl; auto.
Qed.

Lemma coeffs_equal_iteration (p : policy) (E : env) :
  hoare coeffs_equal (iteration p E) coeffs_equal.
Proof.
  apply inv_iteration.
  - intros m Hm. unfold poll. destruct (irq m) as [[| n] |]; exact Hm.
  - intros m Hm. exact Hm.
  - intros m Hm. unfold refresh_controls.
    destruct (POT_READ_INTERVAL <=? loop_count m + 1); [| exact Hm].
    pose proof (read_pots_equalizes (adc_gain E (refreshes m))
                  (adc_compress E (refreshes m)) (controls m) (or_intror Hm)) as H.
    destruct (read_pots _ _ _) as [s' ?]. exact H.
  - intros i m Hm. unfold frame_step.
    destruct (process_frame p (controls m) i _) as [[[buf el] er] |]; exact Hm.
  - intros n m Hm. exact Hm.
Qed.

(** ** Release of the hardware streams *)

Lemma count_app (f : event -> bool) (t1 t2 : list event) :
  count f (t1 ++ t2) = (count f t1 + count f t2)%nat.
Proof. unfold count. now rewrite List.filter_app, length_app. Qed.

Lemma released_add_event (a b : nat) (m : machine) (e : event) :
  released a b m ->
  released (a + (if is_deinit_in e then 1 else 0))
           (b + (if is_deinit_out e then 1 else 0)) (add_event m e).
Proof.
  unfold released. intros [Ha Hb]. cbn [trace add_event].
  rewrite !count_app, Ha, Hb. unfold count; simpl.
  destruct (is_deinit_in e), (is_deinit_out e); auto.
Qed.

Section Released.
Variable p : policy.
Variable E : env.
Variables a b : nat.

Lemma released_poll : hoare (released a b) poll (released a b).
Proof.
  intros m Hm. unfold poll. destruct (irq m) as [[| n] |]; exact Hm.
Qed.

Lemma released_readinto : hoare (released a b) (readinto E) (released a b).
Proof. intros m Hm. exact Hm. Qed.

Lemma released_refresh_controls :
  hoare (released a b) (refresh_controls E) (released a b).
Proof.
  intros m Hm. unfold refresh_controls.
  destruct (POT_READ_INTERVAL <=? loop_count m + 1);
    [destruct (read_pots _ _ _) as [s' ?] |]; exact Hm.
Qed.

Lemma released_frame_step (i : nat) :
  hoare (released a b) (frame_step p i) (released a b).
Proof.
  intros m Hm. unfold frame_step.
  destruct (process_frame p (controls m) i _) as [[[buf el] er] |]; exact Hm.
Qed.

Lemma released_write_out (n : Z) :
  hoare (released a b) (write_out n) (released a b).
Proof.
  intros m Hm. unfold write_out, get, emit, mbind, M_bind. cbn [snd].
  pose proof (released_add_event a b m
                (EvWrite (take (Z.to_nat n) (audio_buffer m))) Hm) as H.
  cbn [is_deinit_in is_deinit_out] in H. now rewrite !Nat.add_0_r in H.
Qed.

(** The loop itself never releases a stream. *)
Lemma released_while_true (fuel : nat) :
  hoare (released a b) (while_true p E fuel) (released a b).
Proof.
  apply inv_while_true, inv_iteration.
  - exact released_poll.
  - exact released_readinto.
  - exact released_refresh_controls.
  - exact released_frame_step.
  - exact released_write_out.
Qed.

End Released.

(** ** Delivery of the interrupt *)

Lemma counts_down_ret {A : Type} (a : A) : counts_down 0 (mret a).
Proof. intros m n Hn. simpl. exists n. split; [exact Hn | lia]. Qed.

Lemma counts_down_bind {A B : Type} (k1 k2 : nat) (c : M A) (f : A -> M B) :
  counts_down k1 c -> (forall a, counts_down k2 (f a)) ->
  counts_down (k1 + k2) (c ≫= f).
Proof.
  intros Hc Hf m n Hn. specialize (Hc m n Hn).
  unfold mbind, M_bind. destruct (c m) as [[a | e |] m1]; auto.
  destruct Hc as (n1 & Hn1 & Hle1). specialize (Hf a m1 n1 Hn1).
  destruct (f a m1) as [[b | e |] m2]; auto.
  destruct Hf as (n2 & Hn2 & Hle2). exists n2. split; [exact Hn2 | lia].
Qed.

Lemma counts_down_weaken {A : Type} (k k' : nat) (c : M A) :
  (k' <= k)%nat -> counts_down k c -> counts_down k' c.
Proof.
  intros Hk Hc m n Hn. specialize (Hc m n Hn).
  destruct (c m) as [[a | e |] m1]; auto.
  destruct Hc as (n1 & Hn1 & Hle). exists n1. split; [exact Hn1 | lia].
Qed.

Lemma counts_down_poll : counts_down 1 poll.
Proof.
  intros m n Hn. unfold poll. rewrite Hn. destruct n as [| n]; [exact I |].
  exists n. split; [reflexivity | lia].
Qed.

Lemma counts_down_for_range (body : nat -> M unit) (count : nat) :
  (forall i, counts_down 0 (body i)) ->
  forall start, counts_down 0 (for_range body start count).
Proof.
  intros Hbody. induction count as [| count IH]; intros start.
  - apply counts_down_ret.
  - simpl. apply (counts_down_bind 0 0); [apply Hbody | intros _; apply IH].
Qed.

Section Interrupt.
Variable p : policy.
Variable E : env.

Lemma counts_down_readinto : counts_down 0 (readinto E).
Proof. intros m n Hn. simpl. exists n. split; [exact Hn | lia]. Qed.

Lemma counts_down_refresh_controls : counts_down 0 (refresh_controls E).
Proof.
  intros m n Hn. rewrite refresh_controls_returns.
  destruct (refresh_controls_frame E m) as (_ & _ & _ & _ & Hi & _).
  exists n. split; [now rewrite Hi | lia].
Qed.

Lemma counts_down_frame_step (i : nat) : counts_down 0 (frame_step p i).
Proof.
  intros m n Hn. unfold frame_step.
  destruct (process_frame p (controls m) i _) as [[[buf el] er] |]; [| exact I].
  exists n. split; [exact Hn | lia].
Qed.

Lemma counts_down_write_out (k : Z) : counts_down 0 (write_out k).
Proof. intros m n Hn. simpl. exists n. split; [exact Hn | lia]. Qed.

(** Every pass of the loop body meets a poll. *)
Lemma counts_down_iteration : counts_down 1 (iteration p E).
Proof.
  unfold iteration.
  apply (counts_down_bind 1 0); [exact counts_down_poll | intros _].
  apply (counts_down_bind 0 0); [exact counts_down_readinto | intros num_read].
  destruct (0 <? num_read); [| apply counts_down_ret].
  apply (counts_down_weaken 1); [lia |].
  apply (counts_down_bind 1 0); [exact counts_down_poll | intros _].
  apply (counts_down_bind 0 0); [exact counts_down_refresh_controls | intros _].
  apply (counts_down_bind 0 0).
  - apply counts_down_for_range. intros i. apply (counts_down_weaken 1); [lia |].
    apply (counts_down_bind 1 0);
      [exact counts_down_poll | intros _; apply counts_down_frame_step].
  - intros _. apply (counts_down_weaken 1); [lia |].
    apply (counts_down_bind 1 0);
      [exact counts_down_poll | intros _; apply counts_down_write_out].
Qed.

(** A pending interrupt ends the loop: with more fuel than polls left, the
    loop raises. *)
Lemma while_true_interrupted (fuel : nat) :
  forall (m : machine) (n : nat),
    irq m = Some n -> (n < fuel)%nat ->
    exists e, fst (while_true p E fuel m) = Raised e.
Proof.
  induction fuel as [| fuel IH]; intros m n Hn Hlt; [lia |].
  cbn [while_true]. unfold mbind, M_bind.
  pose proof (counts_down_iteration m n Hn) as Hit.
  destruct (iteration p E m) as [[[] | e |] m1].
  - destruct Hit as (n1 & Hn1 & Hle). apply (IH m1 n1 Hn1). lia.
  - exists e. reflexivity.
  - contradiction.
Qed.

End Interrupt.

(** ** No error but the interrupt *)

Lemma fits_ret {A : Type} (L : nat) (a : A) : fits L (mret a).
Proof. intros m Hm. split; [discriminate | exact Hm]. Qed.

Lemma fits_bind {A B : Type} (L : nat) (c : M A) (f : A -> M B) :
  fits L c -> (forall a, fits L (f a)) -> fits L (c ≫= f).
Proof.
  intros Hc Hf m Hm. destruct (Hc m Hm) as [Hne Hlen].
  unfold mbind, M_bind. destruct (c m) as [[a | e |] m1]; simpl in *.
  - apply Hf, Hlen.
  - split; [| exact Hlen].
    intros Heq. apply Hne. inversion Heq. reflexivity.
  - split; [discriminate | exact Hlen].
Qed.

Lemma fits_poll (L : nat) : fits L poll.
Proof.
  intros m Hm. unfold poll.
  destruct (irq m) as [[| n] |]; split; try discriminate; exact Hm.
Qed.

Lemma fits_write_out (L : nat) (n : Z) : fits L (write_out n).
Proof. intros m Hm. split; [discriminate | exact Hm]. Qed.

Lemma fits_refresh_controls (E : env) (L : nat) : fits L (refresh_controls E).
Proof.
  intros m Hm. rewrite refresh_controls_returns.
  destruct (refresh_controls_frame E m) as (Hb & _). cbn [fst snd].
  split; [discriminate | now rewrite Hb].
Qed.

(** A frame that lies inside the buffer is processed without error. *)
Lemma process_frame_fits (p : policy) (s : settings) (i : nat)
    (buf : list Z) (el er : Q) :
  (i * 8 + 8 <= length buf)%nat ->
  exists (buf' : list Z) (el' er' : Q),
    process_frame p s i (buf, el, er) = Some (buf', el', er')
    /\ length buf' = length buf.
Proof.
  intros Hfit.
  assert (Hsplit : buf = take (i * 8) buf
                         ++ take 8 (drop (i * 8) buf)
                         ++ drop 8 (drop (i * 8) buf))
    by (now rewrite !take_drop).
  assert (Hpre : length (take (i * 8) buf) = (i * 8)%nat)
    by (rewrite length_take; lia).
  assert (Hmid : length (take 8 (drop (i * 8) buf)) = 8%nat)
    by (rewrite length_take, length_drop; lia).
  set (pre := take (i * 8) buf) in *.
  set (rest := drop 8 (drop (i * 8) buf)) in *.
  destruct (take 8 (drop (i * 8) buf))
    as [| b0 [| b1 [| b2 [| b3 [| b4 [| b5 [| b6 [| b7 [| ? ?]]]]]]]]];
    try discriminate Hmid.
  pose proof (process_frame_app p s i pre rest b0 b1 b2 b3 b4 b5 b6 b7
                el er Hpre) as Hpf.
  rewrite <- Hsplit in Hpf.
  destruct (compress_sample p s (decode b0 b1 b2 b3) el (current_gain s))
    as [lo el'].
  destruct (compress_sample p s (decode b4 b5 b6 b7) er (current_gain s))
    as [ro er'].
  eexists _, _, _. split; [exact Hpf |].
  rewrite Hsplit, !length_app. unfold encode. reflexivity.
Qed.

Lemma fits_frame_step (p : policy) (L i : nat) :
  (i * 8 + 8 <= L)%nat -> fits L (frame_step p i).
Proof.
  intros Hi m Hm. unfold frame_step.
  destruct (process_frame_fits p (controls m) i (audio_buffer m)
              (envelope_left m) (envelope_right m)) as (buf & el & er & Hpf & Hlen);
    [lia |].
  rewrite Hpf. split; [discriminate |]. simpl. now rewrite Hlen.
Qed.

Lemma fits_frames (p : policy) (L count : nat) :
  forall start : nat,
    ((start + count) * 8 <= L)%nat ->
    fits L (for_range (fun i => poll;; frame_step p i) start count).
Proof.
  induction count as [| count IH]; intros start Hfit.
  - apply fits_ret.
  - cbn [for_range]. apply fits_bind.
    + apply fits_bind; [apply fits_poll | intros _; apply fits_frame_step; lia].
    + intros _. apply IH. lia.
Qed.

Lemma readinto_bind {B : Type} (E : env) (f : Z -> M B) (m : machine) :
  (readinto E ≫= f) m
  = let data := take (length (audio_buffer m)) (mic E (reads m)) in
    f (Z.of_nat (length data))
      (set_input m (data ++ drop (length data) (audio_buffer m)) (S (reads m))).
Proof. reflexivity. Qed.

Lemma fits_iteration (p : policy) (E : env) (L : nat) : fits L (iteration p E).
Proof.
  unfold iteration. apply fits_bind; [apply fits_poll | intros _].
  intros m Hm. rewrite readinto_bind. cbv zeta.
  set (data := take (length (audio_buffer m)) (mic E (reads m))).
  assert (Hdata : (length data <= L)%nat)
    by (subst data; rewrite length_take; lia).
  set (m1 := set_input m _ _).
  assert (Hm1 : length (audio_buffer m1) = L).
  { subst m1. cbn [audio_buffer set_input].
    rewrite length_app, length_drop. lia. }
  destruct (0 <? Z.of_nat (length data)); [| now apply fits_ret].
  revert m1 Hm1.
  apply fits_bind; [apply fits_poll | intros _].
  apply fits_bind; [apply fits_refresh_controls | intros _].
  apply fits_bind.
  - apply fits_frames.
    replace (Z.to_nat (Z.of_nat (length data) / 8)) with (length data / 8)%nat
      by (rewrite <- (Nat2Z.id (length data / 8)), Nat2Z.inj_div; reflexivity).
    pose proof (Nat.div_mod_eq (length data) 8). lia.
  - intros _. apply fits_bind; [apply fits_poll | intros _; apply fits_write_out].
Qed.

Lemma fits_while_true (p : policy) (E : env) (L fuel : nat) :
  fits L (while_true p E fuel).
Proof.
  induction fuel as [| fuel IH].
  - intros m Hm. split; [discriminate | exact Hm].
  - cbn [while_true]. apply fits_bind; [apply fits_iteration | intros _; exact IH].
Qed.

(** ** The [try] statement as a whole *)

Lemma main_cases (p : policy) (E : env) (fuel : nat) (m : machine) :
  main p E fuel m
  = match while_true p E fuel m with
    | (Ok tt, m1) => (Ok tt, finalized m1)
    | (Raised KeyboardInterrupt, m1) => (Ok tt, finalized (handled m1))
    | (Raised OtherError, m1) => (Raised OtherError, finalized m1)
    | (OutOfFuel, m1) => (OutOfFuel, m1)
    end.
Proof.
  unfold main, try_except_finally.
  destruct (while_true p E fuel m) as [[[] | [|] |] m1]; reflexivity.
Qed.

Lemma released_finalized (m : machine) :
  released 0 0 m ->
  released 1 1 (finalized m)
  /\ exists t, trace (finalized m)
               = t ++ [EvDeinitIn; EvDeinitOut; EvPrint "Stopped."]
               /\ count is_deinit_in t = 0%nat /\ count is_deinit_out t = 0%nat.
Proof.
  intros Hm. split.
  - unfold finalized.
    exact (released_add_event 1 1 _ (EvPrint "Stopped.")
             (released_add_event 1 0 _ EvDeinitOut
                (released_add_event 0 0 m EvDeinitIn Hm))).
  - exists (trace m). unfold finalized. cbn [trace add_event].
    rewrite <- !app_assoc. split; [reflexivity | exact Hm].
Qed.

Lemma released_handled (m : machine) : released 0 0 m -> released 0 0 (handled m).
Proof.
  intros Hm. unfold handled.
  exact (released_add_event 0 0 _ (EvPrint "Stopping...")
           (released_add_event 0 0 m (EvPrint EmptyString) Hm)).
Qed.

(** [C9] On every exit path of the real-time loop, both hardware streams
    are released, each exactly once, as the last stream actions: whenever
    the program has stopped (for whatever reason, with the interrupt seen at
    any poll of the loop, also between frames of a chunk) the trace holds
    one release of the input and one of the output stream, at its end;
    while the loop runs nothing is released; and an interrupt does stop the
    program, which then returns normally. *)
Theorem streams_released_once (p : policy) (E : env) :
  (forall (fuel : nat) (m : machine),
     released 0 0 m ->
     let r := main p E fuel m in
     match fst r with
     | OutOfFuel => released 0 0 (snd r)
     | _ =>
         released 1 1 (snd r)
         /\ exists t, trace (snd r)
                      = t ++ [EvDeinitIn; EvDeinitOut; EvPrint "Stopped."]
                      /\ count is_deinit_in t = 0%nat
                      /\ count is_deinit_out t = 0%nat
     end)
  /\ (forall (fuel n : nat) (m : machine),
        released 0 0 m -> irq m = Some n -> (n < fuel)%nat ->
        let r := main p E fuel m in
        fst r = Ok tt /\ released 1 1 (snd r)).
Proof.
  split.
  - intros fuel m Hm r. subst r. rewrite main_cases.
    pose proof (released_while_true p E 0 0 fuel m Hm) as Hloop.
    destruct (while_true p E fuel m) as [[[] | [|] |] m1]; cbn [fst snd] in *.
    + now apply released_finalized.
    + now apply released_finalized, released_handled.
    + now apply released_finalized.
    + exact Hloop.
  - intros fuel n m Hm Hn Hlt r. subst r. rewrite main_cases.
    pose proof (released_while_true p E 0 0 fuel m Hm) as Hloop.
    destruct (while_true_interrupted p E fuel m n Hn Hlt) as [e He].
    destruct (fits_while_true p E (length (audio_buffer m)) fuel m eq_refl)
      as [Hne _].
    destruct (while_true p E fuel m) as [[[] | [|] |] m1]; cbn [fst snd] in *;
      try discriminate He; try (exfalso; apply Hne; reflexivity).
    split; [reflexivity |].
    now apply released_finalized, released_handled.
Qed.

Lemma streams_released_once_witness :
  fst (main source_policy demo_env 6 (initial_machine (Some 5%nat))) = Ok tt
  /\ released 1 1
       (snd (main source_policy demo_env 6 (initial_machine (Some 5%nat)))).
Proof.
  destruct (streams_released_once source_policy demo_env) as [_ H].
  apply (H 6%nat 5%nat (initial_machine (Some 5%nat))).
  - split; reflexivity.
  - reflexivity.
  - lia.
Defined.

(** ** A run of the model *)

(** The program on [demo_env], interrupted at the eighth poll (the frame of
    the second chunk is processed, the chunk is not yet written): the first
    chunk has been written, with its frame compressed and its seven trailing
    bytes as read; the second is not written; then the handler and the
    [finally] block run. *)
Example interrupted_run :
  let r := main source_policy demo_env 3 (initial_machine (Some 7%nat)) in
  fst r = Ok tt
  /\ trace (snd r)
     = [EvWrite [0; 64; 66; 15; 0; 128; 120; 162; 1; 2; 3; 4; 5; 6; 7];
        EvPrint EmptyString; EvPrint "Stopping...";
        EvDeinitIn; EvDeinitOut; EvPrint "Stopped."].
Proof. split; vm_compute; reflexivity. Qed.

(** * Further properties of the control reader *)

(** The two floats [read_pots] computes from the compression reading. *)
Lemma read_pots_time_ms (gain_raw compress_raw : Z) (s : settings) :
  snd (snd (read_pots gain_raw compress_raw s))
  = (5 + inject_Z compress_raw / 65535 * 195)%Q.
Proof. reflexivity. Qed.

Lemma read_pots_u16 (gain_raw compress_raw : Z) (s : settings) :
  is_u16 compress_raw ->
  fst (read_pots gain_raw compress_raw s)
  = {| current_gain :=
         (MIN_GAIN + inject_Z gain_raw / 65535 * (MAX_GAIN - MIN_GAIN))%Q;
       attack_coeff :=
         (1 / ((5 + inject_Z compress_raw / 65535 * 195) / 1000 * 16000))%Q;
       release_coeff :=
         (1 / ((5 + inject_Z compress_raw / 65535 * 195) / 1000 * 16000))%Q |}.
Proof.
  intros Hu. pose proof (samples_per_time_u16 compress_raw Hu) as Hspt.
  unfold read_pots. cbv zeta.
  set (spt := ((_ + _) / 1000 * _)%Q) in *.
  assert (Hpos : Float.ltb 0 spt = true) by (apply ltb_lt; lra).
  rewrite Hpos. reflexivity.
Qed.

Lemma normalized_mono (r1 r2 : Z) :
  r1 <= r2 -> (inject_Z r1 / 65535 <= inject_Z r2 / 65535)%Q.
Proof.
  intros H. unfold Qdiv, Qle, Qmult, Qinv, inject_Z; simpl. lia.
Qed.

(** [X1] The time constant returned by [read_pots] rises with the
    compression reading, from 5 ms at reading 0 to 200 ms at reading
    65535. *)
Theorem read_pots_time_constant (gain_raw c1 c2 : Z) (s : settings) :
  is_u16 c1 -> is_u16 c2 -> c1 <= c2 ->
  let t1 := snd (snd (read_pots gain_raw c1 s)) in
  let t2 := snd (snd (read_pots gain_raw c2 s)) in
  (5 <= t1)%Q /\ (t1 <= t2)%Q /\ (t2 <= 200)%Q
  /\ (c1 = 0 -> (t1 == 5)%Q) /\ (c2 = 65535 -> (t2 == 200)%Q).
Proof.
  intros H1 H2 Hle t1 t2. subst t1 t2. rewrite !read_pots_time_ms.
  pose proof (normalized_u16 c1 H1) as Hn1.
  pose proof (normalized_u16 c2 H2) as Hn2.
  pose proof (normalized_mono c1 c2 Hle) as Hm.
  set (x1 := (inject_Z c1 / 65535)%Q) in *.
  set (x2 := (inject_Z c2 / 65535)%Q) in *.
  split; [lra |]. split; [lra |]. split; [lra |].
  split; intros ->; reflexivity.
Qed.

Lemma read_pots_time_constant_witness :
  (snd (snd (read_pots 0 1000 initial_settings))
   <= snd (snd (read_pots 0 40000 initial_settings)))%Q.
Proof.
  refine (proj1 (proj2 (read_pots_time_constant 0 1000 40000 initial_settings
                          _ _ _))); unfold is_u16; lia.
Defined.

(** The reciprocal is antitone on positive floats. *)
Lemma reciprocal_antitone (x y : Q) :
  (0 < x)%Q -> (x <= y)%Q -> (1 / y <= 1 / x)%Q.
Proof.
  intros Hx Hxy.
  destruct (Qinv_spec x Hx) as [Hi Hxi].
  destruct (Qinv_spec y) as [Hj Hyj]; [lra |].
  unfold Qdiv. rewrite !Qmult_1_l.
  set (i := (/ x)%Q) in *. set (j := (/ y)%Q) in *.
  assert (Hp : (0 <= i * j * (y - x))%Q)
    by (repeat apply Qmult_le_0_compat; lra).
  assert (Hq : (i * j * (y - x) == i * (y * j) - j * (x * i))%Q) by ring.
  rewrite Hq, Hxi, Hyj in Hp. lra.
Qed.

(** [X2] For 16-bit compression readings [read_pots] sets the attack and
    the release coefficient to the same value, the reciprocal of the number
    of samples in the time constant (16 samples per millisecond): it lies in
    [1/3200, 1/80], and a higher reading never gives a larger coefficient. *)
Theorem read_pots_coefficient (gain_raw c1 c2 : Z) (s : settings) :
  is_u16 c1 -> is_u16 c2 -> c1 <= c2 ->
  let s1 := fst (read_pots gain_raw c1 s) in
  let s2 := fst (read_pots gain_raw c2 s) in
  let t1 := snd (snd (read_pots gain_raw c1 s)) in
  attack_coeff s1 = release_coeff s1
  /\ (attack_coeff s1 * (16 * t1) == 1)%Q
  /\ (1 # 3200 <= attack_coeff s2)%Q
  /\ (attack_coeff s2 <= attack_coeff s1)%Q
  /\ (attack_coeff s1 <= 1 # 80)%Q.
Proof.
  intros H1 H2 Hle s1 s2 t1. subst s1 s2 t1.
  rewrite (read_pots_u16 gain_raw c1 s H1), (read_pots_u16 gain_raw c2 s H2).
  rewrite read_pots_time_ms. cbn [attack_coeff release_coeff].
  pose proof (normalized_u16 c1 H1) as Hn1.
  pose proof (normalized_u16 c2 H2) as Hn2.
  pose proof (normalized_mono c1 c2 Hle) as Hm.
  set (x1 := (inject_Z c1 / 65535)%Q) in *.
  set (x2 := (inject_Z c2 / 65535)%Q) in *.
  assert (E1 : ((5 + x1 * 195) / 1000 * 16000 == 80 + 3120 * x1)%Q) by field.
  assert (E2 : ((5 + x2 * 195) / 1000 * 16000 == 80 + 3120 * x2)%Q) by field.
  split; [reflexivity |].
  split; [field; lra |].
  rewrite E1, E2.
  split.
  { change (1 # 3200)%Q with (1 / 3200)%Q.
    apply reciprocal_antitone; lra. }
  split; [apply reciprocal_antitone; lra |].
  change (1 # 80)%Q with (1 / 80)%Q.
  apply reciprocal_antitone; lra.
Qed.

Lemma read_pots_coefficient_witness :
  (attack_coeff (fst (read_pots 0 40000 initial_settings))
   <= attack_coeff (fst (read_pots 0 1000 initial_settings)))%Q.
Proof.
  refine (proj1 (proj2 (proj2 (proj2
            (read_pots_coefficient 0 1000 40000 initial_settings _ _ _)))));
    unfold is_u16; lia.
Defined.

(** [X3] The controls are absolute: for a 16-bit compression reading the
    settings [read_pots] produces do not depend on the settings before. *)
Theorem read_pots_forgets (gain_raw compress_raw : Z) (s s' : settings) :
  is_u16 compress_raw ->
  read_pots gain_raw compress_raw s = read_pots gain_raw compress_raw s'.
Proof.
  intros Hu.
  pose proof (read_pots_u16 gain_raw compress_raw s Hu) as H1.
  pose proof (read_pots_u16 gain_raw compress_raw s' Hu) as H2.
  destruct (read_pots gain_raw compress_raw s) as [a [g t]] eqn:Ea.
  destruct (read_pots gain_raw compress_raw s') as [a' [g' t']] eqn:Ea'.
  simpl in H1, H2.
  assert (Hg : g = g').
  { pose proof (proj2 (read_pots_gain_formula gain_raw compress_raw s)) as G1.
    pose proof (proj2 (read_pots_gain_formula gain_raw compress_raw s')) as G2.
    rewrite Ea in G1. rewrite Ea' in G2. simpl in G1, G2.
    rewrite G1, G2, H1, H2. reflexivity. }
  assert (Ht : t = t').
  { pose proof (read_pots_time_ms gain_raw compress_raw s) as T1.
    pose proof (read_pots_time_ms gain_raw compress_raw s') as T2.
    rewrite Ea in T1. rewrite Ea' in T2. simpl in T1, T2. congruence. }
  congruence.
Qed.

Lemma read_pots_forgets_witness :
  read_pots 65535 0 initial_settings
  = read_pots 65535 0 (fst (read_pots 0 65535 initial_settings)).
Proof.
  apply read_pots_forgets. unfold is_u16. lia.
Defined.

(** [X4] The gain is strictly increasing in the gain reading, in equal
    steps of (MAX_GAIN - MIN_GAIN) / 65535, and does not depend on the
    compression reading. *)
Theorem read_pots_gain_steps (g1 g2 c c' : Z) (s s' : settings) :
  g1 < g2 ->
  let gain g := current_gain (fst (read_pots g c s)) in
  (gain g1 < gain g2)%Q
  /\ (gain (g1 + 1)%Z - gain g1 == (MAX_GAIN - MIN_GAIN) / 65535)%Q
  /\ current_gain (fst (read_pots g1 c' s')) = gain g1.
Proof.
  intros Hlt gain. subst gain. cbv beta.
  destruct (read_pots_gain_formula g1 c s) as [-> _].
  destruct (read_pots_gain_formula g2 c s) as [-> _].
  destruct (read_pots_gain_formula (g1 + 1) c s) as [-> _].
  destruct (read_pots_gain_formula g1 c' s') as [-> _].
  unfold MIN_GAIN, MAX_GAIN.
  split.
  - assert (H : (inject_Z g1 / 65535 < inject_Z g2 / 65535)%Q)
      by (unfold Qdiv, Qlt, Qmult, Qinv, inject_Z; simpl; lia).
    set (x1 := (inject_Z g1 / 65535)%Q) in *.
    set (x2 := (inject_Z g2 / 65535)%Q) in *. lra.
  - split; [| reflexivity].
    rewrite inject_Z_plus. field.
Qed.

Lemma read_pots_gain_steps_witness :
  (current_gain (fst (read_pots 100 0 initial_settings))
   < current_gain (fst (read_pots 101 0 initial_settings)))%Q.
Proof.
  refine (proj1 (read_pots_gain_steps 100 101 0 0
                   initial_settings initial_settings _)). lia.
Defined.

(** * Further properties of the compressor *)

(** [X5] Steady state: when the magnitude of the sample equals the
    envelope, the envelope is left where it is, whatever the
    coefficients. *)
Theorem envelope_steady_state (p : policy) (s : settings)
    (sample : Z) (envelope gain : Q) :
  (inject_Z (Z.abs sample) == envelope)%Q ->
  (snd (compress_sample p s sample envelope gain) == envelope)%Q.
Proof.
  intros Heq. unfold compress_sample; cbn [snd].
  unfold update_envelope, Float.of_int.
  destruct (Float.ltb envelope (inject_Z (Z.abs sample))); rewrite Heq; ring.
Qed.

Lemma envelope_steady_state_witness :
  (snd (compress_sample source_policy initial_settings (-300) 300 1) == 300)%Q.
Proof.
  apply envelope_steady_state. reflexivity.
Defined.

(** [X6] The follower moves the envelope toward the magnitude of the sample
    and never past it (coefficients in (0, 1]); when attack and release
    coefficients are equal, the distance to the magnitude shrinks by exactly
    the factor 1 - coefficient. *)
Theorem envelope_tracks_magnitude (p : policy) (s : settings)
    (sample : Z) (envelope gain : Q) :
  coeff_ok s ->
  let a := inject_Z (Z.abs sample) in
  let e' := snd (compress_sample p s sample envelope gain) in
  ((envelope <= a)%Q -> (envelope <= e' <= a)%Q)
  /\ ((a <= envelope)%Q -> (a <= e' <= envelope)%Q)
  /\ ((attack_coeff s == release_coeff s)%Q ->
      (a - e' == (1 - attack_coeff s) * (a - envelope))%Q).
Proof.
  intros [[Ha0 Ha1] [Hr0 Hr1]] a e'. subst e'.
  unfold compress_sample; cbn [snd]. unfold update_envelope, Float.of_int.
  fold a.
  assert (Hmean : forall c : Q, (0 <= c <= 1)%Q ->
            ((envelope <= a)%Q -> (envelope <= envelope + c * (a - envelope) <= a)%Q)
            /\ ((a <= envelope)%Q -> (a <= envelope + c * (a - envelope) <= envelope)%Q)).
  { intros c Hc. split; intros Hle.
    - assert (H1 : (0 <= c * (a - envelope))%Q) by (apply Qmult_le_0_compat; lra).
      assert (H2 : (0 <= (1 - c) * (a - envelope))%Q) by (apply Qmult_le_0_compat; lra).
      split; nra.
    - assert (H1 : (0 <= c * (envelope - a))%Q) by (apply Qmult_le_0_compat; lra).
      assert (H2 : (0 <= (1 - c) * (envelope - a))%Q) by (apply Qmult_le_0_compat; lra).
      split; nra. }
  destruct (Float.ltb envelope a).
  - destruct (Hmean (attack_coeff s)) as [Hup Hdown]; [lra |].
    split; [exact Hup |]. split; [exact Hdown |]. intros _. ring.
  - destruct (Hmean (release_coeff s)) as [Hup Hdown]; [lra |].
    split; [exact Hup |]. split; [exact Hdown |].
    intros Heq. rewrite Heq. ring.
Qed.

Lemma envelope_tracks_magnitude_witness :
  (0 <= snd (compress_sample source_policy initial_settings 700 0 1) <= 700)%Q.
Proof.
  refine (proj1 (envelope_tracks_magnitude source_policy initial_settings
                   700 0 1 initial_settings_ok) _). discriminate.
Defined.

(** Truncation toward zero keeps the sign and does not grow the value. *)
Lemma to_int_nonneg (q : Q) :
  (0 <= q)%Q -> 0 <= Float.to_int q /\ (inject_Z (Float.to_int q) <= q)%Q.
Proof.
  destruct q as [n d]. unfold Float.to_int, Qle, inject_Z; simpl.
  rewrite Z.mul_1_r. intros Hn.
  pose proof (Z.quot_pos n (Z.pos d) Hn ltac:(lia)).
  pose proof (Z.mul_quot_le n (Z.pos d) Hn ltac:(lia)). lia.
Qed.

Lemma to_int_opp (q : Q) : Float.to_int (- q) = - Float.to_int q.
Proof.
  destruct q as [n d]. unfold Float.to_int; simpl.
  apply Z.quot_opp_l. discriminate.
Qed.

Lemma clip_opp (output : Z) : clip (- output) = - clip output.
Proof.
  unfold clip.
  destruct (Z.ltb_spec max_val output);
    destruct (Z.ltb_spec output (- max_val));
    destruct (Z.ltb_spec max_val (- output));
    destruct (Z.ltb_spec (- output) (- max_val));
    unfold max_val in *; lia.
Qed.

Lemma clip_nonneg (output : Z) : 0 <= output -> 0 <= clip output <= output.
Proof.
  intros H. unfold clip.
  destruct (Z.ltb_spec max_val output);
    destruct (Z.ltb_spec output (- max_val)); unfold max_val in *; lia.
Qed.

Lemma compress_sample_opp (p : policy) (s : settings)
    (sample : Z) (envelope gain : Q) :
  compress_sample p s (- sample) envelope gain
  = (- fst (compress_sample p s sample envelope gain),
     snd (compress_sample p s sample envelope gain)).
Proof.
  unfold compress_sample; cbn [fst snd]. rewrite Z.abs_opp. f_equal.
  rewrite <- clip_opp. f_equal.
  set (tg := (gain * comp_gain p _)%Q).
  destruct tg as [n d]. unfold Float.to_int, Float.of_int; simpl.
  rewrite Z.mul_opp_l. apply Z.quot_opp_l. discriminate.
Qed.

(** [X7] The compressor is odd in the sample: negating the sample negates
    the output and leaves the new envelope the same. *)
Theorem compress_sample_odd (p : policy) (s : settings)
    (sample : Z) (envelope gain : Q) :
  fst (compress_sample p s (- sample) envelope gain)
  = - fst (compress_sample p s sample envelope gain)
  /\ snd (compress_sample p s (- sample) envelope gain)
     = snd (compress_sample p s sample envelope gain).
Proof. rewrite compress_sample_opp. split; reflexivity. Qed.

(** With the threshold and ratio of the source the gain reduction factor is
    in (0, 1] for every envelope. *)
Lemma comp_gain_unit (e : Q) :
  (0 < comp_gain source_policy e <= 1)%Q.
Proof.
  destruct (Qlt_le_dec 500000 e) as [H | H].
  - destruct (comp_gain_range e H). split; lra.
  - rewrite (comp_gain_below e H). split; [reflexivity | discriminate].
Qed.

Lemma compress_sample_nonneg (s : settings) (sample : Z) (envelope gain : Q) :
  (0 <= gain)%Q -> 0 <= sample ->
  let output := fst (compress_sample source_policy s sample envelope gain) in
  0 <= output /\ (inject_Z output <= inject_Z sample * gain)%Q.
Proof.
  intros Hg Hs output. subst output. unfold compress_sample; cbn [fst].
  set (e' := update_envelope s (Z.abs sample) envelope).
  destruct (comp_gain_unit e') as [Hc0 Hc1].
  set (cg := comp_gain source_policy e') in *.
  assert (Hx : (0 <= inject_Z sample)%Q) by (unfold Qle; simpl; lia).
  unfold Float.of_int. set (x := inject_Z sample) in *.
  assert (Htg : (0 <= gain * cg)%Q) by (apply Qmult_le_0_compat; lra).
  assert (Hq : (0 <= x * (gain * cg))%Q) by (apply Qmult_le_0_compat; lra).
  destruct (to_int_nonneg _ Hq) as [Hi0 Hi1].
  destruct (clip_nonneg _ Hi0) as [Hk0 Hk1].
  split; [exact Hk0 |].
  apply Qle_trans with (inject_Z (Float.to_int (x * (gain * cg)))).
  - rewrite <- Zle_Qle. exact Hk1.
  - apply Qle_trans with (x * (gain * cg))%Q; [exact Hi1 |].
    assert (H : (0 <= x * gain * (1 - cg))%Q)
      by (repeat apply Qmult_le_0_compat; lra).
    nra.
Qed.


(** [X9] The compression law above the threshold: the envelope times the
    gain reduction factor is the threshold plus the excess over the
    threshold divided by the ratio. *)
Theorem comp_gain_law (p : policy) (envelope : Q) :
  0 < COMPRESS_THRESHOLD p ->
  ~ (COMPRESS_RATIO p == 0)%Q ->
  (inject_Z (COMPRESS_THRESHOLD p) < envelope)%Q ->
  (envelope * comp_gain p envelope
   == inject_Z (COMPRESS_THRESHOLD p)
      + (envelope - inject_Z (COMPRESS_THRESHOLD p)) / COMPRESS_RATIO p)%Q.
Proof.
  intros Ht Hr He. unfold comp_gain, compressed_ratio, over_threshold, Float.of_int.
  pose proof He as Hb. apply ltb_lt in Hb. rewrite Hb.
  assert (Ht' : (0 < inject_Z (COMPRESS_THRESHOLD p))%Q)
    by (unfold Qlt; simpl; lia).
  set (T := inject_Z (COMPRESS_THRESHOLD p)) in *.
  field. repeat split; try assumption.
  - intros Hz. rewrite Hz in Ht'. discriminate Ht'.
  - intros Hz. rewrite Hz in He. lra.
Qed.

Lemma comp_gain_law_witness :
  (2000000 * comp_gain source_policy 2000000
   == 500000 + (2000000 - 500000) / 3)%Q.
Proof.
  refine (comp_gain_law source_policy 2000000 _ _ _);
    [reflexivity | discriminate | reflexivity].
Defined.

(** * Further properties of the sample codec *)

(** [X10] Encoding a 24-bit sample and decoding the four bytes again gives
    the sample back; the bytes are a zero padding byte and three bytes, and
    the padding byte does not matter to [decode]. *)
Theorem decode_encode (sample : Z) :
  - 2 ^ 23 <= sample <= 2 ^ 23 - 1 ->
  exists b1 b2 b3 : Z,
    encode sample = [0; b1; b2; b3]
    /\ is_byte b1 /\ is_byte b2 /\ is_byte b3
    /\ forall b0 : Z, is_byte b0 -> decode b0 b1 b2 b3 = sample.
Proof.
  intros Hs.
  set (v := sample mod 16777216).
  assert (Hv : 0 <= v < 16777216) by (apply Z.mod_pos_bound; lia).
  assert (Hsv : sample = v - (if 8388608 <=? v then 16777216 else 0)).
  { subst v. destruct (Z.leb_spec 8388608 (sample mod 16777216)) as [H | H].
    - assert (sample < 0).
      { destruct (Z.lt_ge_cases sample 0); [assumption |].
        rewrite Z.mod_small in H by lia. lia. }
      rewrite <- (Z.mod_add sample 1 16777216) by lia.
      rewrite Z.mod_small by lia. lia.
    - assert (0 <= sample).
      { destruct (Z.lt_ge_cases sample 0); [| assumption].
        rewrite <- (Z.mod_add sample 1 16777216) in H by lia.
        rewrite Z.mod_small in H by lia. lia. }
      rewrite Z.mod_small by lia. lia. }
  set (b1 := v mod 256). set (b2 := (v / 256) mod 256). set (b3 := v / 65536).
  assert (H1 : is_byte b1) by (apply Z.mod_pos_bound; lia).
  assert (H2 : is_byte b2) by (apply Z.mod_pos_bound; lia).
  assert (H3 : is_byte b3).
  { subst b3. split; [apply Z.div_pos; lia |].
    apply Z.div_lt_upper_bound; lia. }
  assert (Hsum : v = b1 + 256 * b2 + 65536 * b3).
  { subst b1 b2 b3.
    pose proof (Z.div_mod v 256 ltac:(lia)).
    pose proof (Z.div_mod (v / 256) 256 ltac:(lia)).
    replace (v / 65536) with (v / 256 / 256)
      by (rewrite Z.div_div by lia; reflexivity).
    lia. }
  assert (Hhi : (8388608 <=? v) = (128 <=? b3)).
  { unfold is_byte in *.
    destruct (Z.leb_spec 8388608 v); destruct (Z.leb_spec 128 b3); try reflexivity; lia. }
  assert (Hval : sample
                 = b1 + 256 * b2 + 65536 * b3
                   - (if 128 <=? b3 then 16777216 else 0)).
  { rewrite <- Hhi, <- Hsum. exact Hsv. }
  exists b1, b2, b3.
  split; [rewrite Hval; now apply encode_value |].
  split; [exact H1 |]. split; [exact H2 |]. split; [exact H3 |].
  intros b0 H0. rewrite decode_value by assumption. now rewrite <- Hval.
Qed.

Lemma decode_encode_witness :
  exists b1 b2 b3 : Z,
    encode (-1234567) = [0; b1; b2; b3]
    /\ is_byte b1 /\ is_byte b2 /\ is_byte b3
    /\ forall b0 : Z, is_byte b0 -> decode b0 b1 b2 b3 = -1234567.
Proof.
  apply decode_encode. lia.
Defined.

(** [X11] [decode] reads the three high bytes only: two words decode to the
    same sample exactly when their three high bytes agree. *)
Theorem decode_high_bytes (b0 b1 b2 b3 c0 c1 c2 c3 : Z) :
  is_byte b0 -> is_byte b1 -> is_byte b2 -> is_byte b3 ->
  is_byte c0 -> is_byte c1 -> is_byte c2 -> is_byte c3 ->
  (decode b0 b1 b2 b3 = decode c0 c1 c2 c3
   <-> b1 = c1 /\ b2 = c2 /\ b3 = c3).
Proof.
  intros Hb0 Hb1 Hb2 Hb3 Hc0 Hc1 Hc2 Hc3.
  rewrite !decode_value by assumption. unfold is_byte in *.
  split.
  - destruct (Z.leb_spec 128 b3); destruct (Z.leb_spec 128 c3); intros Heq; lia.
  - intros (-> & -> & ->). reflexivity.
Qed.

Lemma decode_high_bytes_witness :
  decode 0x00 0x40 0x42 0x0F = decode 0xFF 0x40 0x42 0x0F.
Proof.
  apply (decode_high_bytes 0x00 0x40 0x42 0x0F 0xFF 0x40 0x42 0x0F);
    unfold is_byte; lia.
Defined.

(** * Further properties of the main loop *)

(** [X12] An empty read is a no-op: when the driver delivers no bytes (and
    no interrupt is pending) the loop body returns having written nothing,
    counted nothing and changed neither buffer, envelopes nor settings. *)
Theorem empty_read_is_idle (p : policy) (E : env) (m : machine) :
  irq m = None -> mic E (reads m) = [] ->
  let r := iteration p E m in
  fst r = Ok tt
  /\ snd r = set_input m (audio_buffer m) (S (reads m))
  /\ trace (snd r) = trace m
  /\ loop_count (snd r) = loop_count m
  /\ refreshes (snd r) = refreshes m.
Proof.
  intros Hirq Hmic r.
  assert (Hit : iteration p E m
                = (Ok tt, set_input m (audio_buffer m) (S (reads m)))).
  { unfold iteration.
    unfold mbind at 1, M_bind at 1. rewrite (poll_idle m Hirq).
    rewrite readinto_bind, Hmic. cbv zeta.
    rewrite take_nil. reflexivity. }
  subst r. rewrite Hit. repeat split; reflexivity.
Qed.

Lemma empty_read_is_idle_witness :
  trace (snd (iteration source_policy
                {| mic := fun _ => []; adc_gain := fun _ => 0;
                   adc_compress := fun _ => 0 |}
                (initial_machine None))) = [].
Proof.
  refine (proj1 (proj2 (proj2
    (empty_read_is_idle source_policy
       {| mic := fun _ => []; adc_gain := fun _ => 0;
          adc_compress := fun _ => 0 |}
       (initial_machine None) _ _)))); reflexivity.
Defined.

(** [X13] The program never raises an [IndexError] or a [ValueError],
    whatever the driver delivers and wherever it is interrupted or cut
    short, and its buffer keeps its [CHUNK_SIZE] bytes. *)
Theorem main_never_fails (p : policy) (E : env) (fuel : nat) (i : option nat) :
  let r := main p E fuel (initial_machine i) in
  fst r <> Raised OtherError
  /\ length (audio_buffer (snd r)) = CHUNK_SIZE.
Proof.
  intros r. subst r. rewrite main_cases.
  assert (Hinit : length (audio_buffer (initial_machine i)) = CHUNK_SIZE)
    by (cbn [audio_buffer initial_machine]; apply length_replicate).
  destruct (fits_while_true p E CHUNK_SIZE fuel (initial_machine i) Hinit)
    as [Hne Hlen].
  destruct (while_true p E fuel (initial_machine i)) as [[[] | [|] |] m1];
    cbn [fst snd] in *; try (split; [discriminate | exact Hlen]).
  exfalso. apply Hne. reflexivity.
Qed.

(** [X14] The two channels do not interact: in the processing of a frame
    the left output bytes and the left envelope depend only on the left
    word and the left envelope, and likewise on the right. *)
Theorem channels_independent (p : policy) (s : settings) (i : nat)
    (pre rest rest' : list Z)
    (l0 l1 l2 l3 r0 r1 r2 r3 x0 x1 x2 x3 : Z) (el er ex : Q) :
  length pre = (i * 8)%nat ->
  exists (left_bytes right_bytes other_bytes : list Z) (el' er' ex' : Q),
    length left_bytes = 4%nat
    /\ process_frame p s i
         (pre ++ [l0; l1; l2; l3; r0; r1; r2; r3] ++ rest, el, er)
       = Some (pre ++ (left_bytes ++ right_bytes) ++ rest, el', er')
    /\ process_frame p s i
         (pre ++ [l0; l1; l2; l3; x0; x1; x2; x3] ++ rest', el, ex)
       = Some (pre ++ (left_bytes ++ other_bytes) ++ rest', el', ex')
    /\ process_frame p s i
         (pre ++ [x0; x1; x2; x3; r0; r1; r2; r3] ++ rest', ex, er)
       = Some (pre ++ (other_bytes ++ right_bytes) ++ rest', ex', er').
Proof.
  intros Hpre.
  rewrite !process_frame_app by exact Hpre.
  destruct (compress_sample p s (decode l0 l1 l2 l3) el (current_gain s))
    as [lo el'].
  destruct (compress_sample p s (decode r0 r1 r2 r3) er (current_gain s))
    as [ro er'].
  destruct (compress_sample p s (decode x0 x1 x2 x3) ex (current_gain s))
    as [xo ex'].
  exists (encode lo), (encode ro), (encode xo), el', er', ex'.
  repeat split; reflexivity.
Qed.

Lemma channels_independent_witness :
  exists (left_bytes right_bytes other_bytes : list Z) (el' er' ex' : Q),
    length left_bytes = 4%nat
    /\ process_frame source_policy initial_settings 0
         ([] ++ [0; 64; 66; 15; 0; 0; 0; 128] ++ [], 0%Q, 0%Q)
       = Some ([] ++ (left_bytes ++ right_bytes) ++ [], el', er')
    /\ process_frame source_policy initial_settings 0
         ([] ++ [0; 64; 66; 15; 1; 2; 3; 4] ++ [9], 0%Q, 5%Q)
       = Some ([] ++ (left_bytes ++ other_bytes) ++ [9], el', ex')
    /\ process_frame source_policy initial_settings 0
         ([] ++ [1; 2; 3; 4; 0; 0; 0; 128] ++ [9], 5%Q, 0%Q)
       = Some ([] ++ (other_bytes ++ right_bytes) ++ [9], ex', er').
Proof.
  apply (channels_independent source_policy initial_settings 0 [] [] [9]).
  reflexivity.
Defined.

(** Frames and the compressor over concatenated input. *)
Lemma frames_app (k : nat) :
  forall bytes more : list Z,
    length bytes = (k * 8)%nat ->
    frames (bytes ++ more) = frames bytes ++ frames more.
Proof.
  induction k as [| k IH]; intros bytes more Hlen.
  - destruct bytes; [reflexivity | discriminate].
  - do 8 (destruct bytes as [| ? bytes]; [discriminate |]).
    cbn [app frames]. f_equal. apply IH. simpl in Hlen. lia.
Qed.

Lemma compress_frames_app (p : policy) (s : settings) (fs1 fs2 : list (Z * Z)) :
  forall el er : Q,
    compress_frames p s (fs1 ++ fs2) el er
    = let '(out1, el1, er1) := compress_frames p s fs1 el er in
      let '(out2, el2, er2) := compress_frames p s fs2 el1 er1 in
      (out1 ++ out2, el2, er2).
Proof.
  induction fs1 as [| [l r] fs1 IH]; intros el er.
  - cbn [app compress_frames].
    destruct (compress_frames p s fs2 el er) as [[out2 el2] er2]. reflexivity.
  - cbn [app compress_frames].
    destruct (compress_sample p s l el (current_gain s)) as [lo el'].
    destruct (compress_sample p s r er (current_gain s)) as [ro er'].
    rewrite IH.
    destruct (compress_frames p s fs1 el' er') as [[out1 el1] er1].
    destruct (compress_frames p s fs2 el1 er1) as [[out2 el2] er2].
    rewrite <- !app_assoc. reflexivity.
Qed.

(** Silence. *)
Lemma compress_sample_zero (p : policy) (s : settings) (envelope gain : Q) :
  fst (compress_sample p s 0 envelope gain) = 0.
Proof.
  unfold compress_sample; cbn [fst].
  set (tg := (gain * comp_gain p _)%Q). destruct tg as [n d].
  reflexivity.
Qed.

Lemma compress_frames_zero (p : policy) (s : settings) (k : nat) :
  forall el er : Q,
    fst (fst (compress_frames p s (replicate k (0, 0)) el er))
    = replicate (k * 8) 0.
Proof.
  induction k as [| k IH]; intros el er; [reflexivity |].
  cbn [replicate compress_frames].
  pose proof (compress_sample_zero p s el (current_gain s)) as Hl.
  pose proof (compress_sample_zero p s er (current_gain s)) as Hr.
  destruct (compress_sample p s 0 el (current_gain s)) as [lo el'].
  destruct (compress_sample p s 0 er (current_gain s)) as [ro er'].
  cbn [fst] in Hl, Hr. subst lo ro.
  specialize (IH el' er').
  destruct (compress_frames p s (replicate k (0, 0)) el' er') as [[out e1] e2].
  cbn [fst] in *. rewrite IH. reflexivity.
Qed.

Lemma frames_zero (k : nat) :
  frames (replicate (k * 8) 0) = replicate k (0, 0).
Proof.
  induction k as [| k IH]; [reflexivity |].
  cbn [Nat.mul Nat.add replicate frames]. rewrite IH. reflexivity.
Qed.

(** [X15] Digital silence passes unchanged: a chunk of zero bytes is written
    out as the same number of zero bytes, whatever the envelopes, the gain
    and the coefficients are. *)
Theorem silence_passes (p : policy) (E : env) (m : machine) (n : nat) :
  irq m = None ->
  mic E (reads m) = replicate n 0 ->
  (0 < n <= length (audio_buffer m))%nat ->
  trace (snd (iteration p E m)) = trace m ++ [EvWrite (replicate n 0)].
Proof.
  intros Hirq Hmic Hn.
  assert (Hlen : (0 < length (replicate n 0%Z) <= length (audio_buffer m))%nat)
    by (rewrite length_replicate; exact Hn).
  rewrite (iteration_idle p E m (replicate n 0) Hirq Hmic Hlen).
  cbv zeta. cbn [snd trace add_event set_audio].
  destruct (refresh_controls_frame E
              (set_input m (replicate n 0
                            ++ drop (length (replicate n 0)) (audio_buffer m))
                 (S (reads m)))) as (_ & _ & _ & _ & _ & Ft).
  rewrite Ft. cbn [trace set_input]. do 3 f_equal.
  rewrite length_replicate.
  pose proof (Nat.div_mod_eq n 8) as Hdm.
  assert (Hsplit : replicate n 0
                   = replicate (n / 8 * 8) 0 ++ replicate (n mod 8) (0 : Z)).
  { rewrite <- replicate_add. f_equal. lia. }
  assert (Hfr : frames (replicate n 0) = replicate (n / 8) (0, 0)).
  { rewrite Hsplit.
    rewrite (frames_app_remainder (n / 8)).
    - apply frames_zero.
    - apply length_replicate.
    - rewrite length_replicate. pose proof (Nat.mod_upper_bound n 8). lia. }
  rewrite Hfr, compress_frames_zero.
  rewrite drop_replicate, <- replicate_add. f_equal. lia.
Qed.

Lemma silence_passes_witness :
  trace (snd (iteration source_policy
                {| mic := fun _ => replicate 20 0; adc_gain := fun _ => 0;
                   adc_compress := fun _ => 0 |}
                (initial_machine None)))
  = [EvWrite (replicate 20 0)].
Proof.
  refine (silence_passes source_policy
            {| mic := fun _ => replicate 20 0; adc_gain := fun _ => 0;
               adc_compress := fun _ => 0 |}
            (initial_machine None) 20 _ _ _);
    [reflexivity | reflexivity | vm_compute; lia].
Defined.

Lemma refresh_controls_below (E : env) (m : machine) :
  loop_count m + 1 < POT_READ_INTERVAL ->
  refresh_controls E m
  = (Ok tt, set_controls m (controls m) (loop_count m + 1) (refreshes m)).
Proof.
  intros H. unfold refresh_controls.
  destruct (Z.leb_spec POT_READ_INTERVAL (loop_count m + 1)); [lia | reflexivity].
Qed.

(** [X16] Chunk boundaries are transparent: two consecutive reads, the
    first a whole number of frames, give two writes whose concatenation is
    the compressor's output for the frames of the concatenated input
    (followed by the trailing bytes of the second read), with the envelopes
    carried from the first chunk into the second.  (No control refresh
    falls between the two.) *)
Theorem chunking_transparent (p : policy) (E : env) (m : machine)
    (d1 d2 : list Z) (k1 : nat) :
  irq m = None ->
  mic E (reads m) = d1 -> mic E (S (reads m)) = d2 ->
  length d1 = (k1 * 8)%nat ->
  (0 < length d1 <= length (audio_buffer m))%nat ->
  (0 < length d2 <= length (audio_buffer m))%nat ->
  loop_count m + 2 < POT_READ_INTERVAL ->
  let m' := snd ((iteration p E;; iteration p E) m) in
  let r := compress_frames p (controls m) (frames (d1 ++ d2))
             (envelope_left m) (envelope_right m) in
  exists w1 w2 : list Z,
    trace m' = trace m ++ [EvWrite w1; EvWrite w2]
    /\ length w1 = length d1
    /\ w1 ++ w2 = fst (fst r) ++ drop (length d2 / 8 * 8) d2
    /\ envelope_left m' = snd (fst r)
    /\ envelope_right m' = snd r.
Proof.
  intros Hirq Hd1 Hd2 Hk1 Hl1 Hl2 Hcount m' r.
  (* first chunk *)
  pose proof (iteration_idle p E m d1 Hirq Hd1 Hl1) as H1. cbv zeta in H1.
  set (mi1 := set_input m (d1 ++ drop (length d1) (audio_buffer m)) (S (reads m))) in *.
  rewrite (refresh_controls_below E mi1) in H1 by (cbn [loop_count mi1 set_input]; lia).
  cbn [snd controls set_controls set_input mi1] in H1.
  assert (Hrem1 : drop (length d1 / 8 * 8) d1 = []).
  { apply drop_ge. rewrite Hk1, Nat.div_mul by lia. lia. }
  rewrite Hrem1 in H1. cbn [app] in H1. rewrite app_nil_r in H1.
  set (r1 := compress_frames p (controls m) (frames d1)
               (envelope_left m) (envelope_right m)) in *.
  assert (Hout1 : length (fst (fst r1)) = length d1).
  { subst r1. rewrite compress_frames_length, (frames_length k1 d1 Hk1). lia. }
  set (ma := add_event
               (set_audio (set_controls mi1 (controls m) (loop_count m + 1)
                             (refreshes m))
                  (fst (fst r1) ++ drop (length d1) (audio_buffer m))
                  (snd (fst r1)) (snd r1))
               (EvWrite (fst (fst r1)))) in *.
  (* second chunk *)
  assert (Hlen_a : length (audio_buffer ma) = length (audio_buffer m)).
  { subst ma. cbn [audio_buffer add_event set_audio].
    rewrite length_app, length_drop, Hout1. lia. }
  assert (Hl2a : (0 < length d2 <= length (audio_buffer ma))%nat)
    by (rewrite Hlen_a; exact Hl2).
  pose proof (iteration_idle p E ma d2 Hirq Hd2 Hl2a) as H2. cbv zeta in H2.
  set (mi2 := set_input ma (d2 ++ drop (length d2) (audio_buffer ma)) (S (reads ma))) in *.
  rewrite (refresh_controls_below E mi2) in H2
    by (cbn [loop_count mi2 ma set_input add_event set_audio set_controls]; lia).
  cbn [snd controls set_controls set_input mi2 ma add_event set_audio
       envelope_left envelope_right] in H2.
  set (r2 := compress_frames p (controls m) (frames d2)
               (snd (fst r1)) (snd r1)) in *.
  (* both *)
  assert (Hboth : (iteration p E;; iteration p E) m = iteration p E ma).
  { unfold mbind, M_bind. rewrite H1. reflexivity. }
  assert (Hr : r = (fst (fst r1) ++ fst (fst r2), snd (fst r2), snd r2)).
  { subst r. rewrite (frames_app k1 d1 d2 Hk1), compress_frames_app.
    fold r1. destruct r1 as [[o1 a1] b1]. cbn [fst snd] in *.
    fold r2. destruct r2 as [[o2 a2] b2]. reflexivity. }
  subst m'. rewrite Hboth, H2, Hr. cbn [fst snd].
  exists (fst (fst r1)), (fst (fst r2) ++ drop (length d2 / 8 * 8) d2).
  subst mi2 ma mi1.
  cbn [trace add_event set_audio set_controls set_input].
  split; [rewrite <- app_assoc; reflexivity |].
  split; [exact Hout1 |].
  split; [rewrite app_assoc; reflexivity |].
  split; reflexivity.
Qed.

Lemma chunking_transparent_witness :
  let E := {| mic := fun k => match k with
                              | O => [0; 64; 66; 15; 0; 0; 0; 128]
                              | _ => demo_chunk
                              end;
              adc_gain := fun _ => 0; adc_compress := fun _ => 0 |} in
  exists w1 w2 : list Z,
    trace (snd ((iteration source_policy E;; iteration source_policy E)
                  (initial_machine None)))
    = [EvWrite w1; EvWrite w2]
    /\ length w1 = 8%nat.
Proof.
  intros E.
  destruct (chunking_transparent source_policy E (initial_machine None)
              [0; 64; 66; 15; 0; 0; 0; 128] demo_chunk 1)
    as (w1 & w2 & Ht & Hl & _);
    try reflexivity; try (vm_compute; lia).
  exists w1, w2. split; [exact Ht | exact Hl].
Defined.

(** ** Triples *)

Lemma triple_ret {A : Type} (P : machine -> Prop) (Q : A -> machine -> Prop)
    (X : machine -> Prop) (a : A) :
  (forall m, P m -> Q a m) -> triple P (mret a) Q X.
Proof. intros H m Hm. apply H, Hm. Qed.

Lemma triple_bind {A B : Type} (P : machine -> Prop) (R : A -> machine -> Prop)
    (Q : B -> machine -> Prop) (X : machine -> Prop) (c : M A) (f : A -> M B) :
  triple P c R X -> (forall a, triple (R a) (f a) Q X) ->
  triple P (c ≫= f) Q X.
Proof.
  intros Hc Hf m Hm. specialize (Hc m Hm). unfold mbind, M_bind.
  destruct (c m) as [[a | e |] m1]; [apply Hf, Hc | exact Hc | exact Hc].
Qed.

Lemma triple_weaken {A : Type} (P P' : machine -> Prop)
    (Q Q' : A -> machine -> Prop) (X X' : machine -> Prop) (c : M A) :
  triple P c Q X ->
  (forall m, P' m -> P m) -> (forall a m, Q a m -> Q' a m) ->
  (forall m, X m -> X' m) ->
  triple P' c Q' X'.
Proof.
  intros Hc HP HQ HX m Hm. specialize (Hc m (HP m Hm)).
  destruct (c m) as [[a | e |] m1]; auto.
Qed.

(** A fact that does not mention the machine can be taken out of the
    precondition. *)
Lemma triple_pure {A : Type} (phi : Prop) (P : machine -> Prop)
    (Q : A -> machine -> Prop) (X : machine -> Prop) (c : M A) :
  (phi -> triple P c Q X) -> triple (fun m => P m /\ phi) c Q X.
Proof. intros H m [Hm Hphi]. exact (H Hphi m Hm). Qed.

Lemma triple_for_range (I X : machine -> Prop) (body : nat -> M unit)
    (count : nat) :
  (forall i, triple I (body i) (fun _ => I) X) ->
  forall start, triple I (for_range body start count) (fun _ => I) X.
Proof.
  intros Hbody. induction count as [| count IH]; intros start.
  - apply triple_ret. auto.
  - cbn [for_range]. apply (triple_bind _ (fun _ => I)); [apply Hbody |].
    intros _. apply IH.
Qed.

Lemma triple_while_true (I X : machine -> Prop) (p : policy) (E : env) :
  triple I (iteration p E) (fun _ => I) X -> (forall m, I m -> X m) ->
  forall fuel, triple I (while_true p E fuel) (fun _ => X) X.
Proof.
  intros Hit HIX. induction fuel as [| fuel IH].
  - intros m Hm. apply HIX, Hm.
  - cbn [while_true]. apply (triple_bind _ (fun _ => I)); [exact Hit |].
    intros _. exact IH.
Qed.

(** The whole program: what holds at every exit of the loop and is kept by
    appending an event that is not a write holds when the program is
    over. *)
Lemma triple_main (I X : machine -> Prop) (p : policy) (E : env) (fuel : nat) :
  triple I (iteration p E) (fun _ => I) X -> (forall m, I m -> X m) ->
  (forall m e, is_write e = false -> X m -> X (add_event m e)) ->
  forall m, I m -> X (snd (main p E fuel m)).
Proof.
  intros Hit HIX Hev m Hm. rewrite main_cases.
  pose proof (triple_while_true I X p E Hit HIX fuel m Hm) as Hloop.
  assert (Hfin : forall m1, X m1 -> X (finalized m1))
    by (intros m1 H1; unfold finalized; repeat apply Hev; auto).
  assert (Hhan : forall m1, X m1 -> X (handled m1))
    by (intros m1 H1; unfold handled; repeat apply Hev; auto).
  destruct (while_true p E fuel m) as [[[] | [|] |] m1]; cbn [snd]; auto.
Qed.

(** ** The refresh cadence *)

Lemma cadence_exits (x y : Z) (m : machine) :
  0 <= x -> 0 <= y <= 1 -> cadence x y m -> cadence_exit m.
Proof. unfold cadence, cadence_exit. intros Hx Hy (H1 & H2 & H3). lia. Qed.

Lemma count_add_event (f : event -> bool) (m : machine) (e : event) :
  count f (trace (add_event m e))
  = (count f (trace m) + (if f e then 1 else 0))%nat.
Proof.
  cbn [trace add_event]. rewrite count_app. unfold count; simpl.
  destruct (f e); reflexivity.
Qed.

Section Cadence.
Variable p : policy.
Variable E : env.

Lemma cadence_poll (x y : Z) :
  triple (cadence x y) poll (fun _ => cadence x y) (cadence x y).
Proof.
  intros m Hm. unfold poll. destruct (irq m) as [[| n] |]; exact Hm.
Qed.

Lemma cadence_readinto :
  triple (cadence 0 0) (readinto E) (fun _ => cadence 1 0) cadence_exit.
Proof.
  intros m (H1 & H2 & H3). unfold readinto, cadence.
  cbn [loop_count refreshes reads trace set_input]. lia.
Qed.

Lemma cadence_refresh_controls :
  triple (cadence 1 0) (refresh_controls E) (fun _ => cadence 0 1) cadence_exit.
Proof.
  intros m (H1 & H2 & H3). unfold refresh_controls, cadence.
  destruct (Z.leb_spec POT_READ_INTERVAL (loop_count m + 1)).
  - destruct (read_pots _ _ _) as [s' ?].
    cbn [loop_count refreshes reads trace set_controls].
    unfold POT_READ_INTERVAL in *. lia.
  - cbn [loop_count refreshes reads trace set_controls]. lia.
Qed.

Lemma cadence_frame_step (i : nat) :
  triple (cadence 0 1) (frame_step p i) (fun _ => cadence 0 1) (cadence 0 1).
Proof.
  intros m Hm. unfold frame_step.
  destruct (process_frame p (controls m) i _) as [[[buf el] er] |]; exact Hm.
Qed.

Lemma cadence_write_out (n : Z) :
  triple (cadence 0 1) (write_out n) (fun _ => cadence 0 0) cadence_exit.
Proof.
  intros m (H1 & H2 & H3). unfold write_out, get, emit, mbind, M_bind.
  unfold cadence. rewrite count_add_event.
  cbn [loop_count refreshes reads add_event is_write]. lia.
Qed.

Lemma cadence_iteration :
  triple (cadence 0 0) (iteration p E) (fun _ => cadence 0 0) cadence_exit.
Proof.
  assert (Hex : forall x y m, 0 <= x -> 0 <= y <= 1 ->
                              cadence x y m -> cadence_exit m)
    by (intros; eapply cadence_exits; eauto).
  unfold iteration.
  apply (triple_bind _ (fun _ => cadence 0 0)).
  { eapply triple_weaken; [apply (cadence_poll 0 0) | auto | auto |].
    intros m; apply Hex; lia. }
  intros _. apply (triple_bind _ (fun _ => cadence 1 0)); [apply cadence_readinto |].
  intros num_read. destruct (0 <? num_read).
  - apply (triple_bind _ (fun _ => cadence 1 0)).
    { eapply triple_weaken; [apply (cadence_poll 1 0) | auto | auto |].
      intros m; apply Hex; lia. }
    intros _.
    apply (triple_bind _ (fun _ => cadence 0 1)); [apply cadence_refresh_controls |].
    intros _. cbv zeta.
    apply (triple_bind _ (fun _ => cadence 0 1)).
    { apply triple_for_range. intros i.
      apply (triple_bind _ (fun _ => cadence 0 1)).
      - eapply triple_weaken; [apply (cadence_poll 0 1) | auto | auto |].
        intros m; apply Hex; lia.
      - intros _. eapply triple_weaken; [apply cadence_frame_step | auto | auto |].
        intros m; apply Hex; lia. }
    intros _.
    apply (triple_bind _ (fun _ => cadence 0 1)).
    { eapply triple_weaken; [apply (cadence_poll 0 1) | auto | auto |].
      intros m; apply Hex; lia. }
    intros _. apply cadence_write_out.
  - apply triple_ret. unfold cadence. intros m (H1 & H2 & H3). lia.
Qed.

End Cadence.

(** Without an interrupt the loop body runs to its end. *)

Lemma quiet_ret {A : Type} (a : A) : quiet (mret a).
Proof. intros m Hm. repeat split; [exact Hm | discriminate | discriminate]. Qed.

Lemma quiet_bind {A B : Type} (c : M A) (f : A -> M B) :
  quiet c -> (forall a, quiet (f a)) -> quiet (c ≫= f).
Proof.
  intros Hc Hf m Hm. destruct (Hc m Hm) as (Hi & Hk & Ho).
  unfold mbind, M_bind. destruct (c m) as [[a | e |] m1]; cbn [fst snd] in *.
  - apply Hf, Hi.
  - repeat split; [exact Hi | | discriminate].
    intros Heq. apply Hk. inversion Heq. reflexivity.
  - contradiction.
Qed.

Lemma quiet_for_range (body : nat -> M unit) (count : nat) :
  (forall i, quiet (body i)) -> forall start, quiet (for_range body start count).
Proof.
  intros Hbody. induction count as [| count IH]; intros start.
  - apply quiet_ret.
  - cbn [for_range]. apply quiet_bind; [apply Hbody | intros _; apply IH].
Qed.

Lemma quiet_poll : quiet poll.
Proof.
  intros m Hm. rewrite (poll_idle m Hm).
  repeat split; [exact Hm | discriminate | discriminate].
Qed.

Lemma quiet_iteration (p : policy) (E : env) : quiet (iteration p E).
Proof.
  unfold iteration.
  apply quiet_bind; [exact quiet_poll | intros _].
  apply quiet_bind.
  { intros m Hm. repeat split; [exact Hm | discriminate | discriminate]. }
  intros num_read. destruct (0 <? num_read); [| apply quiet_ret].
  apply quiet_bind; [exact quiet_poll | intros _].
  apply quiet_bind.
  { intros m Hm. rewrite refresh_controls_returns.
    destruct (refresh_controls_frame E m) as (_ & _ & _ & _ & Hi & _).
    cbn [fst snd]. repeat split; [now rewrite Hi | discriminate | discriminate]. }
  intros _. apply quiet_bind.
  - apply quiet_for_range. intros i.
    apply quiet_bind; [exact quiet_poll | intros _].
    intros m Hm. unfold frame_step.
    destruct (process_frame p (controls m) i _) as [[[buf el] er] |];
      repeat split; try exact Hm; discriminate.
  - intros _. apply quiet_bind; [exact quiet_poll | intros _].
    intros m Hm. repeat split; [exact Hm | discriminate | discriminate].
Qed.

(** Complete passes of the loop keep the bookkeeping exact. *)
Lemma cadence_passes (p : policy) (E : env) (fuel : nat) :
  forall m, irq m = None -> length (audio_buffer m) = CHUNK_SIZE ->
    cadence 0 0 m ->
    fst (while_true p E fuel m) = OutOfFuel
    /\ cadence 0 0 (snd (while_true p E fuel m)).
Proof.
  induction fuel as [| fuel IH]; intros m Hirq Hlen Hm.
  - split; [reflexivity | exact Hm].
  - cbn [while_true]. unfold mbind, M_bind.
    destruct (quiet_iteration p E m Hirq) as (Hi & Hk & Ho).
    destruct (fits_iteration p E CHUNK_SIZE m Hlen) as [He Hl].
    pose proof (cadence_iteration p E m Hm) as Hc.
    destruct (iteration p E m) as [[[] | [|] |] m1]; cbn [fst snd] in *;
      try contradiction.
    apply IH; assumption.
Qed.

(** [X17] The control refresh keeps its cadence.  After any number of
    complete passes of the loop body (no interrupt), [loop_count] is the
    number of chunks written modulo [POT_READ_INTERVAL] = 20 and
    [read_pots] has been called once for every 20 chunks written; the
    chunks written are at most the reads made. *)
Theorem refresh_cadence (p : policy) (E : env) (passes : nat) :
  let r := while_true p E passes (initial_machine None) in
  let m := snd r in
  let writes := Z.of_nat (count is_write (trace m)) in
  fst r = OutOfFuel
  /\ loop_count m = writes mod 20
  /\ Z.of_nat (refreshes m) = writes / 20
  /\ writes <= Z.of_nat (reads m).
Proof.
  intros r m writes.
  destruct (cadence_passes p E passes (initial_machine None)) as [Hr Hc].
  - reflexivity.
  - apply length_replicate.
  - unfold cadence. cbn. unfold POT_READ_INTERVAL. lia.
  - fold r in Hr, Hc. fold m in Hc. split; [exact Hr|].
    unfold cadence, POT_READ_INTERVAL in Hc. fold writes in Hc.
    destruct Hc as (H1 & H2 & H3).
    assert (Hw : writes = 20 * Z.of_nat (refreshes m) + loop_count m) by lia.
    split; [|split].
    + apply (Z.mod_unique_pos writes 20 (Z.of_nat (refreshes m))); lia.
    + apply (Z.div_unique_pos writes 20 _ (loop_count m)); lia.
    + lia.
Qed.

(** ** What is written *)

Lemma setitem_bytes (buf buf' : list Z) (idx : nat) (v : Z) :
  Forall is_byte buf -> setitem buf idx v = Some buf' ->
  Forall is_byte buf' /\ length buf' = length buf.
Proof.
  intros Hb. unfold setitem.
  destruct (decide (idx < length buf)%nat); [| discriminate].
  destruct (Z.leb_spec 0 v); [| discriminate].
  destruct (Z.ltb_spec v 256); [| discriminate]. simpl.
  intros Heq. inversion Heq; subst.
  split; [| apply length_insert].
  apply Forall_insert; [exact Hb | split; assumption].
Qed.

Lemma store_bytes (vs : list Z) :
  forall (buf buf' : list Z) (idx : nat),
    Forall is_byte buf -> store buf idx vs = Some buf' ->
    Forall is_byte buf' /\ length buf' = length buf.
Proof.
  induction vs as [| v vs IH]; intros buf buf' idx Hb.
  - simpl. intros Heq. inversion Heq; subst. auto.
  - cbn [store]. destruct (setitem buf idx v) as [buf1 |] eqn:Hset;
      cbn [mbind option_bind]; [| discriminate].
    destruct (setitem_bytes buf buf1 idx v Hb Hset) as [Hb1 Hl1].
    intros Hst. destruct (IH buf1 buf' (S idx) Hb1 Hst) as [Hb' Hl'].
    split; [exact Hb' | congruence].
Qed.

Lemma process_frame_bytes (p : policy) (s : settings) (i : nat)
    (buf buf' : list Z) (el er el' er' : Q) :
  Forall is_byte buf ->
  process_frame p s i (buf, el, er) = Some (buf', el', er') ->
  Forall is_byte buf' /\ length buf' = length buf.
Proof.
  intros Hb. unfold process_frame.
  do 8 (match goal with
        | |- (?o ≫= _) = _ -> _ =>
            destruct o as [? |]; cbn [mbind option_bind]; [| discriminate]
        end).
  destruct (compress_sample p s _ el _) as [lo el1].
  destruct (compress_sample p s _ er _) as [ro er1].
  destruct (store buf (i * 8) (encode lo ++ encode ro)) as [buf1 |] eqn:Hst;
    cbn [mbind option_bind]; [| discriminate].
  intros Heq. inversion Heq; subst.
  exact (store_bytes _ _ _ _ Hb Hst).
Qed.

Section Writes.
Variable p : policy.
Variable E : env.
Hypothesis HE : env_ok E.

Lemma writes_ok_poll :
  triple writes_ok poll (fun _ => writes_ok) writes_ok.
Proof.
  intros m Hm. unfold poll. destruct (irq m) as [[| n] |]; exact Hm.
Qed.

Lemma writes_ok_readinto :
  triple writes_ok (readinto E)
    (fun n m => writes_ok m /\ n <= Z.of_nat CHUNK_SIZE) writes_ok.
Proof.
  intros m (Hb & Hl & Hw). unfold readinto.
  destruct HE as (Hmic & _).
  set (data := take (length (audio_buffer m)) (mic E (reads m))).
  assert (Hd : (length data <= CHUNK_SIZE)%nat)
    by (subst data; rewrite length_take; lia).
  split; [| lia].
  split; [| split; [| exact Hw]]; cbn [audio_buffer set_input].
  - apply Forall_app. split.
    + subst data. apply Forall_take, Hmic.
    + apply Forall_drop, Hb.
  - rewrite length_app, length_drop. lia.
Qed.

Lemma writes_ok_refresh_controls :
  triple writes_ok (refresh_controls E) (fun _ => writes_ok) writes_ok.
Proof.
  intros m Hm. unfold refresh_controls.
  destruct (POT_READ_INTERVAL <=? loop_count m + 1);
    [destruct (read_pots _ _ _) as [s' ?] |]; exact Hm.
Qed.

Lemma writes_ok_frame_step (i : nat) :
  triple writes_ok (frame_step p i) (fun _ => writes_ok) writes_ok.
Proof.
  intros m (Hb & Hl & Hw). unfold frame_step.
  destruct (process_frame p (controls m) i _) as [[[buf el] er] |] eqn:Hpf.
  - destruct (process_frame_bytes _ _ _ _ _ _ _ _ _ Hb Hpf) as [Hb' Hl'].
    split; [exact Hb' |]. split; [cbn [audio_buffer set_audio]; congruence |].
    exact Hw.
  - split; [exact Hb |]. split; [exact Hl | exact Hw].
Qed.

Lemma writes_ok_write_out (n : Z) :
  0 < n <= Z.of_nat CHUNK_SIZE ->
  triple writes_ok (write_out n) (fun _ => writes_ok) writes_ok.
Proof.
  intros Hn m (Hb & Hl & Hw). unfold write_out, get, emit, mbind, M_bind.
  split; [exact Hb |]. split; [exact Hl |].
  intros data. cbn [trace add_event]. rewrite in_app_iff.
  intros [Hin | [Heq | []]]; [apply Hw, Hin |].
  inversion Heq; subst. split; [apply Forall_take, Hb |].
  rewrite length_take, Hl. lia.
Qed.

Lemma writes_ok_iteration :
  triple writes_ok (iteration p E) (fun _ => writes_ok) writes_ok.
Proof.
  unfold iteration.
  apply (triple_bind _ (fun _ => writes_ok)); [apply writes_ok_poll |].
  intros _.
  apply (triple_bind _ (fun n m => writes_ok m /\ n <= Z.of_nat CHUNK_SIZE));
    [apply writes_ok_readinto |].
  intros num_read. destruct (Z.ltb_spec 0 num_read) as [Hpos | Hle].
  - apply triple_pure. intros Hn.
    apply (triple_bind _ (fun _ => writes_ok)); [apply writes_ok_poll |].
    intros _.
    apply (triple_bind _ (fun _ => writes_ok)); [apply writes_ok_refresh_controls |].
    intros _. cbv zeta.
    apply (triple_bind _ (fun _ => writes_ok)).
    { apply triple_for_range. intros i.
      apply (triple_bind _ (fun _ => writes_ok)); [apply writes_ok_poll |].
      intros _. apply writes_ok_frame_step. }
    intros _.
    apply (triple_bind _ (fun _ => writes_ok)); [apply writes_ok_poll |].
    intros _. apply writes_ok_write_out. lia.
  - apply triple_ret. intros m [Hm _]. exact Hm.
Qed.

End Writes.

(** [X18] When the driver delivers bytes, everything the program writes to
    the output stream is a non-empty string of at most [CHUNK_SIZE] bytes,
    each in 0..255. *)
Theorem writes_well_formed (p : policy) (E : env) (fuel : nat)
    (i : option nat) (data : list Z) :
  env_ok E ->
  In (EvWrite data) (trace (snd (main p E fuel (initial_machine i)))) ->
  Forall is_byte data /\ (0 < length data <= CHUNK_SIZE)%nat.
Proof.
  intros HE Hin.
  assert (H : writes_ok (snd (main p E fuel (initial_machine i)))).
  { apply (triple_main writes_ok writes_ok).
    - now apply writes_ok_iteration.
    - auto.
    - intros m e He (Hb & Hl & Hw). split; [exact Hb |]. split; [exact Hl |].
      intros d. cbn [trace add_event]. rewrite in_app_iff.
      intros [Hd | [Heq | []]]; [apply Hw, Hd |].
      subst e. discriminate He.
    - split; [apply Forall_replicate; unfold is_byte; lia |].
      split; [apply length_replicate |]. intros d []. }
  destruct H as (_ & _ & Hw). apply Hw, Hin.
Qed.

Lemma writes_well_formed_witness :
  Forall is_byte [0; 64; 66; 15; 0; 128; 120; 162; 1; 2; 3; 4; 5; 6; 7].
Proof.
  assert (HE : env_ok demo_env).
  { unfold env_ok, demo_env, demo_chunk, is_u16, is_byte; simpl.
    split; [intros _; repeat constructor; lia | split; intros _; lia]. }
  refine (proj1 (writes_well_formed source_policy demo_env 3 (Some 7%nat)
                   _ HE _)).
  vm_compute. left. reflexivity.
Defined.

(** ** An interrupt only cuts the output short *)

Lemma cut_short_ret {A : Type} (a : A) : cut_short (mret a).
Proof. intros m. split; reflexivity. Qed.

Lemma cut_short_bind {A B : Type} (c : M A) (f : A -> M B) :
  cut_short c -> (forall a, cut_short (f a)) -> cut_short (c ≫= f).
Proof.
  intros Hc Hf m. destruct (Hc m) as [Hgrow Hsim].
  unfold mbind, M_bind.
  destruct (c m) as [[a | [|] |] m1]; cbn [snd] in *.
  - destruct (Hf a m1) as [Hgrow' Hsim']. rewrite Hsim.
    split; [etrans; eassumption | exact Hsim'].
  - split; [exact Hgrow|].
    destruct (c (uninterrupted m)) as [[a | e |] m2]; cbn [snd] in *;
      try exact Hsim.
    etrans; [exact Hsim | apply (Hf a m2)].
  - rewrite Hsim. split; [exact Hgrow | reflexivity].
  - rewrite Hsim. split; [exact Hgrow | reflexivity].
Qed.

Lemma cut_short_for_range (body : nat -> M unit) (count : nat) :
  (forall i, cut_short (body i)) ->
  forall start, cut_short (for_range body start count).
Proof.
  intros Hbody. induction count as [| count IH]; intros start.
  - apply cut_short_ret.
  - cbn [for_range]. apply cut_short_bind; [apply Hbody | intros _; apply IH].
Qed.

Lemma cut_short_poll : cut_short poll.
Proof.
  intros m. unfold poll, uninterrupted.
  destruct m as [b el er s lc rd rf [[|n]|] t]; cbn; split; reflexivity.
Qed.

Lemma cut_short_emit (e : event) : cut_short (emit e).
Proof.
  intros m. split; [|reflexivity]. cbn. apply prefix_app_r. reflexivity.
Qed.

Section Interrupted.
Variable p : policy.
Variable E : env.

Lemma cut_short_readinto : cut_short (readinto E).
Proof. intros m. split; reflexivity. Qed.

Lemma cut_short_refresh_controls : cut_short (refresh_controls E).
Proof.
  intros m. unfold refresh_controls.
  change (loop_count (uninterrupted m)) with (loop_count m).
  change (refreshes (uninterrupted m)) with (refreshes m).
  change (controls (uninterrupted m)) with (controls m).
  destruct (POT_READ_INTERVAL <=? loop_count m + 1).
  - destruct (read_pots _ _ _) as [s' ?]. split; reflexivity.
  - split; reflexivity.
Qed.

Lemma cut_short_frame_step (i : nat) : cut_short (frame_step p i).
Proof.
  intros m. unfold frame_step.
  change (controls (uninterrupted m)) with (controls m).
  change (audio_buffer (uninterrupted m)) with (audio_buffer m).
  change (envelope_left (uninterrupted m)) with (envelope_left m).
  change (envelope_right (uninterrupted m)) with (envelope_right m).
  destruct (process_frame p (controls m) i _) as [[[buf el] er] |];
    split; reflexivity.
Qed.

Lemma cut_short_write_out (n : Z) : cut_short (write_out n).
Proof.
  intros m. split; [|reflexivity]. cbn. apply prefix_app_r. reflexivity.
Qed.

Lemma cut_short_iteration : cut_short (iteration p E).
Proof.
  unfold iteration.
  apply cut_short_bind; [exact cut_short_poll | intros _].
  apply cut_short_bind; [exact cut_short_readinto | intros num_read].
  destruct (0 <? num_read); [| apply cut_short_ret].
  apply cut_short_bind; [exact cut_short_poll | intros _].
  apply cut_short_bind; [exact cut_short_refresh_controls | intros _].
  apply cut_short_bind.
  - apply cut_short_for_range. intros i.
    apply cut_short_bind; [exact cut_short_poll | intros _].
    apply cut_short_frame_step.
  - intros _. apply cut_short_bind; [exact cut_short_poll | intros _].
    apply cut_short_write_out.
Qed.

Lemma cut_short_while_true (fuel : nat) : cut_short (while_true p E fuel).
Proof.
  induction fuel as [| fuel IH].
  - intros m. split; reflexivity.
  - cbn [while_true].
    apply cut_short_bind; [exact cut_short_iteration | intros _; exact IH].
Qed.

End Interrupted.

Lemma writes_app (t u : list event) : writes (t ++ u) = writes t ++ writes u.
Proof. apply omap_app. Qed.

Lemma writes_prefix (t u : list event) :
  t `prefix_of` u -> writes t `prefix_of` writes u.
Proof. intros [k ->]. rewrite writes_app. apply prefix_app_r. reflexivity. Qed.

Lemma writes_finalized (m : machine) : writes (trace (finalized m)) = writes (trace m).
Proof. cbn. rewrite !writes_app. cbn. rewrite !app_nil_r. reflexivity. Qed.

Lemma writes_handled (m : machine) : writes (trace (handled m)) = writes (trace m).
Proof. cbn. rewrite !writes_app. cbn. rewrite !app_nil_r. reflexivity. Qed.

(** [X26] An interrupt only cuts the output short.  Whatever the driver
    delivers and whenever Ctrl+C arrives, the byte strings the program has
    written when it stops are an initial part of those the uninterrupted
    program writes: no chunk written before the interrupt differs, and
    handling the interrupt writes nothing more. *)
Theorem interrupt_truncates_output (p : policy) (E : env) (fuel : nat)
    (i : option nat) :
  writes (trace (snd (main p E fuel (initial_machine i))))
  `prefix_of`
  writes (trace (snd (main p E fuel (initial_machine None)))).
Proof.
  rewrite !main_cases.
  destruct (cut_short_while_true p E fuel (initial_machine i)) as [_ Hsim].
  change (uninterrupted (initial_machine i)) with (initial_machine None) in Hsim.
  destruct (while_true p E fuel (initial_machine i)) as [[[] | [|] |] m1].
  - rewrite Hsim. cbn [snd]. rewrite !writes_finalized. reflexivity.
  - cbn [snd]. rewrite writes_finalized, writes_handled.
    apply writes_prefix in Hsim. etrans; [exact Hsim|].
    destruct (while_true p E fuel (initial_machine None)) as [[[] | [|] |] m2];
      cbn [snd]; rewrite ?writes_finalized, ?writes_handled; reflexivity.
  - rewrite Hsim. cbn [snd]. rewrite !writes_finalized. reflexivity.
  - rewrite Hsim. cbn [snd]. reflexivity.
Qed.

(** ** Binary64 rounding *)

Section Rounding.
Local Open Scope Q_scope.

Lemma pow2_pos (e : Z) : 0 < 2 ^ e.
Proof. apply Qpower_0_lt. reflexivity. Qed.

Lemma pow2_add (a b : Z) : 2 ^ (a + b) == 2 ^ a * 2 ^ b.
Proof. apply Qpower_plus. intros H; discriminate H. Qed.

Lemma pow2_le (a b : Z) : (a <= b)%Z -> 2 ^ a <= 2 ^ b.
Proof. intros H. apply Qpower_le_compat_l; [exact H | apply Qle_bool_iff; reflexivity]. Qed.

Lemma pow2_lt (a b : Z) : (a < b)%Z -> 2 ^ a < 2 ^ b.
Proof. intros H. apply Qpower_lt_compat_l; [exact H | reflexivity]. Qed.

Lemma pow2_lt_inv (a b : Z) : 2 ^ a < 2 ^ b -> (a < b)%Z.
Proof. intros H. apply (Qpower_lt_compat_l_inv 2); [exact H | reflexivity]. Qed.

Lemma pow2_Z (n : Z) : (0 <= n)%Z -> 2 ^ n == inject_Z (2 ^ n).
Proof. intros H. symmetry. apply (Zpower_Qpower 2 n H). Qed.

Lemma pow2_succ (a : Z) : 2 ^ (a + 1) == 2 * 2 ^ a.
Proof. rewrite pow2_add. change (2 ^ 1) with 2. ring. Qed.

Lemma pow2_div (x : Q) (e : Z) : x / 2 ^ e == x * 2 ^ (- e).
Proof. rewrite Qpower_opp. reflexivity. Qed.

Lemma pow2_cancel (x : Q) (e : Z) : x / 2 ^ e * 2 ^ e == x.
Proof.
  pose proof (pow2_pos e) as H. field. intros H0. rewrite H0 in H.
  exact (Qlt_irrefl 0 H).
Qed.

(** *** The nearest integer *)

Lemma nearest_even_cases (q : Q) :
  let f := Qfloor q in
  inject_Z f <= q < inject_Z f + 1
  /\ ((B64.nearest_even q = f /\ q - inject_Z f <= 1 # 2)
      \/ (B64.nearest_even q = (f + 1)%Z /\ 1 # 2 <= q - inject_Z f)).
Proof.
  intros f. pose proof (Qfloor_le q) as Hl. pose proof (Qlt_floor q) as Hu.
  fold f in Hl, Hu. rewrite inject_Z_plus in Hu. change (inject_Z 1) with 1 in Hu.
  split; [split; assumption|].
  unfold B64.nearest_even. fold f.
  destruct (Qcompare_spec (q - inject_Z f) (1 # 2)) as [H|H|H].
  - destruct (Z.even f); [left | right]; (split; [reflexivity | rewrite H; apply Qle_refl]).
  - left. split; [reflexivity | apply Qlt_le_weak, H].
  - right. split; [reflexivity | apply Qlt_le_weak, H].
Qed.

Lemma nearest_even_error (q : Q) :
  Qabs (inject_Z (B64.nearest_even q) - q) <= 1 # 2.
Proof.
  destruct (nearest_even_cases q) as [[Hl Hu] [[-> H] | [-> H]]];
    apply Qabs_Qle_condition.
  - split; lra.
  - rewrite inject_Z_plus. change (inject_Z 1) with 1. split; lra.
Qed.

Lemma nearest_even_int (z : Z) : B64.nearest_even (inject_Z z) = z.
Proof.
  unfold B64.nearest_even. rewrite Qfloor_Z.
  destruct (Qcompare_spec (inject_Z z - inject_Z z) (1 # 2)) as [H|H|H];
    [exfalso; lra | reflexivity | exfalso; lra].
Qed.

Lemma nearest_even_comp (x y : Q) :
  x == y -> B64.nearest_even x = B64.nearest_even y.
Proof.
  intros H. unfold B64.nearest_even.
  rewrite (Qfloor_comp _ _ H).
  assert (Hc : (x - inject_Z (Qfloor y) ?= 1 # 2) = (y - inject_Z (Qfloor y) ?= 1 # 2)).
  { apply Qcompare_comp; [rewrite H|]; reflexivity. }
  rewrite Hc. reflexivity.
Qed.

Lemma nearest_even_mono (x y : Q) :
  x <= y -> (B64.nearest_even x <= B64.nearest_even y)%Z.
Proof.
  intros Hxy. pose proof (Qfloor_resp_le _ _ Hxy) as Hf.
  destruct (Z.eq_dec (Qfloor x) (Qfloor y)) as [E|E].
  - unfold B64.nearest_even. rewrite E.
    destruct (Qcompare_spec (x - inject_Z (Qfloor y)) (1 # 2)) as [H1|H1|H1];
      destruct (Qcompare_spec (y - inject_Z (Qfloor y)) (1 # 2)) as [H2|H2|H2];
      try (exfalso; lra); try (destruct (Z.even (Qfloor y))); lia.
  - destruct (nearest_even_cases x) as [_ [[-> _] | [-> _]]];
      destruct (nearest_even_cases y) as [_ [[-> _] | [-> _]]]; lia.
Qed.

(** *** The exponent *)

Lemma ilog2_spec (x : Q) :
  0 < x -> 2 ^ B64.ilog2 x <= x < 2 ^ (B64.ilog2 x + 1).
Proof.
  intros Hx. unfold B64.ilog2.
  set (s := (Z.log2 (Zpos (Qden x)) + 1)%Z).
  assert (Hs : (0 <= s)%Z) by (pose proof (Z.log2_nonneg (Zpos (Qden x))); lia).
  set (y := x * 2 ^ s).
  assert (Hy : 1 <= y).
  { subst y. rewrite (pow2_Z s Hs).
    destruct x as [n d]. cbn [Qden] in *.
    assert (Hn : (1 <= n)%Z) by (unfold Qlt in Hx; cbn in Hx; lia).
    pose proof (Z.log2_spec (Zpos d) ltac:(lia)) as [_ Hd].
    replace (Z.succ (Z.log2 (Zpos d))) with s in Hd by (subst s; lia).
    unfold Qle, Qmult, inject_Z; cbn. rewrite Pos.mul_1_r.
    assert (0 < 2 ^ s)%Z by (apply Z.pow_pos_nonneg; lia). nia. }
  assert (HY : (1 <= Qfloor y)%Z).
  { change 1%Z with (Qfloor 1). apply Qfloor_resp_le, Hy. }
  pose proof (Z.log2_spec (Qfloor y) ltac:(lia)) as [Hl Hu].
  set (L := Z.log2 (Qfloor y)) in *.
  assert (HL : (0 <= L)%Z) by apply Z.log2_nonneg.
  pose proof (Qfloor_le y) as Hfl. pose proof (Qlt_floor y) as Hfu.
  assert (H1 : 2 ^ L <= y).
  { rewrite (pow2_Z L HL). eapply Qle_trans; [|exact Hfl].
    rewrite <- Zle_Qle. exact Hl. }
  assert (H2 : y < 2 ^ (L + 1)).
  { rewrite (pow2_Z (L + 1) ltac:(lia)). eapply Qlt_le_trans; [exact Hfu|].
    rewrite <- Zle_Qle. replace (Z.succ L) with (L + 1)%Z in Hu by lia. lia. }
  assert (Hxy : x == y * 2 ^ (- s)).
  { subst y. rewrite <- Qmult_assoc, <- pow2_add.
    replace (s + - s)%Z with 0%Z by lia. change (2 ^ 0) with 1. ring. }
  pose proof (pow2_pos (- s)) as Hp.
  replace (L - s)%Z with (L + - s)%Z by lia.
  replace (L + - s + 1)%Z with ((L + 1) + - s)%Z by lia.
  rewrite (pow2_add L (- s)), (pow2_add (L + 1) (- s)), Hxy. split.
  - apply Qmult_le_compat_r; [exact H1 | apply Qlt_le_weak, Hp].
  - apply Qmult_lt_compat_r; [exact Hp | exact H2].
Qed.

Lemma ilog2_unique (x : Q) (k : Z) :
  2 ^ k <= x < 2 ^ (k + 1) -> B64.ilog2 x = k.
Proof.
  intros [Hl Hu].
  assert (Hx : 0 < x) by (eapply Qlt_le_trans; [apply (pow2_pos k) | exact Hl]).
  destruct (ilog2_spec x Hx) as [Hl' Hu'].
  assert (k < B64.ilog2 x + 1)%Z
    by (apply pow2_lt_inv; eapply Qle_lt_trans; eassumption).
  assert (B64.ilog2 x < k + 1)%Z
    by (apply pow2_lt_inv; eapply Qle_lt_trans; eassumption).
  lia.
Qed.

Lemma ilog2_comp (x y : Q) : 0 < x -> x == y -> B64.ilog2 x = B64.ilog2 y.
Proof.
  intros Hx H. symmetry. apply ilog2_unique. rewrite <- H. apply ilog2_spec, Hx.
Qed.

Lemma ilog2_mono (x y : Q) : 0 < x -> x <= y -> (B64.ilog2 x <= B64.ilog2 y)%Z.
Proof.
  intros Hx Hxy.
  assert (Hy : 0 < y) by (eapply Qlt_le_trans; eassumption).
  destruct (ilog2_spec x Hx) as [Hl _]. destruct (ilog2_spec y Hy) as [_ Hu].
  assert (B64.ilog2 x < B64.ilog2 y + 1)%Z; [|lia].
  apply pow2_lt_inv. eapply Qle_lt_trans; [exact Hl|].
  eapply Qle_lt_trans; eassumption.
Qed.

End Rounding.

Section RoundPos.
Local Open Scope Q_scope.

Lemma ulp_exp_bounds (x : Q) :
  (-1074 <= B64.ulp_exp x /\ B64.ilog2 x - 52 <= B64.ulp_exp x)%Z.
Proof. unfold B64.ulp_exp. lia. Qed.

Lemma div_pow2_le (x y : Q) (e : Z) : x <= y -> x / 2 ^ e <= y / 2 ^ e.
Proof.
  intros H. apply Qmult_le_compat_r; [exact H|].
  apply Qlt_le_weak, Qinv_lt_0_compat, pow2_pos.
Qed.

Lemma scaled_lt (x : Q) : 0 < x -> x / 2 ^ B64.ulp_exp x < 2 ^ 53.
Proof.
  intros Hx. destruct (ilog2_spec x Hx) as [_ Hu].
  destruct (ulp_exp_bounds x) as [_ He].
  apply Qlt_shift_div_r; [apply pow2_pos|].
  rewrite <- pow2_add. eapply Qlt_le_trans; [exact Hu|]. apply pow2_le. lia.
Qed.

Lemma scaled_ge (x : Q) :
  0 < x -> (-1074 < B64.ulp_exp x)%Z -> 2 ^ 52 <= x / 2 ^ B64.ulp_exp x.
Proof.
  intros Hx He. destruct (ilog2_spec x Hx) as [Hl _].
  assert (E : B64.ulp_exp x = (B64.ilog2 x - 52)%Z)
    by (unfold B64.ulp_exp in *; lia).
  apply Qle_shift_div_l; [apply pow2_pos|].
  rewrite <- pow2_add, E. replace (52 + (B64.ilog2 x - 52))%Z with (B64.ilog2 x) by lia.
  exact Hl.
Qed.

Lemma mantissa_bounds (x : Q) :
  0 < x ->
  let m := B64.nearest_even (x / 2 ^ B64.ulp_exp x) in
  (0 <= m <= 2 ^ 53)%Z /\ ((-1074 < B64.ulp_exp x)%Z -> (2 ^ 52 <= m)%Z).
Proof.
  intros Hx m. subst m.
  assert (H0 : 0 <= x / 2 ^ B64.ulp_exp x).
  { apply Qle_shift_div_l; [apply pow2_pos|]. lra. }
  split; [split|].
  - rewrite <- (nearest_even_int 0). apply nearest_even_mono. exact H0.
  - rewrite <- (nearest_even_int (2 ^ 53)). apply nearest_even_mono.
    rewrite <- (pow2_Z 53) by lia. apply Qlt_le_weak, scaled_lt, Hx.
  - intros He. rewrite <- (nearest_even_int (2 ^ 52)). apply nearest_even_mono.
    rewrite <- (pow2_Z 52) by lia. apply scaled_ge; assumption.
Qed.

Lemma ulp_exp_mono (x y : Q) :
  0 < x -> x <= y -> (B64.ulp_exp x <= B64.ulp_exp y)%Z.
Proof.
  intros Hx Hxy. pose proof (ilog2_mono x y Hx Hxy). unfold B64.ulp_exp. lia.
Qed.

Lemma ulp_exp_comp (x y : Q) : 0 < x -> x == y -> B64.ulp_exp x = B64.ulp_exp y.
Proof. intros Hx H. unfold B64.ulp_exp. now rewrite (ilog2_comp x y Hx H). Qed.

Lemma round_pos_comp (x y : Q) : 0 < x -> x == y -> B64.round_pos x == B64.round_pos y.
Proof.
  intros Hx H. unfold B64.round_pos. cbv zeta.
  rewrite <- (ulp_exp_comp x y Hx H). set (e := B64.ulp_exp x).
  rewrite (nearest_even_comp (y / 2 ^ e) (x / 2 ^ e)).
  - reflexivity.
  - rewrite H. reflexivity.
Qed.

Lemma round_pos_mono (x y : Q) :
  0 < x -> x <= y -> B64.round_pos x <= B64.round_pos y.
Proof.
  intros Hx Hxy.
  assert (Hy : 0 < y) by (eapply Qlt_le_trans; eassumption).
  pose proof (ulp_exp_mono x y Hx Hxy) as He.
  destruct (mantissa_bounds x Hx) as [[Hx0 Hx1] _].
  destruct (mantissa_bounds y Hy) as [[Hy0 _] Hy2].
  unfold B64.round_pos. cbv zeta in *.
  set (ex := B64.ulp_exp x) in *. set (ey := B64.ulp_exp y) in *.
  set (mx := B64.nearest_even (x / 2 ^ ex)) in *.
  set (my := B64.nearest_even (y / 2 ^ ey)) in *.
  destruct (Z.eq_dec ex ey) as [E|E].
  - assert (Hm : (mx <= my)%Z).
    { subst mx my. rewrite <- E. apply nearest_even_mono, div_pow2_le, Hxy. }
    rewrite <- E. apply Qmult_le_compat_r;
      [rewrite <- Zle_Qle; exact Hm | apply Qlt_le_weak, pow2_pos].
  - assert (Hlt : (ex + 1 <= ey)%Z) by lia.
    assert (Hnorm : (2 ^ 52 <= my)%Z).
    { apply Hy2. destruct (ulp_exp_bounds x). fold ex in H. lia. }
    apply Qle_trans with (inject_Z (2 ^ 53) * 2 ^ ex).
    + apply Qmult_le_compat_r;
        [rewrite <- Zle_Qle; exact Hx1 | apply Qlt_le_weak, pow2_pos].
    + apply Qle_trans with (inject_Z (2 ^ 52) * 2 ^ ey).
      * rewrite <- (pow2_Z 53), <- (pow2_Z 52) by lia.
        rewrite <- !pow2_add. apply pow2_le. lia.
      * apply Qmult_le_compat_r;
          [rewrite <- Zle_Qle; exact Hnorm | apply Qlt_le_weak, pow2_pos].
Qed.

Lemma round_pos_exact (x : Q) (M E : Z) :
  x == inject_Z M * 2 ^ E -> (0 < M < 2 ^ 53)%Z -> (-1074 <= E)%Z ->
  B64.round_pos x == x.
Proof.
  intros Hx HM HE.
  assert (Hpos : 0 < x).
  { rewrite Hx. apply Qmult_lt_0_compat; [|apply pow2_pos].
    change 0 with (inject_Z 0). rewrite <- Zlt_Qlt. lia. }
  assert (Hlt : x < 2 ^ (53 + E)).
  { rewrite Hx, pow2_add. apply Qmult_lt_compat_r; [apply pow2_pos|].
    rewrite (pow2_Z 53) by lia. rewrite <- Zlt_Qlt. lia. }
  destruct (ilog2_spec x Hpos) as [Hl _].
  assert (Hi : (B64.ilog2 x < 53 + E)%Z)
    by (apply pow2_lt_inv; eapply Qle_lt_trans; eassumption).
  assert (He : (B64.ulp_exp x <= E)%Z) by (unfold B64.ulp_exp; lia).
  unfold B64.round_pos. cbv zeta. set (e := B64.ulp_exp x) in *.
  assert (Hq : x / 2 ^ e == inject_Z (M * 2 ^ (E - e))).
  { rewrite inject_Z_mult, <- (pow2_Z (E - e)) by lia.
    rewrite Hx, pow2_div, <- Qmult_assoc, <- pow2_add.
    replace (E + - e)%Z with (E - e)%Z by lia. reflexivity. }
  rewrite (nearest_even_comp _ _ Hq), nearest_even_int, <- Hq.
  apply pow2_cancel.
Qed.

Lemma round_pos_float (x : Q) :
  0 < x ->
  exists m e : Z,
    B64.round_pos x == inject_Z m * 2 ^ e /\ (0 <= m < 2 ^ 53)%Z /\ (-1074 <= e)%Z.
Proof.
  intros Hx. destruct (mantissa_bounds x Hx) as [[H0 H1] _].
  destruct (ulp_exp_bounds x) as [He _].
  unfold B64.round_pos. cbv zeta in *.
  set (e := B64.ulp_exp x) in *. set (m := B64.nearest_even (x / 2 ^ e)) in *.
  destruct (Z.eq_dec m (2 ^ 53)%Z) as [E|E].
  - exists (2 ^ 52)%Z, (e + 1)%Z. split; [|split; lia].
    rewrite E, <- (pow2_Z 53), <- (pow2_Z 52), <- !pow2_add by lia.
    replace (52 + (e + 1))%Z with (53 + e)%Z by lia. reflexivity.
  - exists m, e. split; [reflexivity | split; lia].
Qed.

(** The error of rounding is at most half a unit in the last place. *)
Lemma round_pos_half_ulp (x : Q) :
  0 < x -> Qabs (B64.round_pos x - x) <= 2 ^ (B64.ulp_exp x - 1).
Proof.
  intros Hx. unfold B64.round_pos. cbv zeta. set (e := B64.ulp_exp x).
  pose proof (nearest_even_error (x / 2 ^ e)) as Herr.
  set (m := B64.nearest_even (x / 2 ^ e)) in *.
  assert (Heq : inject_Z m * 2 ^ e - x == (inject_Z m - x / 2 ^ e) * 2 ^ e).
  { rewrite <- (pow2_cancel x e) at 1. ring. }
  rewrite Heq, Qabs_Qmult, (Qabs_pos (2 ^ e)) by apply Qlt_le_weak, pow2_pos.
  replace (e - 1)%Z with (-1 + e)%Z by lia. rewrite pow2_add.
  apply Qmult_le_compat_r; [exact Herr | apply Qlt_le_weak, pow2_pos].
Qed.

Lemma round_pos_error (x : Q) :
  2 ^ (-1022) <= x -> Qabs (B64.round_pos x - x) <= x * 2 ^ (-53).
Proof.
  intros Hn.
  assert (Hx : 0 < x) by (eapply Qlt_le_trans; [apply (pow2_pos (-1022)) | exact Hn]).
  destruct (ilog2_spec x Hx) as [Hl Hu].
  assert (Hi : (-1022 < B64.ilog2 x + 1)%Z)
    by (apply pow2_lt_inv; eapply Qle_lt_trans; eassumption).
  assert (E : B64.ulp_exp x = (B64.ilog2 x - 52)%Z) by (unfold B64.ulp_exp; lia).
  eapply Qle_trans; [apply round_pos_half_ulp, Hx|].
  rewrite E. replace (B64.ilog2 x - 52 - 1)%Z with (B64.ilog2 x + -53)%Z by lia.
  rewrite pow2_add. apply Qmult_le_compat_r; [exact Hl | apply Qlt_le_weak, pow2_pos].
Qed.

End RoundPos.

Section Round.
Local Open Scope Q_scope.

Lemma round_pos_nonneg (x : Q) : 0 < x -> 0 <= B64.round_pos x.
Proof.
  intros Hx. destruct (mantissa_bounds x Hx) as [[H0 _] _].
  unfold B64.round_pos. cbv zeta in *.
  apply Qmult_le_0_compat; [|apply Qlt_le_weak, pow2_pos].
  change 0 with (inject_Z 0). rewrite <- Zle_Qle. exact H0.
Qed.

Lemma round_positive (x : Q) : 0 < x -> B64.round x = B64.round_pos x.
Proof.
  intros Hx. unfold B64.round.
  destruct (Qcompare_spec x 0) as [H|H|H]; [exfalso; lra | exfalso; lra | reflexivity].
Qed.

Lemma round_negative (x : Q) : x < 0 -> B64.round x = - B64.round_pos (- x).
Proof.
  intros Hx. unfold B64.round.
  destruct (Qcompare_spec x 0) as [H|H|H]; [exfalso; lra | reflexivity | exfalso; lra].
Qed.

Lemma round_zero (x : Q) : x == 0 -> B64.round x = 0.
Proof.
  intros Hx. unfold B64.round.
  destruct (Qcompare_spec x 0) as [H|H|H]; [reflexivity | exfalso; lra | exfalso; lra].
Qed.

Lemma round_comp (x y : Q) : x == y -> B64.round x == B64.round y.
Proof.
  intros H. destruct (Qcompare_spec x 0) as [Hx|Hx|Hx].
  - rewrite (round_zero x Hx), (round_zero y) by (rewrite <- H; exact Hx).
    reflexivity.
  - rewrite (round_negative x Hx), (round_negative y) by (rewrite <- H; exact Hx).
    apply Qopp_comp, round_pos_comp; [lra | rewrite H; reflexivity].
  - rewrite (round_positive x Hx), (round_positive y) by (rewrite <- H; exact Hx).
    apply round_pos_comp; assumption.
Qed.

Lemma round_opp (x : Q) : B64.round (- x) == - B64.round x.
Proof.
  destruct (Qcompare_spec x 0) as [Hx|Hx|Hx].
  - rewrite (round_zero x Hx), (round_zero (- x)) by lra. reflexivity.
  - rewrite (round_negative x Hx), (round_positive (- x)) by lra. ring.
  - rewrite (round_positive x Hx), (round_negative (- x)) by lra.
    apply Qopp_comp, round_pos_comp; [lra | ring].
Qed.

Lemma round_nonneg (x : Q) : 0 <= x -> 0 <= B64.round x.
Proof.
  intros Hx. destruct (Qcompare_spec x 0) as [H|H|H]; [| exfalso; lra |].
  - rewrite (round_zero x H). apply Qle_refl.
  - rewrite (round_positive x H). apply round_pos_nonneg, H.
Qed.

Lemma round_nonpos (x : Q) : x <= 0 -> B64.round x <= 0.
Proof.
  intros Hx. pose proof (round_nonneg (- x) ltac:(lra)) as H.
  rewrite round_opp in H. lra.
Qed.

(** Rounding is monotone. *)
Lemma round_mono (x y : Q) : x <= y -> B64.round x <= B64.round y.
Proof.
  intros Hxy. destruct (Qcompare_spec x 0) as [Hx|Hx|Hx].
  - rewrite (round_zero x Hx). apply round_nonneg. lra.
  - destruct (Qlt_le_dec y 0) as [Hy|Hy].
    + rewrite (round_negative x Hx), (round_negative y Hy).
      apply Qopp_le_compat, round_pos_mono; lra.
    + apply Qle_trans with 0; [apply round_nonpos; lra | apply round_nonneg, Hy].
  - rewrite (round_positive x Hx), (round_positive y) by lra.
    apply round_pos_mono; assumption.
Qed.

Lemma representable_opp (x : Q) : B64.representable x -> B64.representable (- x).
Proof.
  intros (m & e & Hx & Hm & He). exists (- m)%Z, e. split; [|split; [lia | exact He]].
  rewrite Hx, inject_Z_opp. ring.
Qed.

Lemma representable_comp (x y : Q) :
  x == y -> B64.representable x -> B64.representable y.
Proof.
  intros H (m & e & Hx & Hm & He). exists m, e. rewrite <- H. auto.
Qed.

(** A value on the grid is its own rounding. *)
Lemma round_exact (x : Q) : B64.representable x -> B64.round x == x.
Proof.
  intros (m & e & Hx & Hm & He).
  pose proof (pow2_pos e) as Hp.
  destruct (Z.lt_trichotomy m 0) as [Hs | [Hs | Hs]].
  - assert (Hneg : x < 0).
    { rewrite Hx. rewrite <- (Qmult_0_l (2 ^ e)).
      apply Qmult_lt_compat_r; [exact Hp|].
      change 0 with (inject_Z 0). rewrite <- Zlt_Qlt. exact Hs. }
    rewrite (round_negative x Hneg).
    rewrite (round_pos_exact (- x) (- m) e); [ring | | lia | exact He].
    rewrite Hx, inject_Z_opp. ring.
  - subst m. assert (H0 : x == 0) by (rewrite Hx; ring).
    rewrite (round_zero x H0). symmetry. exact H0.
  - assert (Hpos : 0 < x).
    { rewrite Hx. apply Qmult_lt_0_compat; [|exact Hp].
      change 0 with (inject_Z 0). rewrite <- Zlt_Qlt. exact Hs. }
    rewrite (round_positive x Hpos).
    apply (round_pos_exact x m e); [exact Hx | lia | exact He].
Qed.

(** Every rounding is on the grid. *)
Lemma round_representable (x : Q) : B64.representable (B64.round x).
Proof.
  destruct (Qcompare_spec x 0) as [Hx|Hx|Hx].
  - rewrite (round_zero x Hx). exists 0%Z, 0%Z. split; [reflexivity | split; lia].
  - rewrite (round_negative x Hx). apply representable_opp.
    destruct (round_pos_float (- x) ltac:(lra)) as (m & e & H & Hm & He).
    exists m, e. split; [exact H | split; lia].
  - rewrite (round_positive x Hx).
    destruct (round_pos_float x Hx) as (m & e & H & Hm & He).
    exists m, e. split; [exact H | split; lia].
Qed.

Lemma round_idempotent (x : Q) : B64.round (B64.round x) == B64.round x.
Proof. apply round_exact, round_representable. Qed.

(** The relative error of rounding a value in the normal range. *)
Lemma round_error (x : Q) :
  2 ^ (-1022) <= Qabs x -> Qabs (B64.round x - x) <= Qabs x * 2 ^ (-53).
Proof.
  intros Hn. pose proof (pow2_pos (-1022)) as Hp.
  destruct (Qlt_le_dec x 0) as [Hx|Hx].
  - rewrite (Qabs_neg x) in * by lra.
    rewrite (round_negative x Hx).
    pose proof (round_pos_error (- x) Hn) as H.
    rewrite Qabs_Qminus.
    assert (E : x - - B64.round_pos (- x) == B64.round_pos (- x) - - x) by ring.
    rewrite E. exact H.
  - rewrite (Qabs_pos x) in * by exact Hx.
    rewrite (round_positive x) by lra. apply round_pos_error, Hn.
Qed.

Lemma round_error_pos (x : Q) :
  2 ^ (-1022) <= x ->
  x * (1 - 2 ^ (-53)) <= B64.round x <= x * (1 + 2 ^ (-53)).
Proof.
  intros Hn. pose proof (pow2_pos (-1022)) as Hp.
  pose proof (round_error x) as H. rewrite (Qabs_pos x) in H by lra.
  specialize (H Hn). apply Qabs_Qle_condition in H. destruct H as [H1 H2].
  split; lra.
Qed.

End Round.

(** ** Float operations on finite values *)

Section Ops.
Local Open Scope Q_scope.

Lemma representable_pow2 (k : Z) : (-1074 <= k)%Z -> B64.representable (2 ^ k).
Proof. intros Hk. exists 1%Z, k. split; [ring | split; [reflexivity | exact Hk]]. Qed.

Lemma is_float_pow2 (k : Z) : (-1074 <= k <= 1023)%Z -> B64.is_float (2 ^ k).
Proof.
  intros Hk. split; [apply representable_pow2; lia|].
  rewrite Qabs_pos by apply Qlt_le_weak, pow2_pos. apply pow2_lt. lia.
Qed.

Lemma is_float_nonneg (y : Q) : B64.is_float y -> 0 <= y -> y < 2 ^ 1024.
Proof. intros [_ H] Hy. rewrite Qabs_pos in H; assumption. Qed.

(** A result bounded by a float is rounded to a finite float. *)
Lemma round_bounded (x y : Q) :
  B64.representable y -> Qabs x <= y -> Qabs (B64.round x) <= y.
Proof.
  intros Hy Hx. apply Qabs_Qle_condition in Hx. destruct Hx as [Hl Hu].
  apply Qabs_Qle_condition. split.
  - rewrite <- (round_exact (- y) (representable_opp y Hy)). apply round_mono, Hl.
  - rewrite <- (round_exact y Hy). apply round_mono, Hu.
Qed.

Lemma of_exact_finite (x y : Q) :
  B64.is_float y -> Qabs x <= y -> B64.of_exact x = B64.Finite (B64.round x).
Proof.
  intros [Hy Hlt] Hx. unfold B64.of_exact. cbv zeta.
  pose proof (round_bounded x y Hy Hx) as Hr.
  assert (H0 : 0 <= y) by (eapply Qle_trans; [apply Qabs_nonneg | exact Hx]).
  rewrite Qabs_pos in Hlt by exact H0.
  destruct (Qle_bool (2 ^ 1024) (Qabs (B64.round x))) eqn:E; [|reflexivity].
  apply Qle_bool_iff in E. exfalso. lra.
Qed.

Lemma has_value_finite (q : Q) : B64.has_value (B64.Finite q) q.
Proof. exists q. split; reflexivity. Qed.

Lemma has_value_comp (x : B64.float) (a b : Q) :
  a == b -> B64.has_value x a -> B64.has_value x b.
Proof. intros H (q & -> & Hq). exists q. split; [reflexivity | now rewrite Hq]. Qed.

Lemma has_value_of_exact (x y : Q) :
  B64.is_float y -> Qabs x <= y -> B64.has_value (B64.of_exact x) (B64.round x).
Proof. intros Hy Hx. rewrite (of_exact_finite x y Hy Hx). apply has_value_finite. Qed.

Lemma has_value_add (x y : B64.float) (a b bound : Q) :
  B64.has_value x a -> B64.has_value y b ->
  B64.is_float bound -> Qabs (a + b) <= bound ->
  B64.has_value (B64.add x y) (B64.round (a + b)).
Proof.
  intros (a' & -> & Ha) (b' & -> & Hb) Hbound Hab. cbn [B64.add].
  assert (E : a' + b' == a + b) by (rewrite Ha, Hb; reflexivity).
  apply (has_value_comp _ (B64.round (a' + b'))); [apply round_comp, E|].
  apply (has_value_of_exact _ bound Hbound). rewrite E. exact Hab.
Qed.

Lemma has_value_sub (x y : B64.float) (a b bound : Q) :
  B64.has_value x a -> B64.has_value y b ->
  B64.is_float bound -> Qabs (a - b) <= bound ->
  B64.has_value (B64.sub x y) (B64.round (a - b)).
Proof.
  intros Hx (b' & -> & Hb) Hbound Hab. unfold B64.sub. cbn [B64.neg].
  apply (has_value_add x _ a (- b) bound); try assumption.
  exists (- b'). split; [reflexivity | now rewrite Hb].
Qed.

Lemma has_value_mul (x y : B64.float) (a b bound : Q) :
  B64.has_value x a -> B64.has_value y b ->
  B64.is_float bound -> Qabs (a * b) <= bound ->
  B64.has_value (B64.mul x y) (B64.round (a * b)).
Proof.
  intros (a' & -> & Ha) (b' & -> & Hb) Hbound Hab. cbn [B64.mul].
  assert (E : a' * b' == a * b) by (rewrite Ha, Hb; reflexivity).
  apply (has_value_comp _ (B64.round (a' * b'))); [apply round_comp, E|].
  apply (has_value_of_exact _ bound Hbound). rewrite E. exact Hab.
Qed.

Lemma has_value_div (x y : B64.float) (a b bound : Q) :
  B64.has_value x a -> B64.has_value y b -> ~ b == 0 ->
  B64.is_float bound -> Qabs (a / b) <= bound ->
  exists z, B64.div x y = inr z /\ B64.has_value z (B64.round (a / b)).
Proof.
  intros (a' & -> & Ha) (b' & -> & Hb) Hnz Hbound Hab. cbn [B64.div].
  assert (Hz : B64.is_zero b' = false).
  { unfold B64.is_zero. destruct (Qeq_bool b' 0) eqn:E; [|reflexivity].
    apply Qeq_bool_iff in E. exfalso. apply Hnz. rewrite <- Hb. exact E. }
  rewrite Hz. eexists. split; [reflexivity|].
  assert (E : a' / b' == a / b) by (rewrite Ha, Hb; reflexivity).
  apply (has_value_comp _ (B64.round (a' / b'))); [apply round_comp, E|].
  apply (has_value_of_exact _ bound Hbound). rewrite E. exact Hab.
Qed.

Lemma has_value_literal (q bound : Q) :
  B64.is_float bound -> Qabs q <= bound ->
  B64.has_value (B64.literal q) (B64.round q).
Proof. apply has_value_of_exact. Qed.

Lemma has_value_of_int (z : Z) (bound : Q) :
  B64.is_float bound -> Qabs (inject_Z z) <= bound ->
  exists x, B64.of_int z = inr x /\ B64.has_value x (B64.round (inject_Z z)).
Proof.
  intros Hbound Hz. unfold B64.of_int.
  rewrite (of_exact_finite _ bound Hbound Hz). eexists. split; [reflexivity|].
  apply has_value_finite.
Qed.

(** Small integers are floats. *)
Lemma representable_int (z : Z) : (Z.abs z < 2 ^ 53)%Z -> B64.representable (inject_Z z).
Proof.
  intros Hz. exists z, 0%Z. split; [change (2 ^ 0) with 1; ring | split; [exact Hz | lia]].
Qed.

Lemma round_int (z : Z) : (Z.abs z < 2 ^ 53)%Z -> B64.round (inject_Z z) == inject_Z z.
Proof. intros Hz. apply round_exact, representable_int, Hz. Qed.

End Ops.

#[global] Instance round_proper : Proper (Qeq ==> Qeq) B64.round.
Proof. intros x y H. apply round_comp, H. Qed.

(** ** The gain reduction factor in binary64 *)

Section Factor.
Local Open Scope Q_scope.

Lemma round_rel (x : Q) :
  x == 0 \/ 2 ^ (-52) / 3 <= x ->
  x * (1 - 2 ^ (-53)) <= B64.round x <= x * (1 + 2 ^ (-53)).
Proof.
  intros [H | H].
  - rewrite (round_zero x H), H. split; apply Qle_lteq; right; ring.
  - apply round_error_pos. eapply Qle_trans; [|exact H].
    apply Qle_bool_iff. vm_compute. reflexivity.
Qed.

(** The floats from 1 on are multiples of [2^-52]. *)
Lemma grid_above_one (o : Q) :
  B64.representable o -> 1 <= o ->
  exists k : Z, o == inject_Z k * 2 ^ (-52) /\ (2 ^ 52 <= k)%Z.
Proof.
  intros (m & e & Ho & Hm & He) H1.
  pose proof (pow2_pos e) as Hp.
  assert (Hmpos : (0 < m)%Z).
  { destruct (Z.lt_ge_cases 0 m) as [H|H]; [exact H|]. exfalso.
    assert (inject_Z m * 2 ^ e <= 0); [|lra].
    rewrite <- (Qmult_0_l (2 ^ e)). apply Qmult_le_compat_r; [|lra].
    change 0 with (inject_Z 0). rewrite <- Zle_Qle. exact H. }
  assert (Hexp : (-52 <= e)%Z).
  { destruct (Z.lt_ge_cases e (-52)) as [H|H]; [|exact H]. exfalso.
    assert (o < 1); [|lra].
    rewrite Ho. apply Qlt_le_trans with (inject_Z (2 ^ 53) * 2 ^ e).
    - apply Qmult_lt_compat_r; [exact Hp|]. rewrite <- Zlt_Qlt. lia.
    - rewrite <- (pow2_Z 53), <- pow2_add by lia.
      change 1 with (2 ^ 0). apply pow2_le. lia. }
  exists (m * 2 ^ (e + 52))%Z.
  assert (Hk : o == inject_Z (m * 2 ^ (e + 52)) * 2 ^ (-52)).
  { rewrite inject_Z_mult, <- (pow2_Z (e + 52)) by lia.
    rewrite Ho, <- Qmult_assoc, <- pow2_add.
    replace (e + 52 + -52)%Z with e by lia. reflexivity. }
  split; [exact Hk|].
  rewrite Hk in H1.
  assert (H2 : inject_Z (2 ^ 52) <= inject_Z (m * 2 ^ (e + 52))).
  { rewrite <- (pow2_Z 52) by lia.
    apply (Qmult_le_r _ _ (2 ^ (-52))); [apply pow2_pos|].
    rewrite <- pow2_add. change (2 ^ (52 + -52)) with 1. exact H1. }
  rewrite <- Zle_Qle in H2. exact H2.
Qed.

Lemma sub_one_grid (o : Q) :
  B64.representable o -> 1 <= o ->
  exists j : Z, o - 1 == inject_Z j * 2 ^ (-52) /\ (0 <= j)%Z.
Proof.
  intros Ho H1. destruct (grid_above_one o Ho H1) as (k & Hk & Hk52).
  exists (k - 2 ^ 52)%Z. split; [|lia].
  unfold Z.sub. rewrite inject_Z_plus, inject_Z_opp, Hk.
  rewrite <- (pow2_Z 52) by lia.
  assert (E : 2 ^ 52 * 2 ^ (-52) == 1) by reflexivity.
  rewrite <- E at 1. ring.
Qed.

(** [x - 1.0], for a float [x >= 1]. *)
Lemma sub_one (o : Q) :
  B64.representable o -> 1 <= o ->
  let d := B64.round (o - 1) in
  (o - 1) * (1 - 2 ^ (-53)) <= d <= (o - 1) * (1 + 2 ^ (-53))
  /\ (d == 0 \/ 2 ^ (-52) <= d).
Proof.
  intros Ho H1 d. subst d.
  destruct (sub_one_grid o Ho H1) as (j & Hj & Hj0).
  destruct (Z.eq_dec j 0%Z) as [E|E].
  - assert (H0 : o - 1 == 0) by (rewrite Hj, E; ring).
    rewrite (round_zero _ H0), H0. split; [|left; reflexivity].
    split; apply Qle_lteq; right; ring.
  - assert (Hge : 2 ^ (-52) <= o - 1).
    { rewrite Hj. rewrite <- (Qmult_1_l (2 ^ (-52))) at 1.
      apply Qmult_le_compat_r; [|apply Qlt_le_weak, pow2_pos].
      change 1 with (inject_Z 1). rewrite <- Zle_Qle. lia. }
    split.
    + apply round_rel. right. eapply Qle_trans; [|exact Hge].
      apply Qle_bool_iff. vm_compute. reflexivity.
    + right. rewrite <- (round_exact (2 ^ (-52))) by (apply representable_pow2; lia).
      apply round_mono, Hge.
Qed.

End Factor.

(** [lra] wants its constants as fractions. *)
Ltac numeral_u :=
  unfold Qdiv in *;
  change (/ 3)%Q with (1 # 3)%Q in *;
  change (2 ^ (-53))%Q with (1 # 9007199254740992)%Q in *.

Section Chain.
Local Open Scope Q_scope.

Lemma round_one : B64.round 1 == 1.
Proof. vm_compute. reflexivity. Qed.

Lemma round_threshold : B64.round 500000 == 500000.
Proof. vm_compute. reflexivity. Qed.

Lemma small_bound_1 : 2 ^ (-52) / 3 <= 1.
Proof. apply Qle_bool_iff. vm_compute. reflexivity. Qed.

Lemma small_bound_2 : 2 ^ (-52) / 3 <= 2 ^ (-52) / 3.
Proof. apply Qle_refl. Qed.

(** The intermediate values of the factor, each within its rounding error. *)
Lemma chain_bounds (env : Q) :
  500000 < env ->
  let x := env / 500000 in
  let o := B64.over_threshold env in
  let d := B64.round (o - 1) in
  let t := B64.round (d / 3) in
  let c := B64.compressed_ratio env in
  B64.representable o /\ 1 <= o
  /\ x * (1 - 2 ^ (-53)) <= o <= x * (1 + 2 ^ (-53))
  /\ (o - 1) * (1 - 2 ^ (-53)) <= d <= (o - 1) * (1 + 2 ^ (-53))
  /\ d / 3 * (1 - 2 ^ (-53)) <= t <= d / 3 * (1 + 2 ^ (-53))
  /\ (1 + t) * (1 - 2 ^ (-53)) <= c <= (1 + t) * (1 + 2 ^ (-53))
  /\ 1 <= c.
Proof.
  intros Henv x o d t c.
  assert (Hx : 1 < x).
  { subst x. apply Qlt_shift_div_l; [reflexivity | lra]. }
  assert (Hrep : B64.representable o) by apply round_representable.
  assert (Ho1 : 1 <= o).
  { rewrite <- round_one. apply round_mono. fold x. lra. }
  assert (Ho : x * (1 - 2 ^ (-53)) <= o <= x * (1 + 2 ^ (-53))).
  { apply round_rel. right. pose proof small_bound_1. lra. }
  destruct (sub_one o Hrep Ho1) as [Hd Hd0]. fold d in Hd, Hd0.
  assert (Hdnn : 0 <= d) by (destruct Hd0 as [H|H]; [lra | pose proof (pow2_pos (-52)); lra]).
  assert (Ht : d / 3 * (1 - 2 ^ (-53)) <= t <= d / 3 * (1 + 2 ^ (-53))).
  { apply round_rel. destruct Hd0 as [H|H].
    - left. rewrite H. reflexivity.
    - right. apply Qmult_le_compat_r; [exact H | apply Qlt_le_weak; reflexivity]. }
  assert (Htnn : 0 <= t) by lra.
  assert (Hc : (1 + t) * (1 - 2 ^ (-53)) <= c <= (1 + t) * (1 + 2 ^ (-53))).
  { apply round_rel. right. pose proof small_bound_1. lra. }
  assert (Hc1 : 1 <= c).
  { rewrite <- round_one. apply round_mono. change (1 <= 1 + t). lra. }
  numeral_u. repeat split; try tauto; lra.
Qed.

End Chain.

Section FactorBounds.
Local Open Scope Q_scope.
Local Notation "'UP'" := (1 + (1 # 9007199254740992)).
Local Notation "'DN'" := (1 - (1 # 9007199254740992)).

Lemma round_just_above_one : B64.round (1 + 2 ^ (-52)) == 1 + 2 ^ (-52).
Proof. vm_compute. reflexivity. Qed.

Lemma round_two_above_one : B64.round (1 + 2 ^ (-51)) == 1 + 2 ^ (-51).
Proof. vm_compute. reflexivity. Qed.

Lemma ratio_at_one : B64.round (1 + B64.round (B64.round (1 - 1) / 3)) == 1.
Proof. vm_compute. reflexivity. Qed.

Lemma ratio_just_above_one :
  B64.round (1 + B64.round (B64.round (1 + 2 ^ (-52) - 1) / 3)) == 1.
Proof. vm_compute. reflexivity. Qed.

Lemma ratio_two_above_one :
  B64.round (1 + B64.round (B64.round (1 + 2 ^ (-51) - 1) / 3)) == 1 + 2 ^ (-52).
Proof. vm_compute. reflexivity. Qed.

(** The compressed ratio never exceeds the exact quotient
    [envelope / threshold]. *)
Lemma compressed_ratio_le (env : Q) :
  500000 < env -> B64.compressed_ratio env <= env / 500000.
Proof.
  intros Henv.
  destruct (chain_bounds env Henv) as (Hrep & Ho1 & Ho & Hd & Ht & Hc & Hc1).
  cbv zeta in *.
  set (x := env / 500000) in *.
  assert (Hx : 1 < x) by (subst x; apply Qlt_shift_div_l; [reflexivity | lra]).
  destruct (Qlt_le_dec x (1 + 2 ^ (-51))) as [Hsmall | Hlarge].
  - assert (Hole : B64.over_threshold env <= 1 + 2 ^ (-51)).
    { rewrite <- round_two_above_one. apply round_mono. fold x. lra. }
    destruct (grid_above_one _ Hrep Ho1) as (k & Hk & Hk52).
    assert (Hk2 : (k <= 2 ^ 52 + 2)%Z).
    { rewrite Zle_Qle. apply (Qmult_le_r _ _ (2 ^ (-52))); [apply pow2_pos|].
      rewrite <- Hk. eapply Qle_trans; [exact Hole|].
      apply Qle_bool_iff. vm_compute. reflexivity. }
    unfold B64.compressed_ratio.
    assert (Hcases : (k = 2 ^ 52 \/ k = 2 ^ 52 + 1 \/ k = 2 ^ 52 + 2)%Z) by lia.
    destruct Hcases as [E | [E | E]]; subst k.
    + assert (E : B64.over_threshold env == 1) by (rewrite Hk; vm_compute; reflexivity).
      rewrite E, ratio_at_one. lra.
    + assert (E : B64.over_threshold env == 1 + 2 ^ (-52))
        by (rewrite Hk; vm_compute; reflexivity).
      rewrite E, ratio_just_above_one. lra.
    + assert (E : B64.over_threshold env == 1 + 2 ^ (-51))
        by (rewrite Hk; vm_compute; reflexivity).
      rewrite E, ratio_two_above_one.
      destruct (Qlt_le_dec x (1 + 2 ^ (-52))) as [Hlt | Hge]; [|exact Hge].
      exfalso.
      assert (Habs : B64.over_threshold env <= 1 + 2 ^ (-52)).
      { rewrite <- round_just_above_one. apply round_mono. fold x. lra. }
      rewrite E in Habs. revert Habs. apply Qlt_not_le. reflexivity.
  - clearbody x. numeral_u.
    change (2 ^ (-51)) with (1 # 2251799813685248) in Hlarge. lra.
Qed.

(** The factor above the threshold: in (0, 1], and within [2^-50] of the
    exact value [1/3 + (2/3) * threshold / envelope]. *)
Lemma factor_bounds (env : Q) :
  B64.is_float env -> 500000 < env ->
  let n := B64.round (500000 * B64.compressed_ratio env) in
  500000 <= n <= env
  /\ 0 < B64.factor env <= 1
  /\ Qabs (B64.factor env - ((1 # 3) + (1000000 # 3) * / env)) <= 2 ^ (-50).
Proof.
  intros [Hrep Hfin] Henv n.
  destruct (chain_bounds env Henv) as (_ & Ho1 & Ho & Hd & Ht & Hc & Hc1).
  pose proof (compressed_ratio_le env Henv) as Hcx.
  cbv zeta in *.
  set (x := env / 500000) in *. set (o := B64.over_threshold env) in *.
  set (d := B64.round (o - 1)) in *. set (t := B64.round (d / 3)) in *.
  set (c := B64.compressed_ratio env) in *.
  rewrite Qabs_pos in Hfin by lra.
  assert (Hx : x * 500000 == env) by (subst x; field).
  destruct (Qinv_spec env) as [Hi Hie]; [lra|].
  set (i := / env) in *.
  set (f := B64.factor env).
  (* the numerator *)
  assert (Hn_hi : n <= env).
  { rewrite <- (round_exact env Hrep). apply round_mono. rewrite <- Hx. lra. }
  assert (Hn_lo : 500000 <= n).
  { rewrite <- round_threshold. apply round_mono. lra. }
  assert (Hn : 500000 * c * DN <= n <= 500000 * c * UP).
  { apply (round_rel (500000 * c)). right. pose proof small_bound_1. lra. }
  (* the quotient *)
  set (w := n * i).
  assert (Hw1 : w <= 1).
  { subst w. rewrite <- Hie. apply Qmult_le_compat_r; lra. }
  assert (Hw0 : 2 ^ (-1022) <= w).
  { subst w. apply Qle_trans with (4 * i).
    - apply Qle_trans with (2 ^ (-1022) * 2 ^ 1024 * i).
      + rewrite <- Qmult_assoc. rewrite <- (Qmult_1_r (2 ^ (-1022))) at 1.
        apply Qmult_le_l; [apply pow2_pos|].
        rewrite <- Hie. rewrite (Qmult_comm env i), (Qmult_comm (2 ^ 1024) i).
        apply Qmult_le_l; lra.
      + apply Qmult_le_compat_r; [|lra].
        apply Qle_bool_iff. vm_compute. reflexivity.
    - apply Qmult_le_compat_r; lra. }
  assert (Hf : w * DN <= f <= w * UP) by exact (round_error_pos w Hw0).
  assert (Hf1 : f <= 1).
  { subst f. rewrite <- round_one. apply round_mono. exact Hw1. }
  (* everything in terms of [r = threshold / envelope] *)
  set (r := 500000 * i).
  assert (Hr0 : 0 < r) by (subst r; lra).
  assert (Hr1 : r < 1).
  { subst r. rewrite <- Hie. apply Qmult_lt_compat_r; assumption. }
  assert (Hxr : x * r == 1).
  { subst x r. rewrite <- Hie. field. }
  assert (Hc_hi : c <= (UP - UP * UP * UP * (1 # 3)) + UP * UP * UP * UP * (1 # 3) * x)
    by (clearbody x o d t c n w f r i; numeral_u; lra).
  assert (Hc_lo : (DN - DN * DN * DN * (1 # 3)) + DN * DN * DN * DN * (1 # 3) * x <= c)
    by (clearbody x o d t c n w f r i; numeral_u; lra).
  assert (Hp_hi : c * r <= (UP - UP * UP * UP * (1 # 3)) * r + UP * UP * UP * UP * (1 # 3)).
  { assert (E : ((UP - UP * UP * UP * (1 # 3)) + UP * UP * UP * UP * (1 # 3) * x) * r
                == (UP - UP * UP * UP * (1 # 3)) * r + UP * UP * UP * UP * (1 # 3)).
    { transitivity ((UP - UP * UP * UP * (1 # 3)) * r
                    + UP * UP * UP * UP * (1 # 3) * (x * r));
        [ring | rewrite Hxr; ring]. }
    rewrite <- E. apply Qmult_le_compat_r; [exact Hc_hi | lra]. }
  assert (Hp_lo : (DN - DN * DN * DN * (1 # 3)) * r + DN * DN * DN * DN * (1 # 3) <= c * r).
  { assert (E : ((DN - DN * DN * DN * (1 # 3)) + DN * DN * DN * DN * (1 # 3) * x) * r
                == (DN - DN * DN * DN * (1 # 3)) * r + DN * DN * DN * DN * (1 # 3)).
    { transitivity ((DN - DN * DN * DN * (1 # 3)) * r
                    + DN * DN * DN * DN * (1 # 3) * (x * r));
        [ring | rewrite Hxr; ring]. }
    rewrite <- E. apply Qmult_le_compat_r; [exact Hc_lo | lra]. }
  assert (Hw_hi : w <= UP * (c * r)).
  { assert (E : UP * (c * r) == 500000 * c * UP * i) by (subst r; ring).
    rewrite E. apply Qmult_le_compat_r; [apply Hn | lra]. }
  assert (Hw_lo : DN * (c * r) <= w).
  { assert (E : DN * (c * r) == 500000 * c * DN * i) by (subst r; ring).
    rewrite E. apply Qmult_le_compat_r; [apply Hn | lra]. }
  assert (HF : (1 # 3) + (1000000 # 3) * i == (1 # 3) + (2 # 3) * r)
    by (subst r; ring).
  set (p := c * r) in *.
  assert (Hw_pos : 0 < w) by (pose proof (pow2_pos (-1022)); lra).
  split; [split; assumption|].
  split; [split; [|exact Hf1]|].
  - clearbody x o d t c n w f r i p. numeral_u. lra.
  - rewrite HF. apply Qabs_Qle_condition.
    change (2 ^ (-50)) with (1 # 1125899906842624).
    clearbody x o d t c n w f r i p. numeral_u. split; lra.
Qed.

End FactorBounds.

Section CompGain.
Local Open Scope Q_scope.

Lemma is_float_one : B64.is_float 1.
Proof. exact (is_float_pow2 0 ltac:(lia)). Qed.

Lemma literal_one : B64.has_value (B64.literal 1) 1.
Proof.
  apply (has_value_comp _ (B64.round 1)); [exact round_one|].
  apply (has_value_literal 1 1 is_float_one). apply Qle_refl.
Qed.

Lemma ratio_value : B64.has_value B64.COMPRESS_RATIO 3.
Proof.
  apply (has_value_comp _ (B64.round 3)); [vm_compute; reflexivity|].
  apply (has_value_literal 3 (2 ^ 2) (is_float_pow2 2 ltac:(lia))).
  apply Qle_bool_iff. reflexivity.
Qed.

Lemma threshold_value :
  exists th, B64.of_int B64.COMPRESS_THRESHOLD = inr th /\ B64.has_value th 500000.
Proof.
  destruct (has_value_of_int B64.COMPRESS_THRESHOLD (2 ^ 19)
              (is_float_pow2 19 ltac:(lia))) as (th & Hth & V).
  { apply Qle_bool_iff. reflexivity. }
  exists th. split; [exact Hth|].
  apply (has_value_comp _ _ _ round_threshold V).
Qed.

Lemma gt_int_finite (q : Q) (z : Z) :
  B64.gt_int (B64.Finite q) z = true <-> inject_Z z < q.
Proof.
  cbn. destruct (Qle_bool q (inject_Z z)) eqn:E; cbn.
  - apply Qle_bool_iff in E. split; [discriminate | intros H; exfalso; lra].
  - split; [intros _ | reflexivity].
    apply Qnot_le_lt. intros H. apply Qle_bool_iff in H. congruence.
Qed.

(** At or below the threshold the factor is the literal [1.0]. *)
Lemma comp_gain_idle (q : Q) :
  q <= 500000 ->
  exists g, B64.comp_gain (B64.Finite q) = inr g /\ B64.has_value g 1.
Proof.
  intros Hq. unfold B64.comp_gain.
  destruct (B64.gt_int (B64.Finite q) B64.COMPRESS_THRESHOLD) eqn:E.
  - apply gt_int_finite in E. change (inject_Z B64.COMPRESS_THRESHOLD) with 500000 in E.
    exfalso. lra.
  - exists (B64.literal 1). split; [reflexivity | exact literal_one].
Qed.

(** Above the threshold no operation overflows and the result is
    [factor]. *)
Lemma comp_gain_value (env : Q) :
  B64.is_float env -> 500000 < env ->
  exists g, B64.comp_gain (B64.Finite env) = inr g
            /\ B64.has_value g (B64.factor env).
Proof.
  intros Hfl Henv.
  destruct (chain_bounds env Henv) as (Hrep & Ho1 & Ho & Hd & Ht & Hc & Hc1).
  pose proof (compressed_ratio_le env Henv) as Hcx.
  destruct (factor_bounds env Hfl Henv) as ([Hn_lo Hn_hi] & _ & _).
  cbv zeta in *.
  assert (Hrepenv : B64.representable env) by apply Hfl.
  set (x := env / 500000) in *. set (o := B64.over_threshold env) in *.
  set (d := B64.round (o - 1)) in *. set (t := B64.round (d / 3)) in *.
  set (c := B64.compressed_ratio env) in *.
  set (n := B64.round (500000 * c)) in *.
  assert (Hxenv : x * 500000 == env) by (subst x; field).
  assert (Ho_env : o <= env).
  { rewrite <- (round_exact env Hrepenv). apply round_mono. fold x.
    clearbody x o d t c n. lra. }
  assert (Hd0 : 0 <= d /\ d <= o).
  { split.
    - clearbody x o d t c n. numeral_u. lra.
    - rewrite <- (round_exact o Hrep). apply round_mono. lra. }
  assert (Ht0 : 0 <= t /\ t <= d).
  { clearbody x o d t c n. numeral_u. split; lra. }
  unfold B64.comp_gain.
  rewrite (proj2 (gt_int_finite env B64.COMPRESS_THRESHOLD) Henv).
  destruct threshold_value as (th & -> & Vth). cbn [mbind B64.R_bind].
  destruct (has_value_div (B64.Finite env) th env 500000 env)
    as (ov & -> & Vov); try assumption.
  { apply has_value_finite. }
  { discriminate. }
  { fold x. rewrite Qabs_pos; clearbody x o d t c n; lra. }
  cbn [mbind B64.R_bind]. fold x in Vov. change (B64.round x) with o in Vov.
  pose proof (has_value_sub ov (B64.literal 1) o 1 env Vov literal_one Hfl) as Vd.
  fold d in Vd.
  assert (Hb1 : Qabs (o - 1) <= env) by (rewrite Qabs_pos; lra).
  specialize (Vd Hb1).
  destruct (has_value_div _ B64.COMPRESS_RATIO d 3 env Vd ratio_value)
    as (ex & -> & Vex); try assumption.
  { discriminate. }
  { rewrite Qabs_pos; clearbody x o d t c n; numeral_u; lra. }
  cbn [mbind B64.R_bind]. fold t in Vex.
  pose proof (has_value_add (B64.literal 1) ex 1 t env literal_one Vex Hfl) as Vc.
  assert (Hb2 : Qabs (1 + t) <= env).
  { rewrite Qabs_pos by lra. clearbody x o d t c n. numeral_u. lra. }
  specialize (Vc Hb2). change (B64.round (1 + t)) with c in Vc.
  pose proof (has_value_mul th _ 500000 c env Vth Vc Hfl) as Vn.
  assert (Hb3 : Qabs (500000 * c) <= env).
  { rewrite Qabs_pos by lra. rewrite <- Hxenv. clearbody x o d t c n. lra. }
  specialize (Vn Hb3). fold n in Vn.
  destruct (has_value_div _ (B64.Finite env) n env 1 Vn (has_value_finite env))
    as (g & Hg & Vg).
  { intros H0. rewrite H0 in Henv. discriminate Henv. }
  { exact is_float_one. }
  { rewrite Qabs_pos.
    - apply Qle_shift_div_r; lra.
    - apply Qle_shift_div_l; lra. }
  exists g. split; [exact Hg | exact Vg].
Qed.

End CompGain.

(** ** The compressor in binary64 *)

Section Compressor64.
Local Open Scope Q_scope.

Lemma pow2_1001 : 2 ^ 1001 == 2 * 2 ^ 1000.
Proof. exact (pow2_succ 1000). Qed.

Lemma pow2_1002 : 2 ^ 1002 == 4 * 2 ^ 1000.
Proof. rewrite (pow2_succ 1001), pow2_1001. ring. Qed.

Lemma sample_bound (z : Z) : (Z.abs z <= 2 ^ 23)%Z -> Qabs (inject_Z z) <= 2 ^ 23.
Proof.
  intros Hz. rewrite (pow2_Z 23) by lia. apply Qabs_Qle_condition.
  rewrite <- inject_Z_opp, <- !Zle_Qle. lia.
Qed.

Lemma of_int_sample (z : Z) :
  (Z.abs z <= 2 ^ 23)%Z ->
  exists x, B64.of_int z = inr x /\ B64.has_value x (inject_Z z).
Proof.
  intros Hz.
  destruct (has_value_of_int z (2 ^ 23) (is_float_pow2 23 ltac:(lia)) (sample_bound z Hz))
    as (x & Hx & V).
  exists x. split; [exact Hx|].
  apply (has_value_comp _ _ _ (round_int z ltac:(lia)) V).
Qed.

Lemma abs_mul_le (a b bound : Q) :
  Qabs a <= 1 -> Qabs b <= bound -> Qabs (a * b) <= bound.
Proof.
  intros Ha Hb. rewrite Qabs_Qmult. rewrite <- (Qmult_1_l bound).
  apply Qmult_le_compat_nonneg; split; try assumption; apply Qabs_nonneg.
Qed.

(** One step of the envelope follower stays finite. *)
Lemma update_envelope_finite (s : B64.settings) (a : Z) (e : Q) :
  (0 <= a <= 2 ^ 23)%Z ->
  B64.representable e -> Qabs e <= 2 ^ 1000 ->
  B64.finite_in (B64.attack_coeff s) (-1) 1 ->
  B64.finite_in (B64.release_coeff s) (-1) 1 ->
  exists e', B64.update_envelope s a (B64.Finite e) = inr (B64.Finite e')
             /\ B64.representable e' /\ Qabs e' <= 2 ^ 1002.
Proof.
  intros Ha Hrep He (ca & Hca & _ & Hcab) (cr & Hcr & _ & Hcrb).
  assert (Hstep : forall coeff c, coeff = B64.Finite c -> -1 <= c <= 1 ->
            exists e', (a0 ← B64.of_int a;
                        inr (B64.add (B64.Finite e)
                               (B64.mul coeff (B64.sub a0 (B64.Finite e)))))
                       = inr (B64.Finite e')
                       /\ B64.representable e' /\ Qabs e' <= 2 ^ 1002).
  { intros coeff c -> Hc.
    destruct (of_int_sample a ltac:(lia)) as (x & -> & Vx). cbn [mbind B64.R_bind].
    pose proof (pow2_pos 1000) as HP.
    assert (H23 : 2 ^ 23 <= 2 ^ 1000) by (apply pow2_le; lia).
    pose proof (sample_bound a ltac:(lia)) as Hab.
    apply Qabs_Qle_condition in Hab. apply Qabs_Qle_condition in He.
    assert (B1 : Qabs (inject_Z a - e) <= 2 ^ 1001).
    { rewrite pow2_1001. apply Qabs_Qle_condition. split; lra. }
    pose proof (has_value_sub x (B64.Finite e) _ e _ Vx (has_value_finite e)
                  (is_float_pow2 1001 ltac:(lia)) B1) as V1.
    pose proof (round_bounded _ _ (representable_pow2 1001 ltac:(lia)) B1) as R1.
    set (r1 := B64.round (inject_Z a - e)) in *.
    assert (B2 : Qabs (c * r1) <= 2 ^ 1001).
    { apply abs_mul_le; [apply Qabs_Qle_condition; exact Hc | exact R1]. }
    pose proof (has_value_mul (B64.Finite c) _ c r1 _ (has_value_finite c) V1
                  (is_float_pow2 1001 ltac:(lia)) B2) as V2.
    pose proof (round_bounded _ _ (representable_pow2 1001 ltac:(lia)) B2) as R2.
    set (r2 := B64.round (c * r1)) in *.
    assert (B3 : Qabs (e + r2) <= 2 ^ 1002).
    { apply Qabs_Qle_condition in R2. rewrite pow2_1001 in R2.
      rewrite pow2_1002. apply Qabs_Qle_condition. split; lra. }
    pose proof (has_value_add (B64.Finite e) _ e r2 _ (has_value_finite e) V2
                  (is_float_pow2 1002 ltac:(lia)) B3) as V3.
    pose proof (round_bounded _ _ (representable_pow2 1002 ltac:(lia)) B3) as R3.
    destruct V3 as (q & Hq & Eq). exists q. split; [now rewrite Hq|].
    split.
    - apply (representable_comp (B64.round (e + r2))); [now symmetry|].
      apply round_representable.
    - rewrite Eq. exact R3. }
  unfold B64.update_envelope.
  destruct (B64.int_gt a (B64.Finite e)).
  - apply (Hstep _ ca Hca Hcab).
  - apply (Hstep _ cr Hcr Hcrb).
Qed.

(** The factor of any finite envelope is a finite float in (0, 1]. *)
Lemma comp_gain_total (e : Q) :
  B64.representable e -> Qabs e <= 2 ^ 1002 ->
  exists g f, B64.comp_gain (B64.Finite e) = inr g
              /\ B64.has_value g f /\ 0 < f <= 1.
Proof.
  intros Hrep He.
  destruct (Qlt_le_dec 500000 e) as [Habove | Hbelow].
  - assert (Hfl : B64.is_float e).
    { split; [exact Hrep|]. eapply Qle_lt_trans; [exact He | apply pow2_lt; lia]. }
    destruct (comp_gain_value e Hfl Habove) as (g & Hg & V).
    destruct (factor_bounds e Hfl Habove) as (_ & Hf & _).
    exists g, (B64.factor e). auto.
  - destruct (comp_gain_idle e Hbelow) as (g & Hg & V).
    exists g, 1. split; [exact Hg | split; [exact V | lra]].
Qed.

(** "Apply gain to sample" with a finite total gain. *)
Lemma apply_gain_value (sample : Z) (total : B64.float) (tq : Q) :
  (Z.abs sample <= 2 ^ 23)%Z ->
  B64.has_value total tq -> Qabs tq <= 2 ^ 900 ->
  exists p, B64.apply_gain sample total = inr (clip (Float.to_int p))
            /\ p == B64.round (inject_Z sample * tq).
Proof.
  intros Hs V Ht. unfold B64.apply_gain.
  destruct (of_int_sample sample Hs) as (x & -> & Vx). cbn [mbind B64.R_bind].
  assert (B : Qabs (inject_Z sample * tq) <= 2 ^ 923).
  { rewrite Qabs_Qmult. replace 923%Z with (23 + 900)%Z by lia. rewrite pow2_add.
    apply Qmult_le_compat_nonneg; split;
      try apply Qabs_nonneg; [apply sample_bound, Hs | exact Ht]. }
  destruct (has_value_mul x total _ tq _ Vx V (is_float_pow2 923 ltac:(lia)) B)
    as (p & -> & Hp).
  exists p. split; [reflexivity | exact Hp].
Qed.

(** [compress_sample] on 24-bit samples, with finite inputs of moderate
    size: it returns, and this is what it returns. *)
Lemma compress_sample_value (s : B64.settings) (sample : Z) (e g : Q) :
  (Z.abs sample <= 2 ^ 23)%Z ->
  B64.representable e -> Qabs e <= 2 ^ 1000 ->
  B64.finite_in (B64.attack_coeff s) (-1) 1 ->
  B64.finite_in (B64.release_coeff s) (-1) 1 ->
  B64.representable g -> 0 <= g <= 2 ^ 900 ->
  exists (e' f p : Q),
    B64.compress_sample s sample (B64.Finite e) (B64.Finite g)
    = inr (clip (Float.to_int p), B64.Finite e')
    /\ B64.representable e'
    /\ 0 < f <= 1
    /\ p == B64.round (inject_Z sample * B64.round (g * f)).
Proof.
  intros Hs Hrep He Hca Hcr Hg Hgb. unfold B64.compress_sample. cbv zeta.
  destruct (update_envelope_finite s (Z.abs sample) e ltac:(lia) Hrep He Hca Hcr)
    as (e' & -> & Hrep' & He'). cbn [mbind B64.R_bind].
  destruct (comp_gain_total e' Hrep' He') as (cg & f & -> & Vf & Hf).
  cbn [mbind B64.R_bind].
  assert (Bg : Qabs (g * f) <= 2 ^ 900).
  { rewrite Qabs_pos by (apply Qmult_le_0_compat; lra).
    apply Qle_trans with (g * 1); [|lra].
    apply Qmult_le_compat_nonneg; split; lra. }
  pose proof (has_value_mul (B64.Finite g) cg g f _ (has_value_finite g) Vf
                (is_float_pow2 900 ltac:(lia)) Bg) as Vt.
  pose proof (round_bounded _ _ (representable_pow2 900 ltac:(lia)) Bg) as Rt.
  destruct (apply_gain_value sample _ _ Hs Vt Rt) as (p & -> & Hp).
  cbn [mbind B64.R_bind].
  exists e', f, p. auto.
Qed.

End Compressor64.

Section Claims64.
Local Open Scope Q_scope.

Lemma to_int_nonpos (q : Q) :
  q <= 0 -> (Float.to_int q <= 0)%Z /\ q <= inject_Z (Float.to_int q).
Proof.
  intros Hq. destruct (to_int_nonneg (- q) ltac:(lra)) as [H0 H1].
  rewrite to_int_opp in H0, H1. rewrite inject_Z_opp in H1. split; [lia | lra].
Qed.

Lemma clip_nonpos (output : Z) : (output <= 0)%Z -> (output <= clip output <= 0)%Z.
Proof.
  intros H. pose proof (clip_nonneg (- output) ltac:(lia)) as Hc.
  rewrite clip_opp in Hc. lia.
Qed.







(** The product is rounded before [int()] truncates it: [8738 *
    0.5001144426642252] is just below 4370 in the reals and is 4370.0 in
    binary64, so the output is 4370. *)
Example compress_sample_rounds_product :
  exists envelope',
    B64.compress_sample B64.initial_settings 8738 (B64.Finite 0)
      (B64.Finite (281539402203151 # 562949953421312))
    = inr (4370%Z, envelope')
    /\ inject_Z 8738 * (281539402203151 # 562949953421312) < 4370.
Proof. eexists. split; [vm_compute; reflexivity | reflexivity]. Qed.



End Claims64.

(** * The microphone level meter *)

Lemma string_length_append (a b : string) :
  String.length (String.append a b) = (String.length a + String.length b)%nat.
Proof. induction a as [| c a IH]; simpl; [reflexivity | now rewrite IH]. Qed.

Lemma repeat_string_length (s : string) (n : nat) :
  String.length (Meter.repeat_string s n) = (n * String.length s)%nat.
Proof.
  induction n as [| n IH]; simpl; [reflexivity |].
  now rewrite string_length_append, IH.
Qed.

Lemma level_range (x : Z) : 0 <= Meter.level x <= 20.
Proof.
  unfold Meter.level.
  pose proof (Z.div_pos (Z.abs x) 500 ltac:(lia) ltac:(lia)). lia.
Qed.

(** [X19] The level bar is always exactly 20 characters wide; the level is
    in 0..20, does not depend on the sign of the value, grows with its
    magnitude, is 0 exactly below magnitude 500 and 20 exactly from
    magnitude 10000 on. *)
Theorem meter_bar (x y : Z) :
  String.length (Meter.bar (Meter.level x)) = 20%nat
  /\ 0 <= Meter.level x <= 20
  /\ Meter.level (- x) = Meter.level x
  /\ (Z.abs x <= Z.abs y -> Meter.level x <= Meter.level y)
  /\ (Meter.level x = 0 <-> Z.abs x < 500)
  /\ (Meter.level x = 20 <-> 10000 <= Z.abs x).
Proof.
  pose proof (level_range x) as Hr.
  split.
  { unfold Meter.bar, Meter.str_mul.
    rewrite string_length_append, !repeat_string_length. simpl String.length. lia. }
  split; [exact Hr |].
  split; [unfold Meter.level; now rewrite Z.abs_opp |].
  unfold Meter.level.
  pose proof (Z.div_pos (Z.abs x) 500 ltac:(lia) ltac:(lia)) as Hq.
  split.
  { intros Hle.
    pose proof (Z.div_le_mono (Z.abs x) (Z.abs y) 500 ltac:(lia) Hle). lia. }
  split.
  - split; intros H.
    + assert (Hz : Z.abs x / 500 = 0) by lia.
      apply Z.div_small_iff in Hz; lia.
    + rewrite Z.div_small by lia. reflexivity.
  - split; intros H.
    + assert (Hz : 20 <= Z.abs x / 500) by lia.
      pose proof (Z.mul_div_le (Z.abs x) 500 ltac:(lia)). lia.
    + pose proof (Z.div_le_mono 10000 (Z.abs x) 500 ltac:(lia) H) as Hd.
      change (10000 / 500) with 20 in Hd. lia.
Qed.

Lemma meter_bar_witness :
  Meter.level 499 <= Meter.level (-12000).
Proof.
  refine (proj1 (proj2 (proj2 (proj2 (meter_bar 499 (-12000))))) _). lia.
Defined.

(** Truncation toward zero stays between integer bounds on either side of
    zero. *)
Lemma to_int_between (q : Q) (a b : Z) :
  a <= 0 <= b -> (inject_Z a <= q <= inject_Z b)%Q ->
  a <= Float.to_int q <= b.
Proof.
  intros Hab [Ha Hb].
  destruct (Qlt_le_dec q 0) as [Hneg | Hpos].
  - assert (Hq : (0 <= - q)%Q) by lra.
    destruct (to_int_nonneg _ Hq) as [H0 H1]. rewrite to_int_opp in H0, H1.
    assert (H2 : (inject_Z (- Float.to_int q) <= inject_Z (- a))%Q).
    { rewrite !inject_Z_opp. rewrite inject_Z_opp in H1.
      set (t := inject_Z (Float.to_int q)) in *.
      set (a' := inject_Z a) in *. lra. }
    rewrite <- Zle_Qle in H2. lia.
  - destruct (to_int_nonneg _ Hpos) as [H0 H1].
    assert (H2 : (inject_Z (Float.to_int q) <= inject_Z b)%Q)
      by (apply Qle_trans with q; assumption).
    rewrite <- Zle_Qle in H2. lia.
Qed.

Lemma dc_track_in_range (dc : Q) (x : Z) :
  Meter.dc_in_range dc -> - 2 ^ 23 <= x <= 2 ^ 23 - 1 ->
  Meter.dc_in_range (Meter.dc_track dc x).
Proof.
  unfold Meter.dc_in_range, Meter.dc_track, Float.of_int. intros [Hlo Hhi] [Hx0 Hx1].
  rewrite Zle_Qle in Hx0, Hx1.
  set (lo := inject_Z (- 2 ^ 23)) in *. set (hi := inject_Z (2 ^ 23 - 1)) in *.
  set (v := inject_Z x) in *. split; lra.
Qed.

(** [X20] The DC estimates stay within the range of the 24-bit samples, and
    the value the meter prints for a channel lies in -65536..65535. *)
Theorem meter_value_range (buffer : list Z) (num_read : Z)
    (dc_left dc_right : Q) (out : option Meter.line) (dc_left' dc_right' : Q) :
  Forall is_byte buffer ->
  Meter.dc_in_range dc_left -> Meter.dc_in_range dc_right ->
  Meter.step buffer num_read dc_left dc_right = Some (out, dc_left', dc_right') ->
  Meter.dc_in_range dc_left' /\ Meter.dc_in_range dc_right'
  /\ forall l, out = Some l ->
       - 65536 <= Meter.left_16 l <= 65535
       /\ - 65536 <= Meter.right_16 l <= 65535.
Proof.
  intros Hb Hl Hr. unfold Meter.step.
  destruct (8 <=? num_read).
  2:{ intros Heq. inversion Heq; subst.
      split; [exact Hl |]. split; [exact Hr |]. intros l Hnone. discriminate Hnone. }
  do 8 (match goal with
        | |- (?o ≫= _) = _ -> _ =>
            let b := fresh "b" in let Hb := fresh "Hlk" in
            destruct o as [b |] eqn:Hb; cbn [mbind option_bind]; [| discriminate]
        end).
  assert (Hbytes : forall k z, buffer !! k = Some z -> is_byte z).
  { intros k z Hk. rewrite Forall_lookup in Hb. exact (Hb k z Hk). }
  pose proof (decode_range b b0 b1 b2 (Hbytes _ _ Hlk) (Hbytes _ _ Hlk0)
                (Hbytes _ _ Hlk1) (Hbytes _ _ Hlk2)) as Hdl.
  pose proof (decode_range b3 b4 b5 b6 (Hbytes _ _ Hlk3) (Hbytes _ _ Hlk4)
                (Hbytes _ _ Hlk5) (Hbytes _ _ Hlk6)) as Hdr.
  set (xl := decode b b0 b1 b2) in *. set (xr := decode b3 b4 b5 b6) in *.
  pose proof (dc_track_in_range dc_left xl Hl Hdl) as Hl'.
  pose proof (dc_track_in_range dc_right xr Hr Hdr) as Hr'.
  intros Heq. inversion Heq; subst. split; [exact Hl' |]. split; [exact Hr' |].
  intros l Hlne. inversion Hlne; subst l. cbn [Meter.left_16 Meter.right_16].
  assert (Hrange : forall x dc, - 2 ^ 23 <= x <= 2 ^ 23 - 1 ->
                     Meter.dc_in_range dc ->
                     - 65536 <= Meter.remove_dc x dc <= 65535).
  { intros x dc Hx Hdc. unfold Meter.remove_dc.
    pose proof (to_int_between dc (- 2 ^ 23) (2 ^ 23 - 1) ltac:(lia) Hdc) as Hi.
    rewrite Z.shiftr_div_pow2 by lia. change (2 ^ 8) with 256.
    split.
    - apply Z.div_le_lower_bound; lia.
    - assert ((x - Float.to_int dc) / 256 < 65536)
        by (apply Z.div_lt_upper_bound; lia).
      lia. }
  split; apply Hrange; assumption.
Qed.

Lemma meter_value_range_witness :
  - 65536 <= Meter.remove_dc (decode 0 0xFF 0xFF 0x7F)
               (Meter.dc_track (inject_Z (- 2 ^ 23)) (decode 0 0xFF 0xFF 0x7F))
  <= 65535.
Proof.
  assert (Hb : Forall is_byte [0; 0xFF; 0xFF; 0x7F; 0; 0; 0; 0])
    by (repeat constructor; unfold is_byte; lia).
  assert (Hdc : Meter.dc_in_range (inject_Z (- 2 ^ 23)))
    by (unfold Meter.dc_in_range; split; discriminate).
  destruct (meter_value_range [0; 0xFF; 0xFF; 0x7F; 0; 0; 0; 0] 8
              (inject_Z (- 2 ^ 23)) (inject_Z (- 2 ^ 23)) _ _ _ Hb Hdc Hdc eq_refl)
    as (_ & _ & H).
  exact (proj1 (H _ eq_refl)).
Defined.

(** ** The host-side plotter *)

Lemma starts_with_spec (p s : string) :
  Plot.starts_with p s = true <-> exists post, s = String.append p post.
Proof.
  revert s; induction p as [|a p IH]; intros s; cbn.
  - split; [intros _; exists s; reflexivity | reflexivity].
  - destruct s as [|b s].
    + split; [discriminate | intros [post H]; discriminate H].
    + rewrite andb_true_iff, Ascii.eqb_eq, IH. split.
      * intros [-> [post ->]]. exists post; reflexivity.
      * intros [post H]. injection H as -> ->. split; [reflexivity | eauto].
Qed.

Lemma is_in_spec (p s : string) : Plot.is_in p s = true <-> Plot.contains p s.
Proof.
  unfold Plot.contains. induction s as [|b s IH].
  - cbn [Plot.is_in]. rewrite orb_false_r, starts_with_spec. split.
    + intros [post H]. exists EmptyString, post. exact H.
    + intros [pre [post H]]. destruct pre; [exists post; exact H|discriminate H].
  - cbn [Plot.is_in]. rewrite orb_true_iff, starts_with_spec, IH. split.
    + intros [[post H] | [pre [post H]]].
      * exists EmptyString, post. exact H.
      * exists (String b pre), post. cbn. rewrite H. reflexivity.
    + intros [pre [post H]]. destruct pre as [|c pre].
      * left. exists post. exact H.
      * right. cbn in H. injection H as _ H. eauto.
Qed.

Lemma is_in_false (p s : string) : Plot.is_in p s = false <-> ~ Plot.contains p s.
Proof.
  rewrite <- is_in_spec. destruct (Plot.is_in p s); split; congruence.
Qed.

Lemma looks_like_pico_spec (p : Plot.port) :
  Plot.looks_like_pico p = true
  <-> Plot.contains "ttyACM" (Plot.device p)
      \/ Plot.contains "usbmodem" (Plot.device p).
Proof.
  unfold Plot.looks_like_pico. rewrite orb_true_iff, !is_in_spec. reflexivity.
Qed.

Lemma looks_like_pico_false (p : Plot.port) :
  Plot.looks_like_pico p = false <-> Plot.no_pico p.
Proof.
  unfold Plot.looks_like_pico, Plot.no_pico. rewrite orb_false_iff, !is_in_false. reflexivity.
Qed.

(** [X22] [find_pico_port] returns the device of the first port whose device
    name contains [ttyACM] or [usbmodem], after announcing it; it returns
    [None], and prints nothing, exactly when no port has such a name. *)
Theorem find_pico_port_first_match (ports : list Plot.port) :
  match Plot.find_pico_port ports with
  | (printed, Some d) =>
      exists pre p post,
        ports = pre ++ p :: post /\ d = Plot.device p /\
        (Plot.contains "ttyACM" d \/ Plot.contains "usbmodem" d) /\
        Forall Plot.no_pico pre /\
        printed = [String.append "Found potential Pico at: " d]
  | (printed, None) => Forall Plot.no_pico ports /\ printed = []
  end.
Proof.
  induction ports as [|q ports IH]; cbn [Plot.find_pico_port].
  - split; constructor.
  - destruct (Plot.looks_like_pico q) eqn:Hq.
    + apply looks_like_pico_spec in Hq.
      exists [], q, ports. split; [reflexivity|]. split; [reflexivity|].
      split; [exact Hq|]. split; [constructor | reflexivity].
    + apply looks_like_pico_false in Hq.
      destruct (Plot.find_pico_port ports) as [printed [d|]].
      * destruct IH as (pre & p & post & -> & -> & Hd & Hpre & ->).
        exists (q :: pre), p, post. split; [reflexivity|]. split; [reflexivity|].
        split; [exact Hd|]. split; [constructor; assumption | reflexivity].
      * destruct IH as [Hall ->]. split; [constructor; assumption | reflexivity].
Qed.


(** *** The rolling window *)

Lemma deque_append_full (d : list Q) (x : Q) :
  length d = Plot.BUFFER_SIZE -> Plot.deque_append d x = drop 1 (d ++ [x]).
Proof.
  intros Hd. unfold Plot.deque_append. rewrite Hd, Nat.leb_refl.
  destruct d; [discriminate Hd | reflexivity].
Qed.

Lemma deque_append_length (d : list Q) (x : Q) :
  length d = Plot.BUFFER_SIZE -> length (Plot.deque_append d x) = Plot.BUFFER_SIZE.
Proof.
  intros Hd. rewrite deque_append_full by exact Hd.
  rewrite length_drop, length_app, Hd. cbn. reflexivity.
Qed.

Lemma deque_append_nonempty (d : list Q) (x : Q) : Plot.deque_append d x <> [].
Proof.
  unfold Plot.deque_append.
  destruct (Plot.BUFFER_SIZE <=? length d)%nat; intros H;
    apply app_eq_nil in H; destruct H as [_ H]; discriminate H.
Qed.

Lemma deque_window (xs d : list Q) :
  length d = Plot.BUFFER_SIZE ->
  fold_left Plot.deque_append xs d = drop (length xs) (d ++ xs)
  /\ length (fold_left Plot.deque_append xs d) = Plot.BUFFER_SIZE.
Proof.
  revert d; induction xs as [|x xs IH]; intros d Hd.
  - cbn. rewrite app_nil_r. split; [reflexivity | exact Hd].
  - cbn [fold_left length].
    destruct (IH _ (deque_append_length d x Hd)) as [Heq Hlen].
    split; [|exact Hlen].
    rewrite Heq, deque_append_full by exact Hd.
    destruct d as [|y d]; [discriminate Hd|]. cbn. rewrite drop_0.
    rewrite <- app_assoc. reflexivity.
Qed.

Lemma deque_fold_nonempty (xs d : list Q) :
  xs <> [] \/ d <> [] -> fold_left Plot.deque_append xs d <> [].
Proof.
  revert d; induction xs as [|x xs IH]; intros d H.
  - cbn. destruct H as [H | H]; [contradiction | exact H].
  - cbn. apply IH. right. apply deque_append_nonempty.
Qed.

(** *** Splitting a line *)

Lemma split_comma_nonempty (s : string) : Plot.split_comma s <> [].
Proof.
  induction s as [|c s IH]; cbn [Plot.split_comma]; [discriminate|].
  destruct (Ascii.eqb c ","); [discriminate|].
  destruct (Plot.split_comma s); discriminate.
Qed.

Lemma split_comma_no_comma (s : string) :
  Plot.is_in "," s = false -> Plot.split_comma s = [s].
Proof.
  induction s as [|c s IH];
    cbn [Plot.split_comma Plot.is_in Plot.starts_with]; [reflexivity|].
  rewrite orb_false_iff, andb_true_r. intros [Hc Hs].
  rewrite Ascii.eqb_sym, Hc, (IH Hs). reflexivity.
Qed.

Lemma split_comma_two (l p0 p1 : string) :
  Plot.split_comma l = [p0; p1] ->
  (l =? EmptyString)%string = false /\ Plot.is_in "," l = true.
Proof.
  intros H. split.
  - destruct l; [discriminate H | reflexivity].
  - destruct (Plot.is_in "," l) eqn:E; [reflexivity|].
    rewrite (split_comma_no_comma l E) in H. discriminate H.
Qed.

(** *** One call of [update] *)

Section UpdateFacts.
Variable parse_float : string -> option Q.

Lemma handler_inr (c c' : Plot.call) :
  Plot.handler c = inr c' ->
  Plot.shared c' = Plot.shared c /\ Plot.samples_read c' = Plot.samples_read c
  /\ Plot.line_data c' = Plot.line_data c /\ Plot.line_data c <> None
  /\ List.filter Plot.is_warning (Plot.log c')
     = List.filter Plot.is_warning (Plot.log c).
Proof.
  unfold Plot.handler. destruct (Plot.line_data c) eqn:E; [|discriminate].
  intros H; injection H as <-. cbn. rewrite List.filter_app. cbn.
  rewrite app_nil_r. repeat split; discriminate.
Qed.

Lemma handler_inl (c : Plot.call) (e : Plot.exn) :
  Plot.handler c = inl e -> e = Plot.UnboundLocalError /\ Plot.line_data c = None.
Proof.
  unfold Plot.handler. destruct (Plot.line_data c); [discriminate|].
  intros H; injection H as <-. split; reflexivity.
Qed.

(** What one pass of the loop does, by what the line contributes. *)
Lemma read_line_inr (raw : option string) (c c' : Plot.call) :
  Plot.read_line parse_float raw c = inr c' ->
  Plot.total_samples (Plot.shared c') = Plot.total_samples (Plot.shared c)
  /\ Plot.empty_frames (Plot.shared c') = Plot.empty_frames (Plot.shared c)
  /\ Plot.line_data c' <> None
  /\ List.filter Plot.is_warning (Plot.log c')
     = List.filter Plot.is_warning (Plot.log c)
  /\ match raw ≫= Plot.sample_of parse_float with
     | Some (a, b) =>
         Plot.voltage_left (Plot.shared c')
         = Plot.deque_append (Plot.voltage_left (Plot.shared c)) a
         /\ Plot.voltage_right (Plot.shared c')
            = Plot.deque_append (Plot.voltage_right (Plot.shared c)) b
         /\ Plot.samples_read c' = Plot.samples_read c + 1
     | None =>
         Plot.voltage_left (Plot.shared c') = Plot.voltage_left (Plot.shared c)
         /\ Plot.voltage_right (Plot.shared c')
            = Plot.voltage_right (Plot.shared c)
         /\ Plot.samples_read c' = Plot.samples_read c
     end.
Proof.
  destruct raw as [l|]; cbn [Plot.read_line mbind option_bind].
  2:{ intros H. apply handler_inr in H.
      destruct H as (Hs & Hn & Hl & Hb & Hw). rewrite Hs, Hn, Hl.
      repeat split; auto. }
  unfold Plot.sample_of.
  set (c1 := {| Plot.shared := Plot.shared c; Plot.line_data := Some l;
                Plot.samples_read := Plot.samples_read c;
                Plot.log := Plot.log c |}).
  assert (Hskip : forall c', (inr c1 : Plot.exn + Plot.call) = inr c' ->
            Plot.total_samples (Plot.shared c') = Plot.total_samples (Plot.shared c)
            /\ Plot.empty_frames (Plot.shared c') = Plot.empty_frames (Plot.shared c)
            /\ Plot.line_data c' <> None
            /\ List.filter Plot.is_warning (Plot.log c')
               = List.filter Plot.is_warning (Plot.log c)
            /\ Plot.voltage_left (Plot.shared c') = Plot.voltage_left (Plot.shared c)
            /\ Plot.voltage_right (Plot.shared c')
               = Plot.voltage_right (Plot.shared c)
            /\ Plot.samples_read c' = Plot.samples_read c).
  { intros c2 H. injection H as <-. cbn. repeat split; discriminate. }
  assert (Hhandler : forall c', Plot.handler c1 = inr c' ->
            Plot.total_samples (Plot.shared c') = Plot.total_samples (Plot.shared c)
            /\ Plot.empty_frames (Plot.shared c') = Plot.empty_frames (Plot.shared c)
            /\ Plot.line_data c' <> None
            /\ List.filter Plot.is_warning (Plot.log c')
               = List.filter Plot.is_warning (Plot.log c)
            /\ Plot.voltage_left (Plot.shared c') = Plot.voltage_left (Plot.shared c)
            /\ Plot.voltage_right (Plot.shared c')
               = Plot.voltage_right (Plot.shared c)
            /\ Plot.samples_read c' = Plot.samples_read c).
  { intros c2 H. apply handler_inr in H.
    destruct H as (Hs & Hn & Hl & Hb & Hw). rewrite Hs, Hn, Hl, Hw.
    cbn. repeat split; discriminate. }
  destruct (Plot.split_comma l) as [|p0 [|p1 [|p2 parts]]] eqn:Hsplit.
  - destruct (_ && _); cbn [length Nat.eqb]; apply Hskip.
  - destruct (_ && _); cbn [length Nat.eqb]; apply Hskip.
  - destruct (split_comma_two l p0 p1 Hsplit) as [-> ->].
    cbn [negb andb length Nat.eqb].
    destruct (parse_float p0) as [a|]; [|apply Hhandler].
    destruct (parse_float p1) as [b|]; [|apply Hhandler].
    intros H; injection H as <-. cbn.
    repeat split; try discriminate.
    destruct (_ =? 1); [|reflexivity].
    rewrite List.filter_app. cbn. apply app_nil_r.
  - destruct (_ && _); cbn [length Nat.eqb]; apply Hskip.
Qed.

Lemma read_line_inl (raw : option string) (c : Plot.call) (e : Plot.exn) :
  Plot.read_line parse_float raw c = inl e ->
  e = Plot.UnboundLocalError /\ raw = None /\ Plot.line_data c = None.
Proof.
  destruct raw as [l|]; cbn [Plot.read_line].
  2:{ intros H. apply handler_inl in H. destruct H; auto. }
  set (c1 := {| Plot.shared := Plot.shared c; Plot.line_data := Some l;
                Plot.samples_read := Plot.samples_read c;
                Plot.log := Plot.log c |}).
  assert (Hh : Plot.handler c1 <> inl e).
  { intros H. apply handler_inl in H. destruct H as [_ H]. discriminate H. }
  destruct (_ && _); [|discriminate].
  destruct (_ =? _)%nat; [|discriminate].
  destruct (Plot.split_comma l) as [|p0 [|p1 [|p2 parts]]]; try discriminate.
  destruct (parse_float p0); [|intros H; contradiction].
  destruct (parse_float p1); [|intros H; contradiction].
  discriminate.
Qed.

Lemma read_lines_bound (lines : list (option string)) (c : Plot.call) :
  Plot.line_data c <> None ->
  exists c', Plot.read_lines parse_float lines c = inr c'.
Proof.
  revert c; induction lines as [|raw lines IH]; intros c Hc; cbn.
  - eauto.
  - destruct (Plot.read_line parse_float raw c) as [e|c1] eqn:E.
    + apply read_line_inl in E. destruct E as (_ & _ & E). contradiction.
    + apply IH. apply read_line_inr in E. tauto.
Qed.

Lemma read_lines_inr (lines : list (option string)) (c c' : Plot.call) :
  Plot.read_lines parse_float lines c = inr c' ->
  let xs := Plot.samples_of parse_float lines in
  Plot.total_samples (Plot.shared c') = Plot.total_samples (Plot.shared c)
  /\ Plot.empty_frames (Plot.shared c') = Plot.empty_frames (Plot.shared c)
  /\ List.filter Plot.is_warning (Plot.log c')
     = List.filter Plot.is_warning (Plot.log c)
  /\ Plot.voltage_left (Plot.shared c')
     = fold_left Plot.deque_append (map fst xs) (Plot.voltage_left (Plot.shared c))
  /\ Plot.voltage_right (Plot.shared c')
     = fold_left Plot.deque_append (map snd xs) (Plot.voltage_right (Plot.shared c))
  /\ Plot.samples_read c' = Plot.samples_read c + Z.of_nat (length xs).
Proof.
  revert c; induction lines as [|raw lines IH]; intros c; cbn [Plot.read_lines].
  - intros H; injection H as <-. cbn. repeat split; lia.
  - destruct (Plot.read_line parse_float raw c) as [e|c1] eqn:E; [discriminate|].
    intros H. apply IH in H. apply read_line_inr in E.
    destruct E as (Et & Ee & _ & Ew & E).
    destruct H as (Ht & He & Hw & Hl & Hr & Hn).
    unfold Plot.samples_of in *. cbn [omap list_omap].
    rewrite Ht, He, Hw, Hl, Hr, Hn, Et, Ee, Ew.
    destruct (raw ≫= Plot.sample_of parse_float) as [[a b]|].
    + destruct E as (-> & -> & ->). cbn [map fst snd fold_left length].
      repeat split; lia.
    + destruct E as (-> & -> & ->). repeat split; lia.
Qed.

Lemma read_lines_start (lines : list (option string)) (s : Plot.state) :
  let c0 := {| Plot.shared := s; Plot.line_data := None;
               Plot.samples_read := 0; Plot.log := [] |} in
  match Plot.read_lines parse_float lines c0 with
  | inl e => e = Plot.UnboundLocalError /\ head lines = Some None
  | inr _ => head lines <> Some None
  end.
Proof.
  intros c0. destruct lines as [|raw lines]; cbn [Plot.read_lines head].
  - discriminate.
  - destruct (Plot.read_line parse_float raw c0) as [e|c1] eqn:E.
    + apply read_line_inl in E. destruct E as (-> & -> & _). split; reflexivity.
    + assert (Hraw : raw <> None).
      { intros ->. cbn in E. discriminate E. }
      apply read_line_inr in E. destruct E as (_ & _ & Hb & _).
      destruct (read_lines_bound lines c1 Hb) as [c' ->].
      intros H. injection H as H. contradiction.
Qed.

Lemma py_max_nonempty (d : list Q) : d <> [] -> exists x, Plot.py_max d = Some x.
Proof. destruct d; [contradiction | cbn; eauto]. Qed.

Lemma py_min_nonempty (d : list Q) : d <> [] -> exists x, Plot.py_min d = Some x.
Proof. destruct d; [contradiction | cbn; eauto]. Qed.

Lemma last_nonempty (d : list Q) : d <> [] -> exists x, last d = Some x.
Proof.
  intros H. destruct (last d) eqn:E; [eauto|].
  apply last_None in E. contradiction.
Qed.

(** When the loop ends normally, so does the call, and the shared state is
    the one the loop left, with the counters updated. *)
Lemma finish_ok (c : Plot.call) (lines : list (option string)) (c0 : Plot.call) :
  Plot.read_lines parse_float lines c0 = inr c ->
  Plot.samples_read c0 = 0 ->
  exists s' evs,
    Plot.finish c = inr (s', evs)
    /\ Plot.voltage_left s' = Plot.voltage_left (Plot.shared c)
    /\ Plot.voltage_right s' = Plot.voltage_right (Plot.shared c)
    /\ Plot.total_samples s'
       = Plot.total_samples (Plot.shared c) + Plot.samples_read c
    /\ (0 < Plot.samples_read c -> Plot.empty_frames s' = 0
          /\ List.filter Plot.is_warning evs
             = List.filter Plot.is_warning (Plot.log c))
    /\ (Plot.samples_read c = 0 ->
          let e := Plot.empty_frames (Plot.shared c) + 1 in
          Plot.empty_frames s' = (if e =? 40 then 0 else e)
          /\ List.filter Plot.is_warning evs
             = List.filter Plot.is_warning (Plot.log c)
               ++ (if e =? 40
                   then [Plot.Warning (Plot.total_samples (Plot.shared c))]
                   else [])).
Proof.
  intros Hread H0. apply read_lines_inr in Hread. cbn zeta in Hread.
  destruct Hread as (_ & _ & _ & Hl & Hr & Hn). rewrite H0 in Hn.
  unfold Plot.finish.
  destruct (0 <? Plot.samples_read c) eqn:Hpos.
  - apply Z.ltb_lt in Hpos.
    assert (Hne : Plot.samples_of parse_float lines <> []).
    { intros E. rewrite E in Hn. cbn in Hn. lia. }
    assert (Hnl : Plot.voltage_left (Plot.shared c) <> []).
    { rewrite Hl. apply deque_fold_nonempty. left.
      destruct (Plot.samples_of parse_float lines); [contradiction|discriminate]. }
    assert (Hnr : Plot.voltage_right (Plot.shared c) <> []).
    { rewrite Hr. apply deque_fold_nonempty. left.
      destruct (Plot.samples_of parse_float lines); [contradiction|discriminate]. }
    destruct (last_nonempty _ Hnl) as [cl ->].
    destruct (py_max_nonempty _ Hnl) as [maxl ->].
    destruct (py_min_nonempty _ Hnl) as [minl ->].
    destruct (last_nonempty _ Hnr) as [cr ->].
    destruct (py_max_nonempty _ Hnr) as [maxr ->].
    destruct (py_min_nonempty _ Hnr) as [minr ->].
    eexists _, _. split; [reflexivity|]. cbn.
    repeat split; try lia.
    rewrite List.filter_app. cbn. apply app_nil_r.
  - apply Z.ltb_ge in Hpos.
    assert (Hz : Plot.samples_read c = 0) by lia.
    destruct (Plot.empty_frames (Plot.shared c) + 1 =? 40) eqn:He;
      eexists _, _; (split; [reflexivity|]); cbn; rewrite ?He;
      repeat split; try lia.
    + rewrite List.filter_app. reflexivity.
    + rewrite app_nil_r. reflexivity.
Qed.

End UpdateFacts.

Lemma update_cases (parse_float : string -> option Q)
    (lines : list (option string)) (s : Plot.state) :
  match Plot.update parse_float lines s with
  | inl e => e = Plot.UnboundLocalError /\ head lines = Some None
  | inr (s', evs) =>
      head lines <> Some None
      /\ let xs := Plot.samples_of parse_float lines in
         Plot.voltage_left s'
         = fold_left Plot.deque_append (map fst xs) (Plot.voltage_left s)
         /\ Plot.voltage_right s'
            = fold_left Plot.deque_append (map snd xs) (Plot.voltage_right s)
         /\ Plot.total_samples s' = Plot.total_samples s + Z.of_nat (length xs)
         /\ (xs <> [] -> Plot.empty_frames s' = 0
               /\ List.filter Plot.is_warning evs = [])
         /\ (xs = [] ->
               let e := Plot.empty_frames s + 1 in
               Plot.empty_frames s' = (if e =? 40 then 0 else e)
               /\ List.filter Plot.is_warning evs
                  = if e =? 40 then [Plot.Warning (Plot.total_samples s)] else [])
  end.
Proof.
  unfold Plot.update.
  pose proof (read_lines_start parse_float lines s) as Hstart. cbn zeta in Hstart.
  destruct (Plot.read_lines parse_float lines _) as [e|c] eqn:Hread;
    [exact Hstart|].
  destruct (finish_ok parse_float c lines _ Hread eq_refl)
    as (s' & evs & -> & Hl & Hr & Ht & Hpos & Hzero).
  apply read_lines_inr in Hread. cbn zeta in Hread. cbn in Hread.
  destruct Hread as (Et & Ee & Ew & El & Er & En).
  split; [exact Hstart|]. cbn zeta.
  rewrite Hl, Hr, Ht, El, Er, Et, En.
  split; [reflexivity|]. split; [reflexivity|]. split; [reflexivity|].
  split.
  - intros Hne.
    assert (Hp : 0 < Plot.samples_read c).
    { rewrite En. destruct (Plot.samples_of parse_float lines);
        [contradiction | cbn [length]; lia]. }
    destruct (Hpos Hp) as [-> ->]. rewrite Ew. split; reflexivity.
  - intros Hnil.
    assert (Hz : Plot.samples_read c = 0).
    { rewrite En, Hnil. reflexivity. }
    destruct (Hzero Hz) as [He Hw]. cbn zeta in He, Hw.
    rewrite Ee in He, Hw. rewrite Et, Ew in Hw. split; assumption.
Qed.

(** [X23] A call of [update] whose first line decodes ends normally, and then
    each deque holds the most recent 500 values: the old window followed by
    the values of the accepted lines, with as many of the oldest values
    dropped as lines were accepted.  Both deques keep their length, and
    [total_samples] grows by the number of accepted lines. *)
Theorem update_window (parse_float : string -> option Q)
    (lines : list (option string)) (s : Plot.state) :
  Plot.full s ->
  head lines <> Some None ->
  exists s' evs,
    Plot.update parse_float lines s = inr (s', evs)
    /\ let xs := Plot.samples_of parse_float lines in
       Plot.voltage_left s'
       = drop (length xs) (Plot.voltage_left s ++ map fst xs)
       /\ Plot.voltage_right s'
          = drop (length xs) (Plot.voltage_right s ++ map snd xs)
       /\ Plot.full s'
       /\ Plot.total_samples s' = Plot.total_samples s + Z.of_nat (length xs).
Proof.
  intros [Hfl Hfr] Hhead.
  pose proof (update_cases parse_float lines s) as H.
  destruct (Plot.update parse_float lines s) as [e|[s' evs]].
  { destruct H as [_ H]. contradiction. }
  exists s', evs. split; [reflexivity|]. cbn zeta in *.
  destruct H as (_ & Hl & Hr & Ht & _).
  destruct (deque_window (map fst (Plot.samples_of parse_float lines)) _ Hfl)
    as [Wl Ll].
  destruct (deque_window (map snd (Plot.samples_of parse_float lines)) _ Hfr)
    as [Wr Lr].
  rewrite length_map in Wl, Wr.
  unfold Plot.full. rewrite Hl, Hr, Wl, Wr, <- Wl, <- Wr.
  repeat split; assumption.
Qed.

Lemma update_window_witness :
  exists s' evs,
    Plot.update (fun _ => Some (33 # 10))
      [Some "3.3,3.3"%string; Some "noise"%string; None] Plot.initial_state
    = inr (s', evs)
    /\ length (Plot.voltage_left s') = 500%nat
    /\ last (Plot.voltage_left s') = Some (33 # 10)
    /\ Plot.total_samples s' = 1.
Proof.
  destruct (update_window (fun _ => Some (33 # 10))
              [Some "3.3,3.3"%string; Some "noise"%string; None]
              Plot.initial_state)
    as (s' & evs & Hu & Hl & _ & [Hfull _] & Ht).
  - split; reflexivity.
  - discriminate.
  - exists s', evs. split; [exact Hu|]. split; [exact Hfull|].
    split; [rewrite Hl; vm_compute; reflexivity | exact Ht].
Defined.

(** [X24] A call of [update] fails in exactly one situation: the first line
    it reads is not valid UTF-8.  The handler then prints [line_data] before
    any assignment to it, which raises [UnboundLocalError]; the handler does
    not catch it.  Every other bad line (undecodable after the first, wrong
    number of fields, not a number) is reported and skipped. *)
Theorem update_fails_on_undecodable_first_line
    (parse_float : string -> option Q)
    (lines : list (option string)) (s : Plot.state) (e : Plot.exn) :
  Plot.update parse_float lines s = inl e
  <-> e = Plot.UnboundLocalError /\ head lines = Some None.
Proof.
  pose proof (update_cases parse_float lines s) as H.
  destruct (Plot.update parse_float lines s) as [e'|[s' evs]].
  - destruct H as [-> H]. split.
    + intros Heq; injection Heq as <-. split; [reflexivity | exact H].
    + intros [-> _]. reflexivity.
  - destruct H as [H _]. split; [discriminate|].
    intros [_ Hn]. contradiction.
Qed.

(** [X25] While no sample arrives, the "no data" warning is printed on every
    40th consecutive frame and at no other: after [n] such frames, starting
    with the counter at [e < 40], it has been printed [(e + n) / 40] times
    and the counter is [(e + n) mod 40].  The deques and [total_samples] are
    left as they were. *)
Theorem no_data_warning (parse_float : string -> option Q)
    (calls : list (list (option string))) (s : Plot.state) :
  Forall (fun lines => Plot.samples_of parse_float lines = []
                       /\ head lines <> Some None) calls ->
  0 <= Plot.empty_frames s < 40 ->
  exists s' evs,
    Plot.run parse_float calls s = inr (s', evs)
    /\ Z.of_nat (length (List.filter Plot.is_warning evs))
       = (Plot.empty_frames s + Z.of_nat (length calls)) / 40
    /\ Plot.empty_frames s'
       = (Plot.empty_frames s + Z.of_nat (length calls)) mod 40
    /\ Plot.voltage_left s' = Plot.voltage_left s
    /\ Plot.voltage_right s' = Plot.voltage_right s
    /\ Plot.total_samples s' = Plot.total_samples s.
Proof.
  intros Hall. revert s.
  induction Hall as [|lines calls [Hnil Hhead] Hall IH]; intros s He.
  - exists s, []. cbn. rewrite Z.add_0_r, Z.div_small, Z.mod_small by lia.
    repeat split; reflexivity.
  - cbn [Plot.run length].
    pose proof (update_cases parse_float lines s) as H.
    destruct (Plot.update parse_float lines s) as [e|[s1 evs1]].
    { destruct H as [_ H]. contradiction. }
    cbn zeta in H. rewrite Hnil in H. cbn in H.
    destruct H as (_ & Hl & Hr & Ht & _ & H). destruct (H eq_refl) as [He1 Hw1].
    assert (Hrange : 0 <= Plot.empty_frames s1 < 40).
    { rewrite He1. destruct (Z.eqb_spec (Plot.empty_frames s + 1) 40); lia. }
    destruct (IH s1 Hrange) as (s' & evs & -> & Hc & Hm & Hl' & Hr' & Ht').
    exists s', (evs1 ++ evs). split; [reflexivity|].
    rewrite List.filter_app, length_app, Hw1, Nat2Z.inj_add, Hc, Hm, Hl', Hr', Ht'.
    rewrite Hl, Hr, Ht, He1, Z.add_0_r, Nat2Z.inj_succ.
    set (n := Z.of_nat (length calls)).
    split; [|split; [|repeat split; reflexivity]].
    + destruct (Z.eqb_spec (Plot.empty_frames s + 1) 40) as [E|E].
      * replace (Plot.empty_frames s + Z.succ n) with (n + 1 * 40) by lia.
        rewrite Z.div_add by lia. cbn [length]. rewrite Z.add_0_l. lia.
      * cbn [length]. change (Z.of_nat 0) with 0. rewrite Z.add_0_l.
        f_equal. lia.
    + destruct (Z.eqb_spec (Plot.empty_frames s + 1) 40) as [E|E].
      * replace (Plot.empty_frames s + Z.succ n) with (n + 1 * 40) by lia.
        rewrite Z.mod_add by lia. reflexivity.
      * f_equal. lia.
Qed.

Lemma no_data_warning_witness :
  exists s' evs,
    Plot.run (fun _ => None) (replicate 85 [Some "hello"%string]) Plot.initial_state
    = inr (s', evs)
    /\ length (List.filter Plot.is_warning evs) = 2%nat
    /\ Plot.empty_frames s' = 5.
Proof.
  destruct (no_data_warning (fun _ => None)
              (replicate 85 [Some "hello"%string]) Plot.initial_state)
    as (s' & evs & Hrun & Hc & Hm & _).
  - apply Forall_replicate. split; [reflexivity | discriminate].
  - unfold Plot.initial_state. simpl. lia.
  - exists s', evs. split; [exact Hrun|].
    rewrite length_replicate in Hc, Hm.
    change ((Plot.empty_frames Plot.initial_state + Z.of_nat 85) / 40)
      with 2 in Hc.
    change ((Plot.empty_frames Plot.initial_state + Z.of_nat 85) mod 40)
      with 5 in Hm.
    split; [lia | exact Hm].
Defined.
